(** * Game-Vibe-Chess: rules engine, move execution and search agent

    A shallow embedding of [js/chess-pieces.js], of the [ChessGame]
    class (chess logic module) and of the [ChessAI] class (minimax
    module), followed by the properties of the engine.

    Conventions of the embedding.
    - Coordinates are JavaScript numbers that only ever hold integers;
      they are [Z], so that [row + direction] can leave the board.
    - A board is the 8x8 array of arrays of the source: a list of rows,
      each a list of cells, a cell being [None] for [null].
    - Piece objects are modelled by value.  The engine replaces
      [this.board] by a deep copy ([copyBoard]) around every simulated
      move, and writes [hasMoved] only on the piece it is about to store
      on the board, so the in-place writes of the source are applied to
      the value that is stored next.
    - Optional fields of the move objects ([capture], [promotion],
      [twoStep], [enPassant]) are only ever tested for truthiness:
      [undefined] is [false]; an absent [castling] is [None].
    - Methods that assign to fields of the game run in the monad [M]:
      a state monad over [ChessGame] whose failure is an uncaught
      [TypeError] (a property read or written on [null]). *)

From Stdlib Require Import ZArith QArith.QArith QArith.Qabs QArith.Qround.
From stdpp Require Import base tactics option list strings.

Local Open Scope Z_scope.

(** ** chess-pieces.js *)

Inductive PIECES := KING | QUEEN | ROOK | BISHOP | KNIGHT | PAWN.
Inductive COLORS := WHITE | BLACK.

#[global] Instance PIECES_eq_dec : EqDecision PIECES.
Proof. solve_decision. Defined.
#[global] Instance COLORS_eq_dec : EqDecision COLORS.
Proof. solve_decision. Defined.

Definition PIECE_SYMBOLS (color : COLORS) (type : PIECES) : string :=
  match color, type with
  | WHITE, KING => "♔" | WHITE, QUEEN => "♕" | WHITE, ROOK => "♖"
  | WHITE, BISHOP => "♗" | WHITE, KNIGHT => "♘" | WHITE, PAWN => "♙"
  | BLACK, KING => "♚" | BLACK, QUEEN => "♛" | BLACK, ROOK => "♜"
  | BLACK, BISHOP => "♝" | BLACK, KNIGHT => "♞" | BLACK, PAWN => "♟"
  end.

Definition PIECE_VALUES (type : PIECES) : Z :=
  match type with
  | KING => 10000 | QUEEN => 900 | ROOK => 500
  | BISHOP => 330 | KNIGHT => 320 | PAWN => 100
  end.

Record Piece := mkPiece {
  type : PIECES;
  color : COLORS;
  symbol : string;
  hasMoved : bool
}.

#[global] Instance Piece_eq_dec : EqDecision Piece.
Proof. solve_decision. Defined.

Abbreviation Board := (list (list (option Piece))).

Definition createPiece (type : PIECES) (color : COLORS) : Piece :=
  {| type := type; color := color;
     symbol := PIECE_SYMBOLS color type; hasMoved := false |}.

(** [piece.hasMoved = v] on a piece held by value. *)
Definition withHasMoved (v : bool) (piece : Piece) : Piece :=
  {| type := type piece; color := color piece;
     symbol := symbol piece; hasMoved := v |}.

Definition getInitialBoard : Board :=
  let board := replicate 8 (replicate 8 (None : option Piece)) in
  let board := <[0%nat := Some <$>
      [ createPiece ROOK BLACK; createPiece KNIGHT BLACK;
        createPiece BISHOP BLACK; createPiece QUEEN BLACK;
        createPiece KING BLACK; createPiece BISHOP BLACK;
        createPiece KNIGHT BLACK; createPiece ROOK BLACK ]]> board in
  let board := foldl (fun board i =>
      alter (<[i := Some (createPiece PAWN BLACK)]>) 1%nat board)
      board (seq 0 8) in
  let board := foldl (fun board i =>
      alter (<[i := Some (createPiece PAWN WHITE)]>) 6%nat board)
      board (seq 0 8) in
  <[7%nat := Some <$>
      [ createPiece ROOK WHITE; createPiece KNIGHT WHITE;
        createPiece BISHOP WHITE; createPiece QUEEN WHITE;
        createPiece KING WHITE; createPiece BISHOP WHITE;
        createPiece KNIGHT WHITE; createPiece ROOK WHITE ]]> board.

(** [{ ...piece }]: a fresh object with the same fields. *)
Definition spread (piece : Piece) : Piece :=
  {| type := type piece; color := color piece;
     symbol := symbol piece; hasMoved := hasMoved piece |}.

Definition copyBoard (board : Board) : Board :=
  map (fun row =>
    map (fun piece : option Piece =>
      match piece with Some p => Some (spread p) | None => None end) row)
    board.

(** ** Objects exchanged by the engine *)

Inductive CastlingSide := kingside | queenside.

#[global] Instance CastlingSide_eq_dec : EqDecision CastlingSide.
Proof. solve_decision. Defined.

(** A square [{ row, col }]. *)
Abbreviation Square := (Z * Z)%type.

(** The move objects pushed by the generators:
    [{ row, col, capture?, promotion?, twoStep?, enPassant?, castling? }]. *)
Module MoveInfo.
Record t := mk {
  row : Z;
  col : Z;
  capture : bool;
  promotion : bool;
  twoStep : bool;
  enPassant : bool;
  castling : option CastlingSide
}.

(** [{ row, col }] *)
Definition plain (row col : Z) : t :=
  mk row col false false false false None.
End MoveInfo.

#[global] Instance MoveInfo_eq_dec : EqDecision MoveInfo.t.
Proof. solve_decision. Defined.

(** The entries of [moveHistory], built by [makeMove]. *)
Module MoveRecord.
Record t := mk {
  from : Square;
  to : Square;
  piece : Piece;
  captured : option Piece;
  castling : option CastlingSide;
  enPassant : bool;
  promotion : bool;
  promotionPiece : option PIECES;
  previousEnPassant : option Square
}.

(** [move.captured = v] *)
Definition set_captured (v : option Piece) (move : t) : t :=
  mk (from move) (to move) (piece move) v (castling move) (enPassant move)
     (promotion move) (promotionPiece move) (previousEnPassant move).
End MoveRecord.

(** The entries returned by [getAllValidMoves]: [{ from, to, piece }]. *)
Module Candidate.
Record t := mk {
  from : Square;
  to : MoveInfo.t;
  piece : Piece
}.
End Candidate.

(** [winner]: [null], a colour, or ['draw']. *)
Inductive Winner := Won (color : COLORS) | draw.

#[global] Instance Winner_eq_dec : EqDecision Winner.
Proof. solve_decision. Defined.

Record Captured := mkCaptured {
  white : list Piece;
  black : list Piece
}.

Record ChessGame := mkGame {
  board : Board;
  currentTurn : COLORS;
  selectedPiece : option Square;
  validMoves : list MoveInfo.t;
  moveHistory : list MoveRecord.t;
  capturedPieces : Captured;
  enPassantTarget : option Square;
  gameOver : bool;
  winner : option Winner;
  isCheck : bool;
  lastMove : option (Square * Square)
}.

(** Field assignments [this.f = v]. *)
Definition set_board (v : Board) (g : ChessGame) : ChessGame :=
  mkGame v (currentTurn g) (selectedPiece g) (validMoves g) (moveHistory g)
    (capturedPieces g) (enPassantTarget g) (gameOver g) (winner g)
    (isCheck g) (lastMove g).
Definition set_currentTurn (v : COLORS) (g : ChessGame) : ChessGame :=
  mkGame (board g) v (selectedPiece g) (validMoves g) (moveHistory g)
    (capturedPieces g) (enPassantTarget g) (gameOver g) (winner g)
    (isCheck g) (lastMove g).
Definition set_validMoves (v : list MoveInfo.t) (g : ChessGame) : ChessGame :=
  mkGame (board g) (currentTurn g) (selectedPiece g) v (moveHistory g)
    (capturedPieces g) (enPassantTarget g) (gameOver g) (winner g)
    (isCheck g) (lastMove g).
Definition set_moveHistory (v : list MoveRecord.t) (g : ChessGame) : ChessGame :=
  mkGame (board g) (currentTurn g) (selectedPiece g) (validMoves g) v
    (capturedPieces g) (enPassantTarget g) (gameOver g) (winner g)
    (isCheck g) (lastMove g).
Definition set_capturedPieces (v : Captured) (g : ChessGame) : ChessGame :=
  mkGame (board g) (currentTurn g) (selectedPiece g) (validMoves g)
    (moveHistory g) v (enPassantTarget g) (gameOver g) (winner g)
    (isCheck g) (lastMove g).
Definition set_enPassantTarget (v : option Square) (g : ChessGame) : ChessGame :=
  mkGame (board g) (currentTurn g) (selectedPiece g) (validMoves g)
    (moveHistory g) (capturedPieces g) v (gameOver g) (winner g)
    (isCheck g) (lastMove g).
Definition set_gameOver (v : bool) (g : ChessGame) : ChessGame :=
  mkGame (board g) (currentTurn g) (selectedPiece g) (validMoves g)
    (moveHistory g) (capturedPieces g) (enPassantTarget g) v (winner g)
    (isCheck g) (lastMove g).
Definition set_winner (v : option Winner) (g : ChessGame) : ChessGame :=
  mkGame (board g) (currentTurn g) (selectedPiece g) (validMoves g)
    (moveHistory g) (capturedPieces g) (enPassantTarget g) (gameOver g) v
    (isCheck g) (lastMove g).
Definition set_isCheck (v : bool) (g : ChessGame) : ChessGame :=
  mkGame (board g) (currentTurn g) (selectedPiece g) (validMoves g)
    (moveHistory g) (capturedPieces g) (enPassantTarget g) (gameOver g)
    (winner g) v (lastMove g).
Definition set_lastMove (v : option (Square * Square)) (g : ChessGame) : ChessGame :=
  mkGame (board g) (currentTurn g) (selectedPiece g) (validMoves g)
    (moveHistory g) (capturedPieces g) (enPassantTarget g) (gameOver g)
    (winner g) (isCheck g) v.

(** [color === WHITE ? BLACK : WHITE] *)
Definition opponent (color : COLORS) : COLORS :=
  match color with WHITE => BLACK | BLACK => WHITE end.

(** [this.capturedPieces[color]] and the push and pop on it. *)
Definition capturedBy (color : COLORS) (cp : Captured) : list Piece :=
  match color with WHITE => white cp | BLACK => black cp end.
Definition set_capturedBy (color : COLORS) (v : list Piece) (cp : Captured)
  : Captured :=
  match color with
  | WHITE => mkCaptured v (black cp)
  | BLACK => mkCaptured (white cp) v
  end.

(** ** The monad of the mutating methods *)

Definition M (A : Type) : Type := ChessGame -> option (A * ChessGame).

Definition ret {A} (a : A) : M A := fun g => Some (a, g).
Definition bind {A B} (m : M A) (k : A -> M B) : M B :=
  fun g => match m g with
           | Some (a, g') => k a g'
           | None => None
           end.
Definition get : M ChessGame := fun g => Some (g, g).
Definition modify (f : ChessGame -> ChessGame) : M unit :=
  fun g => Some (tt, f g).
Definition throwTypeError {A} : M A := fun _ => None.

#[global] Instance M_ret : MRet M := @ret.
#[global] Instance M_bind : MBind M := fun A B k m => bind m k.

(** [for (const x of xs) { acc = body(acc, x) }] *)
Fixpoint forEachM {A B} (body : B -> A -> M B) (xs : list A) (acc : B) : M B :=
  match xs with
  | [] => ret acc
  | x :: xs' => acc' ← body acc x; forEachM body xs' acc'
  end.

(** ** chess-logic: the [ChessGame] class *)

Definition reset : ChessGame :=
  {| board := getInitialBoard;
     currentTurn := WHITE;
     selectedPiece := None;
     validMoves := [];
     moveHistory := [];
     capturedPieces := mkCaptured [] [];
     enPassantTarget := None;
     gameOver := false;
     winner := None;
     isCheck := false;
     lastMove := None |}.

(** [board[row][col]] behind the bounds check of the accessors. *)
Definition cellAt (b : Board) (row col : Z) : option Piece :=
  match b !! Z.to_nat row with
  | Some cells =>
      match cells !! Z.to_nat col with
      | Some cell => cell
      | None => None
      end
  | None => None
  end.

Definition getPiece (g : ChessGame) (row col : Z) : option Piece :=
  if decide (row < 0 ∨ row > 7 ∨ col < 0 ∨ col > 7) then None
  else cellAt (board g) row col.

(** [board[row][col] = piece] *)
Definition storeAt (b : Board) (row col : Z) (piece : option Piece) : Board :=
  alter (<[Z.to_nat col := piece]>) (Z.to_nat row) b.

Definition onBoard (r c : Z) : Prop := r >= 0 ∧ r <= 7 ∧ c >= 0 ∧ c <= 7.

#[global] Instance onBoard_dec r c : Decision (onBoard r c).
Proof. unfold onBoard. apply _. Defined.

Definition setPiece (row col : Z) (piece : option Piece) : M unit :=
  if decide (onBoard row col) then
    modify (fun g => set_board (storeAt (board g) row col piece) g)
  else mret tt.

(** The squares in the order of the nested [row], [col] loops. *)
Definition allSquares : list Square :=
  row ← seqZ 0 8; col ← seqZ 0 8; [(row, col)].

Definition findKing (g : ChessGame) (clr : COLORS) : option Square :=
  find (fun '(row, col) =>
          match getPiece g row col with
          | Some piece => bool_decide (type piece = KING ∧ color piece = clr)
          | None => false
          end) allSquares.

(** [!target || target.color !== piece.color] *)
Definition emptyOrEnemy (target : option Piece) (piece : Piece) : bool :=
  match target with
  | None => true
  | Some t => bool_decide (color t ≠ color piece)
  end.

(** [target && target.color !== piece.color] *)
Definition isEnemy (target : option Piece) (piece : Piece) : bool :=
  match target with
  | None => false
  | Some t => bool_decide (color t ≠ color piece)
  end.

(** [!!target] *)
Definition truthy (target : option Piece) : bool :=
  match target with Some _ => true | None => false end.

Definition getPawnMoves (g : ChessGame) (row col : Z) (piece : Piece)
    (moves : list MoveInfo.t) (attackOnly : bool) : list MoveInfo.t :=
  let direction := if decide (color piece = WHITE) then -1 else 1 in
  let startRow := if decide (color piece = WHITE) then 6 else 1 in
  let promotionRow := if decide (color piece = WHITE) then 0 else 7 in
  let moves :=
    if negb attackOnly then
      let oneStep := row + direction in
      if decide (oneStep >= 0 ∧ oneStep <= 7 ∧ getPiece g oneStep col = None) then
        let moves := moves ++
          [MoveInfo.mk oneStep col false (bool_decide (oneStep = promotionRow))
                       false false None] in
        if decide (row = startRow) then
          let twoStep := row + 2 * direction in
          if decide (getPiece g twoStep col = None) then
            moves ++ [MoveInfo.mk twoStep col false false true false None]
          else moves
        else moves
      else moves
    else moves in
  foldl (fun moves dc =>
    let newRow := row + direction in
    let newCol := col + dc in
    if decide (onBoard newRow newCol) then
      let target := getPiece g newRow newCol in
      let moves :=
        if attackOnly then moves ++ [MoveInfo.plain newRow newCol]
        else if isEnemy target piece then
          moves ++ [MoveInfo.mk newRow newCol true
                      (bool_decide (newRow = promotionRow)) false false None]
        else moves in
      if negb attackOnly
         && bool_decide (enPassantTarget g = Some (newRow, newCol)) then
        moves ++ [MoveInfo.mk newRow newCol true false false true None]
      else moves
    else moves) moves [-1; 1].

(** The [while] loop of [getSlidingMoves] along one direction, started at
    [(r, c)]; a ray leaves the board after at most 7 squares, so the
    callers' fuel of 8 is never exhausted ([slide_fuel]). *)
Fixpoint slide (fuel : nat) (g : ChessGame) (piece : Piece) (dr dc r c : Z)
    (moves : list MoveInfo.t) : list MoveInfo.t :=
  match fuel with
  | O => moves
  | S fuel' =>
      if decide (onBoard r c) then
        match getPiece g r c with
        | None =>
            slide fuel' g piece dr dc (r + dr) (c + dc)
                  (moves ++ [MoveInfo.plain r c])
        | Some target =>
            if decide (color target ≠ color piece) then
              moves ++ [MoveInfo.mk r c true false false false None]
            else moves
        end
      else moves
  end.

Definition getSlidingMoves (g : ChessGame) (row col : Z) (piece : Piece)
    (moves : list MoveInfo.t) (directions : list (Z * Z)) : list MoveInfo.t :=
  foldl (fun moves '(dr, dc) =>
           slide 8 g piece dr dc (row + dr) (col + dc) moves)
        moves directions.

(** The loop over a table of offsets shared by knight and king. *)
Definition offsetMoves (g : ChessGame) (row col : Z) (piece : Piece)
    (moves : list MoveInfo.t) (offsets : list (Z * Z)) : list MoveInfo.t :=
  foldl (fun moves '(dr, dc) =>
           let r := row + dr in
           let c := col + dc in
           if decide (onBoard r c) then
             let target := getPiece g r c in
             if emptyOrEnemy target piece then
               moves ++ [MoveInfo.mk r c (truthy target) false false false None]
             else moves
           else moves)
        moves offsets.

Definition knightOffsets : list (Z * Z) :=
  [(-2, -1); (-2, 1); (-1, -2); (-1, 2); (1, -2); (1, 2); (2, -1); (2, 1)].

Definition kingOffsets : list (Z * Z) :=
  [(-1, -1); (-1, 0); (-1, 1); (0, -1); (0, 1); (1, -1); (1, 0); (1, 1)].

Definition rookDirections : list (Z * Z) := [(0, 1); (0, -1); (1, 0); (-1, 0)].
Definition bishopDirections : list (Z * Z) := [(1, 1); (1, -1); (-1, 1); (-1, -1)].
Definition queenDirections : list (Z * Z) :=
  [(0, 1); (0, -1); (1, 0); (-1, 0); (1, 1); (1, -1); (-1, 1); (-1, -1)].

Definition getKnightMoves (g : ChessGame) (row col : Z) (piece : Piece)
    (moves : list MoveInfo.t) : list MoveInfo.t :=
  offsetMoves g row col piece moves knightOffsets.

(** [getKingMoves] calls [isInCheck] and [getCastlingMoves] calls
    [isSquareAttacked], which call [getRawMoves] again, with
    [attackOnly = true]: under that flag the castling branch is skipped
    and the recursion stops.  The generators are first written over the
    two methods they call back; the knot is tied below. *)
Section Generators.
Variable isInCheck : ChessGame -> COLORS -> bool.
Variable isSquareAttacked : ChessGame -> Z -> Z -> COLORS -> bool.

Definition getCastlingMovesWith (g : ChessGame) (row col : Z) (piece : Piece)
    (moves : list MoveInfo.t) : list MoveInfo.t :=
  let opponentColor := opponent (color piece) in
  let moves :=
    match getPiece g row 7 with
    | Some kingsideRook =>
        if decide (type kingsideRook = ROOK ∧ hasMoved kingsideRook = false) then
          if decide (getPiece g row 5 = None ∧ getPiece g row 6 = None) then
            if negb (isSquareAttacked g row 5 opponentColor)
               && negb (isSquareAttacked g row 6 opponentColor) then
              moves ++ [MoveInfo.mk row 6 false false false false (Some kingside)]
            else moves
          else moves
        else moves
    | None => moves
    end in
  match getPiece g row 0 with
  | Some queensideRook =>
      if decide (type queensideRook = ROOK ∧ hasMoved queensideRook = false) then
        if decide (getPiece g row 1 = None ∧ getPiece g row 2 = None
                   ∧ getPiece g row 3 = None) then
          if negb (isSquareAttacked g row 2 opponentColor)
             && negb (isSquareAttacked g row 3 opponentColor) then
            moves ++ [MoveInfo.mk row 2 false false false false (Some queenside)]
          else moves
        else moves
      else moves
  | None => moves
  end.

Definition getKingMovesWith (g : ChessGame) (row col : Z) (piece : Piece)
    (moves : list MoveInfo.t) (attackOnly : bool) : list MoveInfo.t :=
  let moves := offsetMoves g row col piece moves kingOffsets in
  if negb attackOnly && negb (hasMoved piece)
     && negb (isInCheck g (color piece)) then
    getCastlingMovesWith g row col piece moves
  else moves.

Definition getRawMovesWith (g : ChessGame) (row col : Z) (piece : Piece)
    (attackOnly : bool) : list MoveInfo.t :=
  let moves := [] in
  match type piece with
  | PAWN => getPawnMoves g row col piece moves attackOnly
  | ROOK => getSlidingMoves g row col piece moves rookDirections
  | KNIGHT => getKnightMoves g row col piece moves
  | BISHOP => getSlidingMoves g row col piece moves bishopDirections
  | QUEEN => getSlidingMoves g row col piece moves queenDirections
  | KING => getKingMovesWith g row col piece moves attackOnly
  end.
End Generators.

(** [getRawMoves(r, c, piece, true)]: no callback is consulted. *)
Definition attackMoves (g : ChessGame) (row col : Z) (piece : Piece)
  : list MoveInfo.t :=
  getRawMovesWith (fun _ _ => false) (fun _ _ _ _ => false) g row col piece true.

Definition isSquareAttacked (g : ChessGame) (row col : Z) (byColor : COLORS)
  : bool :=
  existsb (fun '(r, c) =>
    match getPiece g r c with
    | Some piece =>
        bool_decide (color piece = byColor)
        && existsb (fun m => bool_decide (MoveInfo.row m = row
                                          ∧ MoveInfo.col m = col))
                   (attackMoves g r c piece)
    | None => false
    end) allSquares.

Definition isInCheck (g : ChessGame) (clr : COLORS) : bool :=
  match findKing g clr with
  | None => false
  | Some (kingRow, kingCol) =>
      let opponentColor := opponent clr in
      isSquareAttacked g kingRow kingCol opponentColor
  end.

Definition getCastlingMoves := getCastlingMovesWith isSquareAttacked.
Definition getKingMoves := getKingMovesWith isInCheck isSquareAttacked.
Definition getRawMoves := getRawMovesWith isInCheck isSquareAttacked.

(** [simulateMove]: [piece.color] is read only under [moveInfo.enPassant]. *)
Definition simulateMove (fromRow fromCol toRow toCol : Z)
    (moveInfo : option MoveInfo.t) : M unit :=
  g ← get;
  let piece := getPiece g fromRow fromCol in
  (if default false (MoveInfo.enPassant <$> moveInfo) then
     match piece with
     | Some p =>
         let capturedRow :=
           if decide (color p = WHITE) then toRow + 1 else toRow - 1 in
         setPiece capturedRow toCol None
     | None => throwTypeError
     end
   else mret tt);;
  match moveInfo ≫= MoveInfo.castling with
  | Some kingside =>
      g ← get;
      let rook := getPiece g fromRow 7 in
      setPiece fromRow 7 None;;
      setPiece fromRow 5 rook
  | Some queenside =>
      g ← get;
      let rook := getPiece g fromRow 0 in
      setPiece fromRow 0 None;;
      setPiece fromRow 3 rook
  | None => mret tt
  end;;
  setPiece toRow toCol piece;;
  setPiece fromRow fromCol None.

(** One iteration of the loop of [getValidMoves] over [rawMoves]. *)
Definition tryMove (row col : Z) (piece : Piece)
    (validMoves : list MoveInfo.t) (move : MoveInfo.t) : M (list MoveInfo.t) :=
  g ← get;
  let originalBoard := copyBoard (board g) in
  let originalEnPassant := enPassantTarget g in
  simulateMove row col (MoveInfo.row move) (MoveInfo.col move) (Some move);;
  g ← get;
  let validMoves :=
    if negb (isInCheck g (color piece)) then validMoves ++ [move]
    else validMoves in
  modify (set_board originalBoard);;
  modify (set_enPassantTarget originalEnPassant);;
  mret validMoves.

Definition getValidMoves (row col : Z) : M (list MoveInfo.t) :=
  g ← get;
  match getPiece g row col with
  | None => mret []
  | Some piece =>
      if decide (color piece ≠ currentTurn g) then mret []
      else
        let rawMoves := getRawMoves g row col piece false in
        forEachM (tryMove row col piece) rawMoves []
  end.

(** [for row, for col: if (piece && piece.color === color) body(row, col, piece)] *)
Definition getAllValidMoves (clr : COLORS) : M (list Candidate.t) :=
  forEachM (fun allMoves '(row, col) =>
    g ← get;
    match getPiece g row col with
    | Some piece =>
        if decide (color piece = clr) then
          moves ← getValidMoves row col;
          mret (allMoves ++
                ((fun move => Candidate.mk (row, col) move piece) <$> moves))
        else mret allMoves
    | None => mret allMoves
    end) allSquares [].


(** The labelled double loop of [checkGameState]: [true] as soon as one
    piece of the side to move has a valid move ([break outerLoop]). *)
Fixpoint hasValidMovesFrom (squares : list Square) : M bool :=
  match squares with
  | [] => mret false
  | (row, col) :: squares' =>
      g ← get;
      match getPiece g row col with
      | Some piece =>
          if decide (color piece = currentTurn g) then
            moves ← getValidMoves row col;
            if decide (0 < length moves)%nat then mret true
            else hasValidMovesFrom squares'
          else hasValidMovesFrom squares'
      | None => hasValidMovesFrom squares'
      end
  end.

Definition checkGameState : M unit :=
  g ← get;
  modify (set_isCheck (isInCheck g (currentTurn g)));;
  hasValidMoves ← hasValidMovesFrom allSquares;
  if negb hasValidMoves then
    modify (set_gameOver true);;
    g ← get;
    if isCheck g then
      modify (set_winner (Some (Won (opponent (currentTurn g)))))
    else
      modify (set_winner (Some draw))
  else mret tt.

(** [m => m.row === toRow && m.col === toCol] *)
Definition landsOn (toRow toCol : Z) (m : MoveInfo.t) : bool :=
  bool_decide (MoveInfo.row m = toRow ∧ MoveInfo.col m = toCol).

Definition makeMove (fromRow fromCol toRow toCol : Z)
    (promotionPiece : option PIECES) : M bool :=
  g ← get;
  match getPiece g fromRow fromCol with
  | None => mret false
  | Some piece =>
  match find (landsOn toRow toCol) (validMoves g) with
  | None => mret false
  | Some moveInfo =>
      let move :=
        MoveRecord.mk (fromRow, fromCol) (toRow, toCol) (spread piece) None
          (MoveInfo.castling moveInfo) (MoveInfo.enPassant moveInfo)
          (MoveInfo.promotion moveInfo) promotionPiece (enPassantTarget g) in
      let capturedPiece := getPiece g toRow toCol in
      capturedPiece ←
        (if MoveInfo.enPassant moveInfo then
           let capturedRow :=
             if decide (color piece = WHITE) then toRow + 1 else toRow - 1 in
           let capturedPiece := getPiece g capturedRow toCol in
           setPiece capturedRow toCol None;;
           mret capturedPiece
         else mret capturedPiece);
      move ←
        match capturedPiece with
        | Some cp =>
            modify (fun g =>
              set_capturedPieces
                (set_capturedBy (color piece)
                   (capturedBy (color piece) (capturedPieces g) ++ [cp])
                   (capturedPieces g)) g);;
            mret (MoveRecord.set_captured (Some (spread cp)) move)
        | None => mret move
        end;
      match MoveInfo.castling moveInfo with
      | Some kingside =>
          g ← get;
          match getPiece g fromRow 7 with
          | Some rook =>
              let rook := withHasMoved true rook in
              setPiece fromRow 7 None;;
              setPiece fromRow 5 (Some rook)
          | None => throwTypeError
          end
      | Some queenside =>
          g ← get;
          match getPiece g fromRow 0 with
          | Some rook =>
              let rook := withHasMoved true rook in
              setPiece fromRow 0 None;;
              setPiece fromRow 3 (Some rook)
          | None => throwTypeError
          end
      | None => mret tt
      end;;
      let piece := withHasMoved true piece in
      setPiece toRow toCol (Some piece);;
      setPiece fromRow fromCol None;;
      match promotionPiece with
      | Some promotionType =>
          if MoveInfo.promotion moveInfo then
            let promotedPiece := createPiece promotionType (color piece) in
            let promotedPiece := withHasMoved true promotedPiece in
            setPiece toRow toCol (Some promotedPiece)
          else mret tt
      | None => mret tt
      end;;
      modify (set_enPassantTarget
        (if MoveInfo.twoStep moveInfo then
           Some (if decide (color piece = WHITE) then toRow + 1 else toRow - 1,
                 toCol)
         else None));;
      modify (set_lastMove (Some ((fromRow, fromCol), (toRow, toCol))));;
      modify (fun g => set_moveHistory (moveHistory g ++ [move]) g);;
      modify (fun g => set_currentTurn (opponent (currentTurn g)) g);;
      checkGameState;;
      mret true
  end
  end.

Definition undoMove : M bool :=
  g ← get;
  match last (moveHistory g) with
  | None => mret false
  | Some move =>
      modify (set_moveHistory (removelast (moveHistory g)));;
      let piece :=
        match MoveRecord.promotionPiece move with
        | Some _ =>
            if MoveRecord.promotion move then
              createPiece PAWN (color (MoveRecord.piece move))
            else spread (MoveRecord.piece move)
        | None => spread (MoveRecord.piece move)
        end in
      let piece := withHasMoved (hasMoved (MoveRecord.piece move)) piece in
      let '(fromRow, fromCol) := MoveRecord.from move in
      let '(toRow, toCol) := MoveRecord.to move in
      setPiece fromRow fromCol (Some piece);;
      setPiece toRow toCol None;;
      match MoveRecord.captured move with
      | Some captured =>
          (if MoveRecord.enPassant move then
             let capturedRow :=
               if decide (color piece = WHITE) then toRow + 1 else toRow - 1 in
             setPiece capturedRow toCol (Some captured)
           else setPiece toRow toCol (Some captured));;
          modify (fun g =>
            set_capturedPieces
              (set_capturedBy (color piece)
                 (removelast (capturedBy (color piece) (capturedPieces g)))
                 (capturedPieces g)) g)
      | None => mret tt
      end;;
      match MoveRecord.castling move with
      | Some kingside =>
          g ← get;
          match getPiece g fromRow 5 with
          | Some rook =>
              let rook := withHasMoved false rook in
              setPiece fromRow 5 None;;
              setPiece fromRow 7 (Some rook)
          | None => throwTypeError
          end
      | Some queenside =>
          g ← get;
          match getPiece g fromRow 3 with
          | Some rook =>
              let rook := withHasMoved false rook in
              setPiece fromRow 3 None;;
              setPiece fromRow 0 (Some rook)
          | None => throwTypeError
          end
      | None => mret tt
      end;;
      modify (set_enPassantTarget (MoveRecord.previousEnPassant move));;
      modify (fun g => set_currentTurn (opponent (currentTurn g)) g);;
      modify (set_gameOver false);;
      modify (set_winner None);;
      g ← get;
      modify (set_isCheck (isInCheck g (currentTurn g)));;
      modify (fun g =>
        set_lastMove
          (match last (moveHistory g) with
           | Some lastHistoryMove =>
               Some (MoveRecord.from lastHistoryMove, MoveRecord.to lastHistoryMove)
           | None => None
           end) g);;
      mret true
  end.

(** [ChessUI.selectPiece], the part that touches the game:
    [this.game.validMoves = this.game.getValidMoves(row, col)]. *)
Definition selectPiece (row col : Z) : M unit :=
  moves ← getValidMoves row col;
  modify (set_validMoves moves).

(** Select, then move: what a click on a piece followed by a click on a
    highlighted square submits, and what [makeAIMove] does with the
    search result. *)
Definition playMove (fromRow fromCol toRow toCol : Z)
    (promotionPiece : option PIECES) : M bool :=
  selectPiece fromRow fromCol;;
  makeMove fromRow fromCol toRow toCol promotionPiece.

Definition exec {A} (m : M A) (g : ChessGame) : option ChessGame := snd <$> m g.
Definition run {A} (m : M A) (g : ChessGame) : option A := fst <$> m g.

(** A game record: the moves are played in turn from [g], each selected
    and then made; [None] as soon as one of them is refused. *)
Fixpoint playAll (moves : list (Z * Z * Z * Z * option PIECES))
    (g : ChessGame) : option ChessGame :=
  match moves with
  | [] => Some g
  | (fromRow, fromCol, toRow, toCol, promotionPiece) :: moves' =>
      match playMove fromRow fromCol toRow toCol promotionPiece g with
      | Some (true, g') => playAll moves' g'
      | _ => None
      end
  end.

(** 1. f3 e5 2. g4 Qh4# *)
Definition foolsMate : list (Z * Z * Z * Z * option PIECES) :=
  [ (6, 5, 5, 5, None); (1, 4, 3, 4, None);
    (6, 6, 4, 6, None); (0, 3, 4, 7, None) ].

(** 1. e4 a6 2. e5 d5 *)
Definition enPassantOpening : list (Z * Z * Z * Z * option PIECES) :=
  [ (6, 4, 4, 4, None); (1, 0, 2, 0, None);
    (4, 4, 3, 4, None); (1, 3, 3, 3, None) ].

(** 1. a4 b5 2. axb5 a6 3. bxa6 Bb7 4. axb7 Nc6: the white pawn on b7
    can take the rook on a8. *)
Definition promotionOpening : list (Z * Z * Z * Z * option PIECES) :=
  [ (6, 0, 4, 0, None); (1, 1, 3, 1, None);
    (4, 0, 3, 1, None); (1, 0, 2, 0, None);
    (3, 1, 2, 0, None); (0, 2, 1, 1, None);
    (2, 0, 1, 1, None); (0, 1, 2, 2, None) ].

(** ** Position bonus tables of chess-pieces.js *)

Definition POSITION_BONUS (type : PIECES) (color : COLORS) : list (list Z) :=
  match type, color with
  | PAWN, WHITE =>
      [ [0; 0; 0; 0; 0; 0; 0; 0];
        [50; 50; 50; 50; 50; 50; 50; 50];
        [10; 10; 20; 30; 30; 20; 10; 10];
        [5; 5; 10; 25; 25; 10; 5; 5];
        [0; 0; 0; 20; 20; 0; 0; 0];
        [5; (-5); (-10); 0; 0; (-10); (-5); 5];
        [5; 10; 10; (-20); (-20); 10; 10; 5];
        [0; 0; 0; 0; 0; 0; 0; 0] ]
  | PAWN, BLACK =>
      [ [0; 0; 0; 0; 0; 0; 0; 0];
        [5; 10; 10; (-20); (-20); 10; 10; 5];
        [5; (-5); (-10); 0; 0; (-10); (-5); 5];
        [0; 0; 0; 20; 20; 0; 0; 0];
        [5; 5; 10; 25; 25; 10; 5; 5];
        [10; 10; 20; 30; 30; 20; 10; 10];
        [50; 50; 50; 50; 50; 50; 50; 50];
        [0; 0; 0; 0; 0; 0; 0; 0] ]
  | KNIGHT, WHITE =>
      [ [(-50); (-40); (-30); (-30); (-30); (-30); (-40); (-50)];
        [(-40); (-20); 0; 0; 0; 0; (-20); (-40)];
        [(-30); 0; 10; 15; 15; 10; 0; (-30)];
        [(-30); 5; 15; 20; 20; 15; 5; (-30)];
        [(-30); 0; 15; 20; 20; 15; 0; (-30)];
        [(-30); 5; 10; 15; 15; 10; 5; (-30)];
        [(-40); (-20); 0; 5; 5; 0; (-20); (-40)];
        [(-50); (-40); (-30); (-30); (-30); (-30); (-40); (-50)] ]
  | KNIGHT, BLACK =>
      [ [(-50); (-40); (-30); (-30); (-30); (-30); (-40); (-50)];
        [(-40); (-20); 0; 5; 5; 0; (-20); (-40)];
        [(-30); 5; 10; 15; 15; 10; 5; (-30)];
        [(-30); 0; 15; 20; 20; 15; 0; (-30)];
        [(-30); 5; 15; 20; 20; 15; 5; (-30)];
        [(-30); 0; 10; 15; 15; 10; 0; (-30)];
        [(-40); (-20); 0; 0; 0; 0; (-20); (-40)];
        [(-50); (-40); (-30); (-30); (-30); (-30); (-40); (-50)] ]
  | BISHOP, WHITE =>
      [ [(-20); (-10); (-10); (-10); (-10); (-10); (-10); (-20)];
        [(-10); 0; 0; 0; 0; 0; 0; (-10)];
        [(-10); 0; 5; 10; 10; 5; 0; (-10)];
        [(-10); 5; 5; 10; 10; 5; 5; (-10)];
        [(-10); 0; 10; 10; 10; 10; 0; (-10)];
        [(-10); 10; 10; 10; 10; 10; 10; (-10)];
        [(-10); 5; 0; 0; 0; 0; 5; (-10)];
        [(-20); (-10); (-10); (-10); (-10); (-10); (-10); (-20)] ]
  | BISHOP, BLACK =>
      [ [(-20); (-10); (-10); (-10); (-10); (-10); (-10); (-20)];
        [(-10); 5; 0; 0; 0; 0; 5; (-10)];
        [(-10); 10; 10; 10; 10; 10; 10; (-10)];
        [(-10); 0; 10; 10; 10; 10; 0; (-10)];
        [(-10); 5; 5; 10; 10; 5; 5; (-10)];
        [(-10); 0; 5; 10; 10; 5; 0; (-10)];
        [(-10); 0; 0; 0; 0; 0; 0; (-10)];
        [(-20); (-10); (-10); (-10); (-10); (-10); (-10); (-20)] ]
  | ROOK, WHITE =>
      [ [0; 0; 0; 0; 0; 0; 0; 0];
        [5; 10; 10; 10; 10; 10; 10; 5];
        [(-5); 0; 0; 0; 0; 0; 0; (-5)];
        [(-5); 0; 0; 0; 0; 0; 0; (-5)];
        [(-5); 0; 0; 0; 0; 0; 0; (-5)];
        [(-5); 0; 0; 0; 0; 0; 0; (-5)];
        [(-5); 0; 0; 0; 0; 0; 0; (-5)];
        [0; 0; 0; 5; 5; 0; 0; 0] ]
  | ROOK, BLACK =>
      [ [0; 0; 0; 5; 5; 0; 0; 0];
        [(-5); 0; 0; 0; 0; 0; 0; (-5)];
        [(-5); 0; 0; 0; 0; 0; 0; (-5)];
        [(-5); 0; 0; 0; 0; 0; 0; (-5)];
        [(-5); 0; 0; 0; 0; 0; 0; (-5)];
        [(-5); 0; 0; 0; 0; 0; 0; (-5)];
        [5; 10; 10; 10; 10; 10; 10; 5];
        [0; 0; 0; 0; 0; 0; 0; 0] ]
  | QUEEN, WHITE =>
      [ [(-20); (-10); (-10); (-5); (-5); (-10); (-10); (-20)];
        [(-10); 0; 0; 0; 0; 0; 0; (-10)];
        [(-10); 0; 5; 5; 5; 5; 0; (-10)];
        [(-5); 0; 5; 5; 5; 5; 0; (-5)];
        [0; 0; 5; 5; 5; 5; 0; (-5)];
        [(-10); 5; 5; 5; 5; 5; 0; (-10)];
        [(-10); 0; 5; 0; 0; 0; 0; (-10)];
        [(-20); (-10); (-10); (-5); (-5); (-10); (-10); (-20)] ]
  | QUEEN, BLACK =>
      [ [(-20); (-10); (-10); (-5); (-5); (-10); (-10); (-20)];
        [(-10); 0; 5; 0; 0; 0; 0; (-10)];
        [(-10); 5; 5; 5; 5; 5; 0; (-10)];
        [0; 0; 5; 5; 5; 5; 0; (-5)];
        [(-5); 0; 5; 5; 5; 5; 0; (-5)];
        [(-10); 0; 5; 5; 5; 5; 0; (-10)];
        [(-10); 0; 0; 0; 0; 0; 0; (-10)];
        [(-20); (-10); (-10); (-5); (-5); (-10); (-10); (-20)] ]
  | KING, WHITE =>
      [ [(-30); (-40); (-40); (-50); (-50); (-40); (-40); (-30)];
        [(-30); (-40); (-40); (-50); (-50); (-40); (-40); (-30)];
        [(-30); (-40); (-40); (-50); (-50); (-40); (-40); (-30)];
        [(-30); (-40); (-40); (-50); (-50); (-40); (-40); (-30)];
        [(-20); (-30); (-30); (-40); (-40); (-30); (-30); (-20)];
        [(-10); (-20); (-20); (-20); (-20); (-20); (-20); (-10)];
        [20; 20; 0; 0; 0; 0; 20; 20];
        [20; 30; 10; 0; 0; 10; 30; 20] ]
  | KING, BLACK =>
      [ [20; 30; 10; 0; 0; 10; 30; 20];
        [20; 20; 0; 0; 0; 0; 20; 20];
        [(-10); (-20); (-20); (-20); (-20); (-20); (-20); (-10)];
        [(-20); (-30); (-30); (-40); (-40); (-30); (-30); (-20)];
        [(-30); (-40); (-40); (-50); (-50); (-40); (-40); (-30)];
        [(-30); (-40); (-40); (-50); (-50); (-40); (-40); (-30)];
        [(-30); (-40); (-40); (-50); (-50); (-40); (-40); (-30)];
        [(-30); (-40); (-40); (-50); (-50); (-40); (-40); (-30)] ]
  end.

(** ** chess-ai: the [ChessAI] class

    The search works on the caller's [game] object: every method below
    that assigns to [game.board], [game.enPassantTarget] or
    [game.currentTurn] runs in [M]. *)

(** Scores: JavaScript numbers that hold integers, [-Infinity] or
    [Infinity]. *)
Inductive Score := NegInfinity | Finite (z : Z) | Infinity.

Definition Score_le (a b : Score) : bool :=
  match a, b with
  | NegInfinity, _ => true
  | _, Infinity => true
  | Finite x, Finite y => bool_decide (x <= y)
  | _, _ => false
  end.
Definition Score_gt (a b : Score) : bool := negb (Score_le a b).
Definition Score_max (a b : Score) : Score := if Score_le a b then b else a.
Definition Score_min (a b : Score) : Score := if Score_le a b then a else b.

Record ChessAI := mkAI {
  difficulty : string;
  maxDepth : nat;
  randomFactor : Q
}.

Definition setDifficulty (difficulty : string) : ChessAI :=
  if decide (difficulty = "easy") then mkAI difficulty 2 (3 # 10)
  else if decide (difficulty = "medium") then mkAI difficulty 3 (1 # 10)
  else if decide (difficulty = "hard") then mkAI difficulty 4 0
  else mkAI difficulty 3 (1 # 10).

(** [isSquareAttackedForMinimax]: the ray scan from the target square;
    the fuel of 8 is never exhausted ([rayHits_fuel]). *)
Fixpoint rayHits (fuel : nat) (g : ChessGame) (byColor : COLORS)
    (types : list PIECES) (dr dc r c : Z) : bool :=
  match fuel with
  | O => false
  | S fuel' =>
      if decide (onBoard r c) then
        match getPiece g r c with
        | Some p => bool_decide (color p = byColor ∧ type p ∈ types)
        | None => rayHits fuel' g byColor types dr dc (r + dr) (c + dc)
        end
      else false
  end.

(** One of the three offset scans: a piece of [type] and [byColor] on one
    of the squares [(row + dr, col + dc)]. *)
Definition offsetHits (g : ChessGame) (row col : Z) (byColor : COLORS)
    (type0 : PIECES) (offsets : list (Z * Z)) : bool :=
  existsb (fun '(dr, dc) =>
    let r := row + dr in
    let c := col + dc in
    bool_decide (onBoard r c)
    && match getPiece g r c with
       | Some p => bool_decide (type p = type0 ∧ color p = byColor)
       | None => false
       end) offsets.

Definition isSquareAttackedForMinimax (g : ChessGame) (row col : Z)
    (byColor : COLORS) : bool :=
  let pawnDir := if decide (byColor = WHITE) then 1 else -1 in
  if offsetHits g row col byColor PAWN [(pawnDir, -1); (pawnDir, 1)] then true
  else if offsetHits g row col byColor KNIGHT knightOffsets then true
  else if offsetHits g row col byColor KING kingOffsets then true
  else
    existsb (fun '(dirs, types) =>
      existsb (fun '(dr, dc) =>
        rayHits 8 g byColor types dr dc (row + dr) (col + dc)) dirs)
      [ (rookDirections, [ROOK; QUEEN]); (bishopDirections, [BISHOP; QUEEN]) ].

(** The king is searched in the same row-major order as by [findKing];
    [kingRow === -1] is [None]. *)
Definition isKingInCheck (g : ChessGame) (clr : COLORS) : bool :=
  match findKing g clr with
  | None => false
  | Some (kingRow, kingCol) =>
      let opponentColor := opponent clr in
      isSquareAttackedForMinimax g kingRow kingCol opponentColor
  end.

(** The [...ForMinimax] generators repeat the bodies of the engine's
    generators without the [attackOnly] parameter, over [isKingInCheck]
    and [isSquareAttackedForMinimax]. *)
Definition getPawnMovesForMinimax (g : ChessGame) (row col : Z) (piece : Piece)
    (moves : list MoveInfo.t) : list MoveInfo.t :=
  getPawnMoves g row col piece moves false.
Definition getSlidingMovesForMinimax := getSlidingMoves.
Definition getKnightMovesForMinimax := getKnightMoves.
Definition getKingMovesForMinimax (g : ChessGame) (row col : Z) (piece : Piece)
    (moves : list MoveInfo.t) : list MoveInfo.t :=
  getKingMovesWith isKingInCheck isSquareAttackedForMinimax
    g row col piece moves false.

Definition getRawMovesForMinimax (g : ChessGame) (row col : Z) (piece : Piece)
  : list MoveInfo.t :=
  let moves := [] in
  match type piece with
  | PAWN => getPawnMovesForMinimax g row col piece moves
  | ROOK => getSlidingMovesForMinimax g row col piece moves rookDirections
  | KNIGHT => getKnightMovesForMinimax g row col piece moves
  | BISHOP => getSlidingMovesForMinimax g row col piece moves bishopDirections
  | QUEEN => getSlidingMovesForMinimax g row col piece moves queenDirections
  | KING => getKingMovesForMinimax g row col piece moves
  end.

Definition getValidMovesForMinimax (row col : Z) (piece : Piece)
  : M (list MoveInfo.t) :=
  g ← get;
  let rawMoves := getRawMovesForMinimax g row col piece in
  forEachM (fun validMoves move =>
    g ← get;
    let originalBoard := copyBoard (board g) in
    modify (set_board (copyBoard (board g)));;
    (if MoveInfo.enPassant move then
       let capturedRow :=
         if decide (color piece = WHITE) then MoveInfo.row move + 1
         else MoveInfo.row move - 1 in
       setPiece capturedRow (MoveInfo.col move) None
     else mret tt);;
    match MoveInfo.castling move with
    | Some kingside =>
        g ← get;
        let rook := getPiece g row 7 in
        setPiece row 7 None;;
        setPiece row 5 rook
    | Some queenside =>
        g ← get;
        let rook := getPiece g row 0 in
        setPiece row 0 None;;
        setPiece row 3 rook
    | None => mret tt
    end;;
    setPiece (MoveInfo.row move) (MoveInfo.col move) (Some piece);;
    setPiece row col None;;
    g ← get;
    let validMoves :=
      if negb (isKingInCheck g (color piece)) then validMoves ++ [move]
      else validMoves in
    modify (set_board originalBoard);;
    mret validMoves) rawMoves [].

Definition getAllValidMovesForMinimax (clr : COLORS) : M (list Candidate.t) :=
  forEachM (fun moves '(row, col) =>
    g ← get;
    match getPiece g row col with
    | Some piece =>
        if decide (color piece = clr) then
          pieceMoves ← getValidMovesForMinimax row col piece;
          mret (moves ++
                ((fun m => Candidate.mk (row, col) m piece) <$> pieceMoves))
        else mret moves
    | None => mret moves
    end) allSquares [].

Definition makeSimulatedMove (move : Candidate.t) : M unit :=
  let '(fromRow, fromCol) := Candidate.from move in
  let to := Candidate.to move in
  g ← get;
  match getPiece g fromRow fromCol with
  | None => mret tt
  | Some piece =>
      (if MoveInfo.enPassant to then
         let capturedRow :=
           if decide (color piece = WHITE) then MoveInfo.row to + 1
           else MoveInfo.row to - 1 in
         setPiece capturedRow (MoveInfo.col to) None
       else mret tt);;
      match MoveInfo.castling to with
      | Some kingside =>
          g ← get;
          let rook := getPiece g fromRow 7 in
          setPiece fromRow 7 None;;
          setPiece fromRow 5 rook
      | Some queenside =>
          g ← get;
          let rook := getPiece g fromRow 0 in
          setPiece fromRow 0 None;;
          setPiece fromRow 3 rook
      | None => mret tt
      end;;
      setPiece (MoveInfo.row to) (MoveInfo.col to) (Some piece);;
      setPiece fromRow fromCol None;;
      (if MoveInfo.promotion to then
         let promotedPiece := createPiece QUEEN (color piece) in
         setPiece (MoveInfo.row to) (MoveInfo.col to) (Some promotedPiece)
       else mret tt);;
      modify (set_enPassantTarget
        (if MoveInfo.twoStep to then
           Some (if decide (color piece = WHITE) then MoveInfo.row to + 1
                 else MoveInfo.row to - 1, MoveInfo.col to)
         else None))
  end.

(** [POSITION_BONUS[type]?.[color]?.[row]?.[col] || 0] *)
Definition positionBonus (piece : Piece) (row col : Z) : Z :=
  default 0 (POSITION_BONUS (type piece) (color piece) !! Z.to_nat row
             ≫= (.!! Z.to_nat col)).

Definition evaluateBoard (g : ChessGame) (aiColor : COLORS) : Z :=
  let score := 0 in
  let score :=
    foldl (fun score '(row, col) =>
      match getPiece g row col with
      | None => score
      | Some piece =>
          let pieceValue := PIECE_VALUES (type piece) in
          let pieceValue := pieceValue + positionBonus piece row col in
          if decide (color piece = aiColor) then score + pieceValue
          else score - pieceValue
      end) score allSquares in
  let score :=
    foldl (fun score '(r, c) =>
      match getPiece g r c with
      | Some piece =>
          if decide (color piece = aiColor) then score + 10 else score - 10
      | None => score
      end) score [(3, 3); (3, 4); (4, 3); (4, 4)] in
  let opponentColor := opponent aiColor in
  let score := if isKingInCheck g opponentColor then score + 50 else score in
  let score := if isKingInCheck g aiColor then score - 50 else score in
  score.

(** One iteration of the search loops up to the update of the running
    score: save, play [move] for [currentColor], search the reply with
    [child], restore. *)
Definition searchChild (currentColor : COLORS) (child : M Score)
    (move : Candidate.t) : M Score :=
  g ← get;
  let originalBoard := copyBoard (board g) in
  let originalEnPassant := enPassantTarget g in
  makeSimulatedMove move;;
  modify (set_currentTurn (opponent currentColor));;
  score ← child;
  modify (set_board originalBoard);;
  modify (set_enPassantTarget originalEnPassant);;
  modify (set_currentTurn currentColor);;
  mret score.

(** The maximizing loop, with its [break] on [beta <= alpha]. *)
Fixpoint maximizeOver (currentColor : COLORS) (child : Score -> Score -> M Score)
    (moves : list Candidate.t) (maxScore alpha beta : Score) : M Score :=
  match moves with
  | [] => mret maxScore
  | move :: moves' =>
      score ← searchChild currentColor (child alpha beta) move;
      let maxScore := Score_max maxScore score in
      let alpha := Score_max alpha score in
      if Score_le beta alpha then mret maxScore
      else maximizeOver currentColor child moves' maxScore alpha beta
  end.

(** The minimizing loop. *)
Fixpoint minimizeOver (currentColor : COLORS) (child : Score -> Score -> M Score)
    (moves : list Candidate.t) (minScore alpha beta : Score) : M Score :=
  match moves with
  | [] => mret minScore
  | move :: moves' =>
      score ← searchChild currentColor (child alpha beta) move;
      let minScore := Score_min minScore score in
      let beta := Score_min beta score in
      if Score_le beta alpha then mret minScore
      else minimizeOver currentColor child moves' minScore alpha beta
  end.

Fixpoint minimax (ai : ChessAI) (depth : nat) (alpha beta : Score)
    (isMaximizing : bool) (aiColor : COLORS) : M Score :=
  match depth with
  | O => g ← get; mret (Finite (evaluateBoard g aiColor))
  | S depth' =>
      g ← get;
      let currentColor := currentTurn g in
      moves ← getAllValidMovesForMinimax currentColor;
      if decide (length moves = 0%nat) then
        g ← get;
        let isCheck := isKingInCheck g currentColor in
        if isCheck then
          mret (Finite (if isMaximizing
                        then -100000 + (Z.of_nat (maxDepth ai) - Z.of_nat depth)
                        else 100000 - (Z.of_nat (maxDepth ai) - Z.of_nat depth)))
        else mret (Finite 0)
      else if isMaximizing then
        maximizeOver currentColor
          (fun alpha beta => minimax ai depth' alpha beta false aiColor)
          moves NegInfinity alpha beta
      else
        minimizeOver currentColor
          (fun alpha beta => minimax ai depth' alpha beta true aiColor)
          moves Infinity alpha beta
  end.

(** The ordering key of [sortMoves]; [PIECE_VALUES / 100] and the
    distance to [3.5] are exact rationals. *)
Definition centerDist (row col : Z) : Q :=
  (Qabs (inject_Z row - (7 # 2)) + Qabs (inject_Z col - (7 # 2)))%Q.

Definition sortScore (g : ChessGame) (a : Candidate.t) : Q :=
  let to := Candidate.to a in
  let score :=
    if MoveInfo.capture to then
      match getPiece g (MoveInfo.row to) (MoveInfo.col to) with
      | Some capturedPiece =>
          (10 + inject_Z (PIECE_VALUES (type capturedPiece)) / 100)%Q
      | None => (10 + 0)%Q
      end
    else 0%Q in
  (score - centerDist (MoveInfo.row to) (MoveInfo.col to))%Q.

(** [moves.sort((a, b) => scoreB - scoreA)]: a stable sort by decreasing
    score. *)
Fixpoint sortInsert (g : ChessGame) (a : Candidate.t) (sorted : list Candidate.t)
  : list Candidate.t :=
  match sorted with
  | [] => [a]
  | b :: sorted' =>
      if Qle_bool (sortScore g b) (sortScore g a) then a :: b :: sorted'
      else b :: sortInsert g a sorted'
  end.

Definition sortMoves (moves : list Candidate.t) (g : ChessGame)
  : list Candidate.t :=
  foldr (sortInsert g) [] moves.

(** [getBestMove(game)].  The two calls of [Math.random()] are the
    arguments [random1] and [random2], numbers of the interval [0, 1). *)
Definition getBestMove (ai : ChessAI) (random1 random2 : Q)
  : M (option Candidate.t) :=
  g ← get;
  let clr := currentTurn g in
  moves ← getAllValidMoves clr;
  if decide (length moves = 0%nat) then mret None
  else if negb (Qle_bool (randomFactor ai) 0)
          && negb (Qle_bool (randomFactor ai) random1) then
    mret (moves !! Z.to_nat (Qfloor (random2 * inject_Z (Z.of_nat (length moves)))))
  else
    g ← get;
    let sortedMoves := sortMoves moves g in
    best ← forEachM (fun '(bestMove, bestScore) move =>
      g ← get;
      let originalBoard := copyBoard (board g) in
      let originalEnPassant := enPassantTarget g in
      let originalTurn := currentTurn g in
      modify (set_board (copyBoard (board g)));;
      makeSimulatedMove move;;
      modify (set_currentTurn (opponent clr));;
      score ← minimax ai (maxDepth ai - 1) NegInfinity Infinity false clr;
      modify (set_board originalBoard);;
      modify (set_enPassantTarget originalEnPassant);;
      modify (set_currentTurn originalTurn);;
      if Score_gt score bestScore then mret (Some move, score)
      else mret (bestMove, bestScore)) sortedMoves (None, NegInfinity);
    mret (fst best).

(** * Specifications

    The functions on states that the methods are shown to compute, and
    the relations and invariants the theorems are stated with. *)

Definition wfBoard (b : Board) : Prop :=
  length b = 8%nat ∧ Forall (fun cells => length cells = 8%nat) b.

(** [setPiece] as a function on states. *)
Definition putPiece (row col : Z) (piece : option Piece) (g : ChessGame)
  : ChessGame :=
  if decide (onBoard row col) then
    set_board (storeAt (board g) row col piece) g
  else g.

(** The state in which the legality filter tests for check. *)
Definition simulated (fromRow fromCol : Z) (piece : Piece) (move : MoveInfo.t)
    (g : ChessGame) : ChessGame :=
  let toRow := MoveInfo.row move in
  let toCol := MoveInfo.col move in
  let g :=
    if MoveInfo.enPassant move then
      putPiece (if decide (color piece = WHITE) then toRow + 1 else toRow - 1)
               toCol None g
    else g in
  let g :=
    match MoveInfo.castling move with
    | Some kingside =>
        putPiece fromRow 5 (getPiece g fromRow 7) (putPiece fromRow 7 None g)
    | Some queenside =>
        putPiece fromRow 3 (getPiece g fromRow 0) (putPiece fromRow 0 None g)
    | None => g
    end in
  putPiece fromRow fromCol None (putPiece toRow toCol (Some piece) g).

(** [onlyBoard g g']: the state [g'] differs from [g] in the board only. *)
Definition onlyBoard (g g' : ChessGame) : Prop := g' = set_board (board g') g.

(** The legal moves of the piece on [(row, col)]. *)
Definition legalMoves (g : ChessGame) (row col : Z) : list MoveInfo.t :=
  match getPiece g row col with
  | None => []
  | Some piece =>
      if decide (color piece ≠ currentTurn g) then []
      else
        filter (fun move =>
                  isInCheck (simulated row col piece move g) (color piece) = false)
               (getRawMoves g row col piece false)
  end.

(** What [getAllValidMoves] returns. *)
Definition allLegalMoves (g : ChessGame) (clr : COLORS) : list Candidate.t :=
  foldl (fun allMoves '(row, col) =>
    match getPiece g row col with
    | Some piece =>
        if decide (color piece = clr) then
          allMoves ++
            ((fun move => Candidate.mk (row, col) move piece)
               <$> legalMoves g row col)
        else allMoves
    | None => allMoves
    end) [] allSquares.

(** Whether a piece of the side to move, on one of [squares], has a legal
    move. *)
Definition hasLegalMove (g : ChessGame) (squares : list Square) : bool :=
  existsb (fun '(row, col) =>
    match getPiece g row col with
    | Some piece =>
        bool_decide (color piece = currentTurn g)
        && bool_decide (0 < length (legalMoves g row col))%nat
    | None => false
    end) squares.

(** The state after [checkGameState]. *)
Definition checked (g : ChessGame) : ChessGame :=
  let g := set_isCheck (isInCheck g (currentTurn g)) g in
  if hasLegalMove g allSquares then g
  else
    let g := set_gameOver true g in
    if isCheck g then set_winner (Some (Won (opponent (currentTurn g)))) g
    else set_winner (Some draw) g.

(** The state [makeMove] hands to [checkGameState] when it plays
    [moveInfo] with the piece found on the from-square; [None] when the
    castling rook is missing. *)
Definition executed (fromRow fromCol toRow toCol : Z)
    (promotionPiece : option PIECES) (piece : Piece) (moveInfo : MoveInfo.t)
    (g : ChessGame) : option ChessGame :=
  let move :=
    MoveRecord.mk (fromRow, fromCol) (toRow, toCol) (spread piece) None
      (MoveInfo.castling moveInfo) (MoveInfo.enPassant moveInfo)
      (MoveInfo.promotion moveInfo) promotionPiece (enPassantTarget g) in
  let capturedRow :=
    if decide (color piece = WHITE) then toRow + 1 else toRow - 1 in
  let capturedPiece :=
    if MoveInfo.enPassant moveInfo then getPiece g capturedRow toCol
    else getPiece g toRow toCol in
  let g1 :=
    if MoveInfo.enPassant moveInfo then putPiece capturedRow toCol None g
    else g in
  let move :=
    match capturedPiece with
    | Some cp => MoveRecord.set_captured (Some (spread cp)) move
    | None => move
    end in
  let g2 :=
    match capturedPiece with
    | Some cp =>
        set_capturedPieces
          (set_capturedBy (color piece)
             (capturedBy (color piece) (capturedPieces g1) ++ [cp])
             (capturedPieces g1)) g1
    | None => g1
    end in
  g3 ← match MoveInfo.castling moveInfo with
       | Some kingside =>
           rook ← getPiece g2 fromRow 7;
           Some (putPiece fromRow 5 (Some (withHasMoved true rook))
                   (putPiece fromRow 7 None g2))
       | Some queenside =>
           rook ← getPiece g2 fromRow 0;
           Some (putPiece fromRow 3 (Some (withHasMoved true rook))
                   (putPiece fromRow 0 None g2))
       | None => Some g2
       end;
  let piece := withHasMoved true piece in
  let g4 := putPiece fromRow fromCol None
              (putPiece toRow toCol (Some piece) g3) in
  let g5 :=
    match promotionPiece with
    | Some promotionType =>
        if MoveInfo.promotion moveInfo then
          putPiece toRow toCol
            (Some (withHasMoved true (createPiece promotionType (color piece))))
            g4
        else g4
    | None => g4
    end in
  let g6 :=
    set_enPassantTarget
      (if MoveInfo.twoStep moveInfo then
         Some (if decide (color piece = WHITE) then toRow + 1 else toRow - 1,
               toCol)
       else None) g5 in
  let g7 := set_lastMove (Some ((fromRow, fromCol), (toRow, toCol))) g6 in
  let g8 := set_moveHistory (moveHistory g7 ++ [move]) g7 in
  Some (set_currentTurn (opponent (currentTurn g8)) g8).

Definition pawnDirection (piece : Piece) : Z :=
  if decide (color piece = WHITE) then -1 else 1.
Definition pawnStartRow (piece : Piece) : Z :=
  if decide (color piece = WHITE) then 6 else 1.
Definition pawnPromotionRow (piece : Piece) : Z :=
  if decide (color piece = WHITE) then 0 else 7.

(** The shapes of the moves that [getRawMoves] generates for [piece]
    standing on [(r, c)]. *)
Inductive RawMove (g : ChessGame) (r c : Z) (piece : Piece)
  : MoveInfo.t -> Prop :=
| Raw_step tr tc cap :
    type piece ≠ PAWN ->
    onBoard tr tc ->
    emptyOrEnemy (getPiece g tr tc) piece = true ->
    RawMove g r c piece (MoveInfo.mk tr tc cap false false false None)
| Raw_pawn_one :
    type piece = PAWN ->
    onBoard (r + pawnDirection piece) c ->
    getPiece g (r + pawnDirection piece) c = None ->
    RawMove g r c piece
      (MoveInfo.mk (r + pawnDirection piece) c false
         (bool_decide (r + pawnDirection piece = pawnPromotionRow piece))
         false false None)
| Raw_pawn_two :
    type piece = PAWN ->
    r = pawnStartRow piece ->
    getPiece g (r + pawnDirection piece) c = None ->
    getPiece g (r + 2 * pawnDirection piece) c = None ->
    RawMove g r c piece
      (MoveInfo.mk (r + 2 * pawnDirection piece) c false false true false None)
| Raw_pawn_capture dc :
    type piece = PAWN ->
    dc = -1 ∨ dc = 1 ->
    onBoard (r + pawnDirection piece) (c + dc) ->
    isEnemy (getPiece g (r + pawnDirection piece) (c + dc)) piece = true ->
    RawMove g r c piece
      (MoveInfo.mk (r + pawnDirection piece) (c + dc) true
         (bool_decide (r + pawnDirection piece = pawnPromotionRow piece))
         false false None)
| Raw_pawn_enPassant dc :
    type piece = PAWN ->
    dc = -1 ∨ dc = 1 ->
    onBoard (r + pawnDirection piece) (c + dc) ->
    enPassantTarget g = Some (r + pawnDirection piece, c + dc) ->
    RawMove g r c piece
      (MoveInfo.mk (r + pawnDirection piece) (c + dc) true false false true None)
| Raw_castle_kingside rook :
    type piece = KING ->
    hasMoved piece = false ->
    isInCheck g (color piece) = false ->
    getPiece g r 7 = Some rook ->
    type rook = ROOK -> hasMoved rook = false ->
    getPiece g r 5 = None -> getPiece g r 6 = None ->
    isSquareAttacked g r 5 (opponent (color piece)) = false ->
    isSquareAttacked g r 6 (opponent (color piece)) = false ->
    RawMove g r c piece
      (MoveInfo.mk r 6 false false false false (Some kingside))
| Raw_castle_queenside rook :
    type piece = KING ->
    hasMoved piece = false ->
    isInCheck g (color piece) = false ->
    getPiece g r 0 = Some rook ->
    type rook = ROOK -> hasMoved rook = false ->
    getPiece g r 1 = None -> getPiece g r 2 = None -> getPiece g r 3 = None ->
    isSquareAttacked g r 2 (opponent (color piece)) = false ->
    isSquareAttacked g r 3 (opponent (color piece)) = false ->
    RawMove g r c piece
      (MoveInfo.mk r 2 false false false false (Some queenside)).

(** The state after [undoMove] has taken [move] back, from the state [g]
    whose history has already been popped; [None] when the castling rook
    is missing. *)
Definition reverted (move : MoveRecord.t) (g : ChessGame) : option ChessGame :=
  let piece :=
    match MoveRecord.promotionPiece move with
    | Some _ =>
        if MoveRecord.promotion move then
          createPiece PAWN (color (MoveRecord.piece move))
        else spread (MoveRecord.piece move)
    | None => spread (MoveRecord.piece move)
    end in
  let piece := withHasMoved (hasMoved (MoveRecord.piece move)) piece in
  let fromRow := fst (MoveRecord.from move) in
  let fromCol := snd (MoveRecord.from move) in
  let toRow := fst (MoveRecord.to move) in
  let toCol := snd (MoveRecord.to move) in
  let g1 := putPiece toRow toCol None
              (putPiece fromRow fromCol (Some piece) g) in
  let g2 :=
    match MoveRecord.captured move with
    | Some captured =>
        let g' :=
          if MoveRecord.enPassant move then
            putPiece (if decide (color piece = WHITE) then toRow + 1
                      else toRow - 1) toCol (Some captured) g1
          else putPiece toRow toCol (Some captured) g1 in
        set_capturedPieces
          (set_capturedBy (color piece)
             (removelast (capturedBy (color piece) (capturedPieces g')))
             (capturedPieces g')) g'
    | None => g1
    end in
  g3 ← match MoveRecord.castling move with
       | Some kingside =>
           rook ← getPiece g2 fromRow 5;
           Some (putPiece fromRow 7 (Some (withHasMoved false rook))
                   (putPiece fromRow 5 None g2))
       | Some queenside =>
           rook ← getPiece g2 fromRow 3;
           Some (putPiece fromRow 0 (Some (withHasMoved false rook))
                   (putPiece fromRow 3 None g2))
       | None => Some g2
       end;
  let g4 := set_enPassantTarget (MoveRecord.previousEnPassant move) g3 in
  let g5 := set_currentTurn (opponent (currentTurn g4)) g4 in
  let g6 := set_winner None (set_gameOver false g5) in
  let g7 := set_isCheck (isInCheck g6 (currentTurn g6)) g6 in
  Some (set_lastMove
          (match last (moveHistory g7) with
           | Some lastHistoryMove =>
               Some (MoveRecord.from lastHistoryMove,
                     MoveRecord.to lastHistoryMove)
           | None => None
           end) g7).

(** ** What attack detection depends on

    [alike clr g1 g2]: the two boards have pieces on the same squares,
    of the same colours; the pieces that are not of colour [clr] have
    the same type, and those of colour [clr] are kings on the same
    squares.  The check test of [clr] cannot tell such boards apart. *)
Definition alikeCell (clr : COLORS) (p1 p2 : option Piece) : Prop :=
  match p1, p2 with
  | None, None => True
  | Some p1, Some p2 =>
      color p1 = color p2
      ∧ (color p1 ≠ clr -> type p1 = type p2)
      ∧ (type p1 = KING <-> type p2 = KING)
  | _, _ => False
  end.

Definition alike (clr : COLORS) (g1 g2 : ChessGame) : Prop :=
  forall r c, alikeCell clr (getPiece g1 r c) (getPiece g2 r c).

Definition pieceAt (b : Board) (row col : Z) : option Piece :=
  if decide (row < 0 ∨ row > 7 ∨ col < 0 ∨ col > 7) then None
  else cellAt b row col.

Definition place (b : Board) (row col : Z) (piece : option Piece) : Board :=
  if decide (onBoard row col) then storeAt b row col piece else b.

(** The square a capture empties, and the piece on it. *)
Definition capturedRowOf (piece : Piece) (toRow : Z) : Z :=
  if decide (color piece = WHITE) then toRow + 1 else toRow - 1.

Definition capturedOf (toRow toCol : Z) (piece : Piece) (moveInfo : MoveInfo.t)
    (b : Board) : option Piece :=
  if MoveInfo.enPassant moveInfo then
    pieceAt b (capturedRowOf piece toRow) toCol
  else pieceAt b toRow toCol.

(** The record [makeMove] pushes on the history. *)
Definition recordOf (fromRow fromCol toRow toCol : Z)
    (promotionPiece : option PIECES) (piece : Piece) (moveInfo : MoveInfo.t)
    (g : ChessGame) : MoveRecord.t :=
  MoveRecord.mk (fromRow, fromCol) (toRow, toCol) (spread piece)
    (spread <$> capturedOf toRow toCol piece moveInfo (board g))
    (MoveInfo.castling moveInfo) (MoveInfo.enPassant moveInfo)
    (MoveInfo.promotion moveInfo) promotionPiece (enPassantTarget g).

(** The board [makeMove] leaves. *)
Definition executedBoard (fromRow fromCol toRow toCol : Z)
    (promotionPiece : option PIECES) (piece : Piece) (moveInfo : MoveInfo.t)
    (b : Board) : option Board :=
  let b1 :=
    if MoveInfo.enPassant moveInfo then
      place b (capturedRowOf piece toRow) toCol None
    else b in
  b3 ← match MoveInfo.castling moveInfo with
       | Some kingside =>
           rook ← pieceAt b1 fromRow 7;
           Some (place (place b1 fromRow 7 None) fromRow 5
                   (Some (withHasMoved true rook)))
       | Some queenside =>
           rook ← pieceAt b1 fromRow 0;
           Some (place (place b1 fromRow 0 None) fromRow 3
                   (Some (withHasMoved true rook)))
       | None => Some b1
       end;
  let b4 := place (place b3 toRow toCol (Some (withHasMoved true piece)))
              fromRow fromCol None in
  Some match promotionPiece with
       | Some promotionType =>
           if MoveInfo.promotion moveInfo then
             place b4 toRow toCol
               (Some (withHasMoved true
                        (createPiece promotionType (color piece))))
           else b4
       | None => b4
       end.

(** The piece [undoMove] puts back on the from-square. *)
Definition restoredPiece (move : MoveRecord.t) : Piece :=
  withHasMoved (hasMoved (MoveRecord.piece move))
    match MoveRecord.promotionPiece move with
    | Some _ =>
        if MoveRecord.promotion move then
          createPiece PAWN (color (MoveRecord.piece move))
        else spread (MoveRecord.piece move)
    | None => spread (MoveRecord.piece move)
    end.

(** The board [undoMove] leaves. *)
Definition revertedBoard (move : MoveRecord.t) (b : Board) : option Board :=
  let piece := restoredPiece move in
  let fromRow := fst (MoveRecord.from move) in
  let fromCol := snd (MoveRecord.from move) in
  let toRow := fst (MoveRecord.to move) in
  let toCol := snd (MoveRecord.to move) in
  let b1 := place (place b fromRow fromCol (Some piece)) toRow toCol None in
  let b2 :=
    match MoveRecord.captured move with
    | Some captured =>
        if MoveRecord.enPassant move then
          place b1 (capturedRowOf piece toRow) toCol (Some captured)
        else place b1 toRow toCol (Some captured)
    | None => b1
    end in
  match MoveRecord.castling move with
  | Some kingside =>
      rook ← pieceAt b2 fromRow 5;
      Some (place (place b2 fromRow 5 None) fromRow 7
              (Some (withHasMoved false rook)))
  | Some queenside =>
      rook ← pieceAt b2 fromRow 3;
      Some (place (place b2 fromRow 3 None) fromRow 0
              (Some (withHasMoved false rook)))
  | None => Some b2
  end.

(** ** What move generation depends on

    The generators read the board and the en-passant target, and the
    legality filter the side to move: nothing else of the state. *)
Definition sameCore (g1 g2 : ChessGame) : Prop :=
  board g1 = board g2
  ∧ currentTurn g1 = currentTurn g2
  ∧ enPassantTarget g1 = enPassantTarget g2.

(** The state after a successful [makeMove], before [checkGameState]. *)
Definition played (fromRow fromCol toRow toCol : Z)
    (promotionPiece : option PIECES) (piece : Piece) (moveInfo : MoveInfo.t)
    (b : Board) (g : ChessGame) : ChessGame :=
  {| board := b;
     currentTurn := opponent (currentTurn g);
     selectedPiece := selectedPiece g;
     validMoves := validMoves g;
     moveHistory := moveHistory g ++
       [recordOf fromRow fromCol toRow toCol promotionPiece piece moveInfo g];
     capturedPieces :=
       match capturedOf toRow toCol piece moveInfo (board g) with
       | Some cp =>
           set_capturedBy (color piece)
             (capturedBy (color piece) (capturedPieces g) ++ [cp])
             (capturedPieces g)
       | None => capturedPieces g
       end;
     enPassantTarget :=
       if MoveInfo.twoStep moveInfo then
         Some (capturedRowOf piece toRow, toCol)
       else None;
     gameOver := gameOver g;
     winner := winner g;
     isCheck := isCheck g;
     lastMove := Some ((fromRow, fromCol), (toRow, toCol)) |}.

(** The state in which [makeMove] runs after [selectPiece]. *)
Definition selected (g : ChessGame) (row col : Z) : ChessGame :=
  set_validMoves (legalMoves g row col) g.

Definition symbolOk (p : Piece) : Prop :=
  symbol p = PIECE_SYMBOLS (color p) (type p).

(** The piece that stands on the destination after [makeMove]. *)
Definition landed (promotionPiece : option PIECES) (piece : Piece)
    (moveInfo : MoveInfo.t) : Piece :=
  match promotionPiece with
  | Some promotionType =>
      if MoveInfo.promotion moveInfo then
        withHasMoved true (createPiece promotionType (color piece))
      else withHasMoved true piece
  | None => withHasMoved true piece
  end.

(** [lastMove] as [undoMove] recomputes it. *)
Definition lastOf (history : list MoveRecord.t) : option (Square * Square) :=
  match last history with
  | Some lastHistoryMove =>
      Some (MoveRecord.from lastHistoryMove, MoveRecord.to lastHistoryMove)
  | None => None
  end.

(** The en-passant target [(er, ec)] is the empty square that the pawn of
    the last move, of the side that just moved, passed over. *)
Definition epJustified (g : ChessGame) (er ec : Z) : Prop :=
  getPiece g er ec = None
  ∧ exists move,
      last (moveHistory g) = Some move
      ∧ type (MoveRecord.piece move) = PAWN
      ∧ color (MoveRecord.piece move) = opponent (currentTurn g)
      ∧ MoveRecord.from move = (er - pawnDirection (MoveRecord.piece move), ec)
      ∧ MoveRecord.to move = (er + pawnDirection (MoveRecord.piece move), ec)
      ∧ getPiece g (er + pawnDirection (MoveRecord.piece move)) ec
        = Some (withHasMoved true (MoveRecord.piece move)).

(** What holds of every state of a game: the board is 8x8, the pieces
    carry their symbols, the en-passant target comes from the last move,
    [isCheck] and [lastMove] are up to date, a game with a legal move is
    not over, a piece not marked as moved stands where it stood in the
    initial position, and the squares that a move of the history left or
    reached hold nothing or a piece marked as moved. *)
Record Inv (g : ChessGame) : Prop := mkInv {
  inv_wf : wfBoard (board g);
  inv_symbols : forall r c p, getPiece g r c = Some p -> symbolOk p;
  inv_ep : forall er ec, enPassantTarget g = Some (er, ec) -> epJustified g er ec;
  inv_check : isCheck g = isInCheck g (currentTurn g);
  inv_over :
    hasLegalMove g allSquares = true -> gameOver g = false ∧ winner g = None;
  inv_last : lastMove g = lastOf (moveHistory g);
  inv_unmoved :
    forall r c p, getPiece g r c = Some p -> hasMoved p = false ->
                  getPiece reset r c = Some p;
  inv_touched :
    forall move r c p,
      move ∈ moveHistory g ->
      (r, c) = MoveRecord.from move ∨ (r, c) = MoveRecord.to move ->
      getPiece g r c = Some p -> hasMoved p = true
}.

(** The states of a game: from [reset], by selecting a piece, by playing
    a legal move of the selected piece, by clearing the selection, and by
    undoing the last move. *)
Inductive reachable : ChessGame -> Prop :=
| reachable_reset : reachable reset
| reachable_select g row col g' :
    reachable g -> selectPiece row col g = Some (tt, g') -> reachable g'
| reachable_deselect g :
    reachable g -> reachable (set_validMoves [] g)
| reachable_move g fromRow fromCol toRow toCol promotionPiece g' :
    reachable g ->
    playMove fromRow fromCol toRow toCol promotionPiece g = Some (true, g') ->
    reachable g'
| reachable_undo g g' :
    reachable g -> undoMove g = Some (true, g') -> reachable g'.

(** The states reached by legal moves alone. *)
Inductive reachableByMoves : ChessGame -> Prop :=
| byMoves_reset : reachableByMoves reset
| byMoves_move g fromRow fromCol toRow toCol promotionPiece g' :
    reachableByMoves g ->
    playMove fromRow fromCol toRow toCol promotionPiece g = Some (true, g') ->
    reachableByMoves g'.

(** A test on every piece of the board. *)
Definition allPieces (P : Z -> Z -> Piece -> bool) (g : ChessGame) : bool :=
  forallb (fun '(r, c) =>
             match getPiece g r c with
             | Some p => P r c p
             | None => true
             end) allSquares.

(** 1. e4 b6 2. g3 Ba6 3. Bg2 h6 4. Nf3 h5: the bishop on a6 attacks
    f1, which the white king would cross. *)
Definition castlingBlocked : list (Z * Z * Z * Z * option PIECES) :=
  [ (6, 4, 4, 4, None); (1, 1, 2, 1, None);
    (6, 6, 5, 6, None); (0, 2, 2, 0, None);
    (7, 5, 6, 6, None); (1, 7, 2, 7, None);
    (7, 6, 5, 5, None); (2, 7, 3, 7, None) ].

(** 1. e4 b6 2. g3 a6 3. Bg2 h6 4. Nf3 h5: white may castle kingside. *)
Definition castlingOpen : list (Z * Z * Z * Z * option PIECES) :=
  [ (6, 4, 4, 4, None); (1, 1, 2, 1, None);
    (6, 6, 5, 6, None); (1, 0, 2, 0, None);
    (7, 5, 6, 6, None); (1, 7, 2, 7, None);
    (7, 6, 5, 5, None); (2, 7, 3, 7, None) ].

(** 5. Kf1 h4 6. Ke1 h3: the king is back on e1. *)
Definition kingWalk : list (Z * Z * Z * Z * option PIECES) :=
  [ (7, 4, 7, 5, None); (3, 7, 4, 7, None);
    (7, 5, 7, 4, None); (4, 7, 5, 7, None) ].

(** The home row of the king and rooks, and the column of the rook of
    each side. *)
Definition homeRow (clr : COLORS) : Z :=
  match clr with WHITE => 7 | BLACK => 0 end.
Definition rookCol (side : CastlingSide) : Z :=
  match side with kingside => 7 | queenside => 0 end.

(** The conditions under which [getCastlingMoves] offers [side]. *)
Definition castlingConditions (g : ChessGame) (r : Z) (king : Piece)
    (side : CastlingSide) : Prop :=
  hasMoved king = false
  ∧ isInCheck g (color king) = false
  ∧ match side with
    | kingside =>
        (exists rook, getPiece g r 7 = Some rook ∧ type rook = ROOK
                      ∧ hasMoved rook = false)
        ∧ getPiece g r 5 = None ∧ getPiece g r 6 = None
        ∧ isSquareAttacked g r 5 (opponent (color king)) = false
        ∧ isSquareAttacked g r 6 (opponent (color king)) = false
    | queenside =>
        (exists rook, getPiece g r 0 = Some rook ∧ type rook = ROOK
                      ∧ hasMoved rook = false)
        ∧ getPiece g r 1 = None ∧ getPiece g r 2 = None
        ∧ getPiece g r 3 = None
        ∧ isSquareAttacked g r 2 (opponent (color king)) = false
        ∧ isSquareAttacked g r 3 (opponent (color king)) = false
    end.

(** The body of the loop of [getPawnMoves] over [dc]. *)
Definition pawnDiagonal (g : ChessGame) (row col : Z) (piece : Piece)
    (attackOnly : bool) (moves : list MoveInfo.t) (dc : Z) : list MoveInfo.t :=
  let newRow := row + pawnDirection piece in
  let newCol := col + dc in
  if decide (onBoard newRow newCol) then
    let target := getPiece g newRow newCol in
    let moves :=
      if attackOnly then moves ++ [MoveInfo.plain newRow newCol]
      else if isEnemy target piece then
        moves ++ [MoveInfo.mk newRow newCol true
                    (bool_decide (newRow = pawnPromotionRow piece))
                    false false None]
      else moves in
    if negb attackOnly
       && bool_decide (enPassantTarget g = Some (newRow, newCol)) then
      moves ++ [MoveInfo.mk newRow newCol true false false true None]
    else moves
  else moves.

(** [returns m g Q]: run from [g], [m] returns a value and a state that
    satisfy [Q]. *)
Definition returns {A} (m : M A) (g : ChessGame)
    (Q : A -> ChessGame -> Prop) : Prop :=
  exists a g', m g = Some (a, g') ∧ Q a g'.

(** [searchFrame g g']: [g'] differs from [g] in the three fields the
    search assigns to only. *)
Definition searchFrame (g g' : ChessGame) : Prop :=
  g' = set_currentTurn (currentTurn g')
         (set_enPassantTarget (enPassantTarget g') (set_board (board g') g)).

Definition isFinite (s : Score) : Prop :=
  match s with Finite _ => True | _ => False end.

(** ** Further vocabulary *)

Definition squareBefore (a b : Square) : Prop :=
  a.1 < b.1 ∨ (a.1 = b.1 ∧ a.2 < b.2).

Definition isKingOf (clr : COLORS) (cell : option Piece) : bool :=
  match cell with
  | Some piece => bool_decide (type piece = KING ∧ color piece = clr)
  | None => false
  end.

Fixpoint increasing (l : list Square) : bool :=
  match l with
  | [] => true
  | a :: l' => forallb (fun b => bool_decide (squareBefore a b)) l' && increasing l'
  end.

(** The [capture] flag of a move that is not an en-passant capture says
    whether its destination is occupied. *)
Definition captureOk (g : ChessGame) (m : MoveInfo.t) : Prop :=
  MoveInfo.enPassant m = true
  ∨ MoveInfo.capture m = truthy (getPiece g (MoveInfo.row m) (MoveInfo.col m)).

(** The piece a move takes: the piece on the destination, or for an
    en-passant capture the piece beside it, on the mover's row. *)
Definition victimOf (g : ChessGame) (piece : Piece) (moveInfo : MoveInfo.t)
    (toRow toCol : Z) : option Piece :=
  if MoveInfo.enPassant moveInfo then
    getPiece g (if decide (color piece = WHITE) then toRow + 1 else toRow - 1)
             toCol
  else getPiece g toRow toCol.

(** The [k] squares of the ray from [(r, c)] in direction [(dr, dc)]
    are on the board and empty. *)
Definition rayClear (g : ChessGame) (r c dr dc : Z) (k : nat) : Prop :=
  forall j : nat, (j < k)%nat ->
    onBoard (r + Z.of_nat j * dr) (c + Z.of_nat j * dc)
    ∧ getPiece g (r + Z.of_nat j * dr) (c + Z.of_nat j * dc) = None.

(** [(row, col)] is one of the offsets away from [(r, c)]. *)
Definition offsetReaches (offsets : list (Z * Z)) (r c row col : Z) : Prop :=
  exists dr dc, (dr, dc) ∈ offsets ∧ row = r + dr ∧ col = c + dc.

(** [(row, col)] is on a ray from [(r, c)] along one of the directions,
    behind empty squares only. *)
Definition rayReaches (g : ChessGame) (directions : list (Z * Z))
    (r c row col : Z) : Prop :=
  exists dr dc (k : nat),
    (dr, dc) ∈ directions
    ∧ rayClear g (r + dr) (c + dc) dr dc k
    ∧ row = r + (Z.of_nat k + 1) * dr ∧ col = c + (Z.of_nat k + 1) * dc.

(** The piece [p] standing on [(r, c)] bears on [(row, col)]: the
    geometry of an attack, whatever stands on [(row, col)]. *)
Definition attackedFrom (g : ChessGame) (row col r c : Z) (p : Piece) : Prop :=
  match type p with
  | PAWN => row = r + pawnDirection p ∧ (col = c - 1 ∨ col = c + 1)
  | KNIGHT => offsetReaches knightOffsets r c row col
  | KING => offsetReaches kingOffsets r c row col
  | ROOK => rayReaches g rookDirections r c row col
  | BISHOP => rayReaches g bishopDirections r c row col
  | QUEEN => rayReaches g queenDirections r c row col
  end.

(** No move of [l] is followed by a move with a greater ordering score. *)
Definition descending (g : ChessGame) (l : list Candidate.t) : Prop :=
  forall (i j : nat) a b,
    (i < j)%nat -> l !! i = Some a -> l !! j = Some b ->
    (sortScore g b <= sortScore g a)%Q.

(** The order of the scores as a proposition. *)
Definition Score_leq (a b : Score) : Prop :=
  match a, b with
  | NegInfinity, _ => True
  | _, Infinity => True
  | Finite x, Finite y => x <= y
  | _, _ => False
  end.

(** What a search with the window [(alpha, beta)] promises of its
    result [v] about the value [t] without pruning: at or below [alpha]
    it is an upper bound, at or above [beta] a lower bound, and strictly
    inside the window it is the value. *)
Definition withinWindow (alpha beta v t : Score) : Prop :=
  (Score_leq v alpha -> Score_leq t v)
  ∧ (Score_leq beta v -> Score_leq v t)
  ∧ (~ Score_leq v alpha -> ~ Score_leq beta v -> v = t).

(** The greatest and the least of the values [value move]. *)
Fixpoint maxOver (value : Candidate.t -> Score) (moves : list Candidate.t)
  : Score :=
  match moves with
  | [] => NegInfinity
  | move :: moves' => Score_max (value move) (maxOver value moves')
  end.

Fixpoint minOver (value : Candidate.t -> Score) (moves : list Candidate.t)
  : Score :=
  match moves with
  | [] => Infinity
  | move :: moves' => Score_min (value move) (minOver value moves')
  end.

(** The loops of [minimax] over the values of the children. *)
Fixpoint maximizeValues (child : Score -> Score -> Candidate.t -> Score)
    (moves : list Candidate.t) (maxScore alpha beta : Score) : Score :=
  match moves with
  | [] => maxScore
  | move :: moves' =>
      let score := child alpha beta move in
      let maxScore := Score_max maxScore score in
      let alpha := Score_max alpha score in
      if Score_le beta alpha then maxScore
      else maximizeValues child moves' maxScore alpha beta
  end.

Fixpoint minimizeValues (child : Score -> Score -> Candidate.t -> Score)
    (moves : list Candidate.t) (minScore alpha beta : Score) : Score :=
  match moves with
  | [] => minScore
  | move :: moves' =>
      let score := child alpha beta move in
      let minScore := Score_min minScore score in
      let beta := Score_min beta score in
      if Score_le beta alpha then minScore
      else minimizeValues child moves' minScore alpha beta
  end.

(** The position the search looks at after [move]: the simulated move
    is made and the turn passes. *)
Definition positionAfter (move : Candidate.t) (g : ChessGame) : ChessGame :=
  match makeSimulatedMove move g with
  | Some (_, g') => set_currentTurn (opponent (currentTurn g)) g'
  | None => g
  end.

(** The score [minimax] gives a position in which the side to move has
    no move. *)
Definition terminalScore (ai : ChessAI) (depth : nat) (isMaximizing : bool)
    (g : ChessGame) : Z :=
  if isKingInCheck g (currentTurn g) then
    if isMaximizing
    then -100000 + (Z.of_nat (maxDepth ai) - Z.of_nat depth)
    else 100000 - (Z.of_nat (maxDepth ai) - Z.of_nat depth)
  else 0.

(** The value of a position by minimax to [depth] plies without any
    pruning: the evaluation at depth 0, the terminal score without legal
    moves, and otherwise the greatest or the least of the values of the
    positions after each legal move of the side to move. *)
Fixpoint minimaxValue (ai : ChessAI) (depth : nat) (isMaximizing : bool)
    (aiColor : COLORS) (g : ChessGame) : Score :=
  match depth with
  | O => Finite (evaluateBoard g aiColor)
  | S depth' =>
      let moves := allLegalMoves g (currentTurn g) in
      if decide (length moves = 0%nat) then
        Finite (terminalScore ai depth isMaximizing g)
      else if isMaximizing then
        maxOver (fun move =>
                   minimaxValue ai depth' false aiColor (positionAfter move g))
                moves
      else
        minOver (fun move =>
                   minimaxValue ai depth' true aiColor (positionAfter move g))
                moves
  end.

(** What [minimax] computes, as a function of the position. *)
Fixpoint searchValue (ai : ChessAI) (depth : nat) (alpha beta : Score)
    (isMaximizing : bool) (aiColor : COLORS) (g : ChessGame) : Score :=
  match depth with
  | O => Finite (evaluateBoard g aiColor)
  | S depth' =>
      let moves := allLegalMoves g (currentTurn g) in
      if decide (length moves = 0%nat) then
        Finite (terminalScore ai depth isMaximizing g)
      else if isMaximizing then
        maximizeValues
          (fun alpha beta move =>
             searchValue ai depth' alpha beta false aiColor (positionAfter move g))
          moves NegInfinity alpha beta
      else
        minimizeValues
          (fun alpha beta move =>
             searchValue ai depth' alpha beta true aiColor (positionAfter move g))
          moves Infinity alpha beta
  end.

(** The value [getBestMove] gives a move: the value, without pruning, of
    the position after it, [maxDepth - 1] plies deep with the opponent
    to move and minimizing. *)
Definition moveValue (ai : ChessAI) (g : ChessGame) (move : Candidate.t)
  : Score :=
  minimaxValue ai (maxDepth ai - 1) false (currentTurn g) (positionAfter move g).

(** The selection loop of [getBestMove] over the values of the moves: a
    move replaces the best one only with a strictly greater score. *)
Definition pickBest (value : Candidate.t -> Score) (moves : list Candidate.t)
    (best : option Candidate.t * Score) : option Candidate.t * Score :=
  foldl (fun best move =>
           if Score_gt (value move) (snd best) then (Some move, value move)
           else best) best moves.

(** The type and the colour of the piece of a cell: the cell without the
    [hasMoved] flag and the symbol. *)
Definition kindOf (cell : option Piece) : option (PIECES * COLORS) :=
  (fun piece => (type piece, color piece)) <$> cell.

(** The board [makeSimulatedMove] leaves when [piece] stands on the
    from-square. *)
Definition simulatedBoard (fromRow fromCol : Z) (piece : Piece)
    (to : MoveInfo.t) (b : Board) : Board :=
  let b1 :=
    if MoveInfo.enPassant to then
      place b (capturedRowOf piece (MoveInfo.row to)) (MoveInfo.col to) None
    else b in
  let b2 :=
    match MoveInfo.castling to with
    | Some kingside =>
        place (place b1 fromRow 7 None) fromRow 5 (pieceAt b1 fromRow 7)
    | Some queenside =>
        place (place b1 fromRow 0 None) fromRow 3 (pieceAt b1 fromRow 0)
    | None => b1
    end in
  let b3 :=
    place (place b2 (MoveInfo.row to) (MoveInfo.col to) (Some piece))
      fromRow fromCol None in
  if MoveInfo.promotion to then
    place b3 (MoveInfo.row to) (MoveInfo.col to)
      (Some (createPiece QUEEN (color piece)))
  else b3.

(** A move that is not a castling move ends next to its origin. *)
Definition nearStep (r c : Z) (m : MoveInfo.t) : Prop :=
  MoveInfo.castling m = None ->
  -1 <= MoveInfo.row m - r <= 1 ∧ -1 <= MoveInfo.col m - c <= 1.

(** * Properties *)

(** ** The monad *)

Ltac munfold :=
  unfold mbind, mret, M_bind, M_ret, bind, ret, get, modify, throwTypeError.
Tactic Notation "munfold" "in" hyp(H) :=
  unfold mbind, mret, M_bind, M_ret, bind, ret, get, modify, throwTypeError in H.

Lemma bind_Some {A B} (m : M A) (k : A -> M B) g a g' :
  m g = Some (a, g') -> (m ≫= k) g = k a g'.
Proof. munfold. intros ->. reflexivity. Qed.

Lemma bind_inv {A B} (m : M A) (k : A -> M B) g r :
  (m ≫= k) g = Some r -> exists a g', m g = Some (a, g') ∧ k a g' = Some r.
Proof.
  munfold. destruct (m g) as [[a g']|]; [|discriminate].
  intros H. exists a, g'. split; [reflexivity|exact H].
Qed.

(** ** The fuel of the ray loops *)

Lemma ray_leaves_board dr dc r c (k : nat) :
  (dr, dc) ∈ queenDirections -> onBoard r c -> (8 <= k)%nat ->
  ~ onBoard (r + Z.of_nat k * dr) (c + Z.of_nat k * dc).
Proof.
  unfold queenDirections, onBoard. intros Hdir Hon Hk.
  repeat (apply elem_of_cons in Hdir as [Hdir|Hdir];
          [injection Hdir as -> ->; lia|]).
  by apply elem_of_nil in Hdir.
Qed.

Lemma slide_enough n fuel g piece dr dc r c moves :
  (n <= fuel)%nat ->
  (forall k : nat, (n <= k)%nat ->
     ~ onBoard (r + Z.of_nat k * dr) (c + Z.of_nat k * dc)) ->
  slide fuel g piece dr dc r c moves = slide n g piece dr dc r c moves.
Proof.
  revert fuel r c moves.
  induction n as [|n IH]; intros fuel r c moves Hn Hoff.
  - cbn [slide]. destruct fuel as [|fuel]; [reflexivity|]. cbn [slide].
    specialize (Hoff 0%nat (le_n _)).
    rewrite decide_False; [reflexivity|].
    replace r with (r + Z.of_nat 0 * dr) by lia.
    replace c with (c + Z.of_nat 0 * dc) by lia. exact Hoff.
  - destruct fuel as [|fuel]; [lia|]. cbn [slide].
    case_decide; [|reflexivity].
    destruct (getPiece g r c); [reflexivity|].
    apply IH; [lia|]. intros k Hk.
    specialize (Hoff (S k) ltac:(lia)).
    replace (r + dr + Z.of_nat k * dr) with (r + Z.of_nat (S k) * dr) by lia.
    replace (c + dc + Z.of_nat k * dc) with (c + Z.of_nat (S k) * dc) by lia.
    exact Hoff.
Qed.

(** More fuel than 8 changes nothing: [slide 8] is the [while] loop. *)
Lemma slide_fuel fuel g piece dr dc r c moves :
  (dr, dc) ∈ queenDirections -> (8 <= fuel)%nat ->
  slide fuel g piece dr dc r c moves = slide 8 g piece dr dc r c moves.
Proof.
  intros Hdir Hfuel.
  destruct (decide (onBoard r c)) as [Hon|Hoff].
  - apply slide_enough; [exact Hfuel|].
    intros k Hk. by apply ray_leaves_board.
  - destruct fuel as [|fuel]; [lia|]. cbn [slide].
    by rewrite !decide_False.
Qed.

Lemma rayHits_enough n fuel g byColor types dr dc r c :
  (n <= fuel)%nat ->
  (forall k : nat, (n <= k)%nat ->
     ~ onBoard (r + Z.of_nat k * dr) (c + Z.of_nat k * dc)) ->
  rayHits fuel g byColor types dr dc r c = rayHits n g byColor types dr dc r c.
Proof.
  revert fuel r c.
  induction n as [|n IH]; intros fuel r c Hn Hoff.
  - cbn [rayHits]. destruct fuel as [|fuel]; [reflexivity|]. cbn [rayHits].
    specialize (Hoff 0%nat (le_n _)).
    rewrite decide_False; [reflexivity|].
    replace r with (r + Z.of_nat 0 * dr) by lia.
    replace c with (c + Z.of_nat 0 * dc) by lia. exact Hoff.
  - destruct fuel as [|fuel]; [lia|]. cbn [rayHits].
    case_decide; [|reflexivity].
    destruct (getPiece g r c); [reflexivity|].
    apply IH; [lia|]. intros k Hk.
    specialize (Hoff (S k) ltac:(lia)).
    replace (r + dr + Z.of_nat k * dr) with (r + Z.of_nat (S k) * dr) by lia.
    replace (c + dc + Z.of_nat k * dc) with (c + Z.of_nat (S k) * dc) by lia.
    exact Hoff.
Qed.

(** Likewise for the scan of [isSquareAttackedForMinimax]. *)
Lemma rayHits_fuel fuel g byColor types dr dc r c :
  (dr, dc) ∈ queenDirections -> (8 <= fuel)%nat ->
  rayHits fuel g byColor types dr dc r c
  = rayHits 8 g byColor types dr dc r c.
Proof.
  intros Hdir Hfuel.
  destruct (decide (onBoard r c)) as [Hon|Hoff].
  - apply rayHits_enough; [exact Hfuel|].
    intros k Hk. by apply ray_leaves_board.
  - destruct fuel as [|fuel]; [lia|]. cbn [rayHits].
    by rewrite !decide_False.
Qed.

(** ** Records *)

Lemma spread_id (piece : Piece) : spread piece = piece.
Proof. destruct piece; reflexivity. Qed.

Lemma copyBoard_id (b : Board) : copyBoard b = b.
Proof.
  unfold copyBoard. induction b as [|cells b IH]; [reflexivity|].
  cbn [map]. rewrite IH. f_equal.
  induction cells as [|cell cells IHc]; [reflexivity|].
  cbn [map]. rewrite IHc. destruct cell as [p|]; [rewrite spread_id|]; reflexivity.
Qed.

Lemma set_board_id g : set_board (board g) g = g.
Proof. destruct g; reflexivity. Qed.

Lemma set_enPassantTarget_id g : set_enPassantTarget (enPassantTarget g) g = g.
Proof. destruct g; reflexivity. Qed.

Lemma set_board_set_board b1 b2 g : set_board b1 (set_board b2 g) = set_board b1 g.
Proof. reflexivity. Qed.

(** ** Boards *)

Lemma setPiece_eq row col piece g :
  setPiece row col piece g = Some (tt, putPiece row col piece g).
Proof. unfold setPiece, putPiece. case_decide; reflexivity. Qed.

Lemma wfBoard_storeAt b row col piece :
  wfBoard b -> wfBoard (storeAt b row col piece).
Proof.
  intros [Hlen Hrows]. unfold storeAt. split.
  - rewrite length_alter. exact Hlen.
  - apply Forall_alter; [exact Hrows|].
    intros cells _ Hc. rewrite length_insert. exact Hc.
Qed.

Lemma wfBoard_putPiece g row col piece :
  wfBoard (board g) -> wfBoard (board (putPiece row col piece g)).
Proof.
  intros H. unfold putPiece. case_decide; [|exact H].
  apply wfBoard_storeAt. exact H.
Qed.

Lemma wfBoard_initial : wfBoard getInitialBoard.
Proof. split; [reflexivity|]. repeat constructor. Qed.

Lemma cellAt_storeAt b row col piece r c :
  wfBoard b -> onBoard row col -> 0 <= r -> 0 <= c ->
  cellAt (storeAt b row col piece) r c =
    if decide (r = row ∧ c = col) then piece else cellAt b r c.
Proof.
  intros [Hlen Hrows] Hon Hr Hc. unfold cellAt, storeAt, onBoard in *.
  destruct (decide (r = row)) as [->|Hne].
  - rewrite list_lookup_alter_eq.
    destruct (b !! Z.to_nat row) as [cells|] eqn:Hcells.
    + cbn. assert (length cells = 8%nat) as Hl.
      { eapply Forall_lookup_1 in Hrows; eauto. }
      destruct (decide (c = col)) as [->|Hnc].
      * rewrite list_lookup_insert_eq by lia.
        rewrite decide_True by done. reflexivity.
      * rewrite list_lookup_insert_ne by lia.
        rewrite decide_False by (intros [_ ?]; done). reflexivity.
    + apply lookup_ge_None in Hcells. lia.
  - rewrite list_lookup_alter_ne by lia.
    rewrite decide_False by (intros [? _]; done). reflexivity.
Qed.

Lemma getPiece_putPiece g row col piece r c :
  wfBoard (board g) ->
  getPiece (putPiece row col piece g) r c =
    if decide (onBoard row col ∧ r = row ∧ c = col) then piece
    else getPiece g r c.
Proof.
  intros Hwf. unfold putPiece, getPiece.
  destruct (decide (onBoard row col)) as [Hon|Hoff].
  - cbn [board set_board].
    destruct (decide (r < 0 ∨ r > 7 ∨ c < 0 ∨ c > 7)) as [Hout|Hin].
    + rewrite decide_False; [reflexivity|].
      unfold onBoard in *. intros (_ & -> & ->). lia.
    + rewrite cellAt_storeAt by (try done; lia).
      destruct (decide (r = row ∧ c = col)) as [[-> ->]|Hne].
      * rewrite decide_True by done. reflexivity.
      * rewrite decide_False; [reflexivity|]. intros (_ & ? & ?). auto.
  - destruct (decide (onBoard row col ∧ r = row ∧ c = col)) as [[? _]|_];
      [contradiction|reflexivity].
Qed.

Lemma getPiece_onBoard g r c piece :
  getPiece g r c = Some piece -> onBoard r c.
Proof.
  unfold getPiece, onBoard. case_decide; [discriminate|]. intros _. lia.
Qed.

Lemma board_ext (b1 b2 : Board) :
  wfBoard b1 -> wfBoard b2 ->
  (forall r c, onBoard r c -> cellAt b1 r c = cellAt b2 r c) ->
  b1 = b2.
Proof.
  intros [Hl1 Hr1] [Hl2 Hr2] Hcells.
  apply list_eq. intros i.
  destruct (decide (i < 8)%nat) as [Hi|Hi].
  2:{ rewrite !(proj2 (lookup_ge_None _ _)) by lia. reflexivity. }
  destruct (lookup_lt_is_Some_2 b1 i) as [cs1 Hc1]; [lia|].
  destruct (lookup_lt_is_Some_2 b2 i) as [cs2 Hc2]; [lia|].
  rewrite Hc1, Hc2. f_equal.
  assert (length cs1 = 8%nat) as Hlc1 by (eapply Forall_lookup_1 in Hr1; eauto).
  assert (length cs2 = 8%nat) as Hlc2 by (eapply Forall_lookup_1 in Hr2; eauto).
  apply list_eq. intros j.
  destruct (decide (j < 8)%nat) as [Hj|Hj].
  2:{ rewrite !(proj2 (lookup_ge_None _ _)) by lia. reflexivity. }
  destruct (lookup_lt_is_Some_2 cs1 j) as [x1 Hx1]; [lia|].
  destruct (lookup_lt_is_Some_2 cs2 j) as [x2 Hx2]; [lia|].
  specialize (Hcells (Z.of_nat i) (Z.of_nat j)).
  unfold cellAt, onBoard in Hcells. rewrite !Nat2Z.id in Hcells.
  rewrite Hc1, Hc2, Hx1, Hx2 in Hcells.
  rewrite Hx1, Hx2. f_equal. apply Hcells. lia.
Qed.

Lemma game_board_ext g1 g2 :
  wfBoard (board g1) -> wfBoard (board g2) ->
  (forall r c, getPiece g1 r c = getPiece g2 r c) ->
  board g1 = board g2.
Proof.
  intros H1 H2 Hget. apply board_ext; [done|done|].
  intros r c Hon. specialize (Hget r c). unfold getPiece, onBoard in *.
  rewrite !decide_False in Hget by lia. exact Hget.
Qed.

(** ** The methods as functions on states

    Each method of the engine that restores what it touches is shown to
    return a value computed from the state it was called in, and to
    leave that state as it was. *)

Lemma putPiece_frame row col piece g :
  putPiece row col piece g = set_board (board (putPiece row col piece g)) g.
Proof. unfold putPiece. case_decide; [reflexivity|]. symmetry. apply set_board_id. Qed.

Lemma simulateMove_eq fromRow fromCol piece move g :
  getPiece g fromRow fromCol = Some piece ->
  simulateMove fromRow fromCol (MoveInfo.row move) (MoveInfo.col move)
               (Some move) g
  = Some (tt, simulated fromRow fromCol piece move g).
Proof.
  intros Hp. unfold simulateMove, simulated. munfold. rewrite Hp. cbn.
  destruct (MoveInfo.enPassant move); cbn; rewrite ?setPiece_eq;
    destruct (MoveInfo.castling move) as [[]|]; cbn;
    rewrite ?setPiece_eq; reflexivity.
Qed.

Lemma onlyBoard_refl g : onlyBoard g g.
Proof. unfold onlyBoard. symmetry. apply set_board_id. Qed.

Lemma onlyBoard_putPiece g g' row col piece :
  onlyBoard g g' -> onlyBoard g (putPiece row col piece g').
Proof.
  unfold onlyBoard, putPiece. intros H. case_decide; [|exact H].
  rewrite H. reflexivity.
Qed.

Lemma simulated_frame fromRow fromCol piece move g :
  onlyBoard g (simulated fromRow fromCol piece move g).
Proof.
  unfold simulated.
  repeat first
    [ apply onlyBoard_putPiece
    | apply onlyBoard_refl
    | match goal with
      | |- onlyBoard _ (if ?b then _ else _) => destruct b
      | |- onlyBoard _ (match ?o with Some _ => _ | None => _ end) =>
          destruct o as [[]|]
      end ].
Qed.

Lemma forEachM_pure {A B} (body : B -> A -> M B) (f : B -> A -> B) g xs acc :
  (forall acc x, body acc x g = Some (f acc x, g)) ->
  forEachM body xs acc g = Some (foldl f acc xs, g).
Proof.
  intros Hbody. revert acc.
  induction xs as [|x xs IH]; intros acc; [reflexivity|].
  cbn [forEachM foldl]. rewrite (bind_Some _ _ _ _ _ (Hbody acc x)). apply IH.
Qed.

Lemma foldl_filter {A} (P : A -> bool) (xs acc : list A) :
  foldl (fun acc x => if P x then acc ++ [x] else acc) acc xs
  = acc ++ filter (fun x => P x = true) xs.
Proof.
  revert acc. induction xs as [|x xs IH]; intros acc; cbn [foldl].
  - rewrite app_nil_r. reflexivity.
  - rewrite IH, filter_cons. destruct (P x).
    + rewrite decide_True by reflexivity. rewrite <- app_assoc. reflexivity.
    + rewrite decide_False by discriminate. reflexivity.
Qed.

Lemma tryMove_eq row col piece g acc move :
  getPiece g row col = Some piece ->
  tryMove row col piece acc move g
  = Some (if negb (isInCheck (simulated row col piece move g) (color piece))
          then acc ++ [move] else acc, g).
Proof.
  intros Hp. unfold tryMove. munfold.
  rewrite (simulateMove_eq _ _ piece) by exact Hp.
  rewrite copyBoard_id.
  assert (set_enPassantTarget (enPassantTarget g)
            (set_board (board g) (simulated row col piece move g)) = g) as ->.
  { rewrite (simulated_frame row col piece move g). cbn.
    destruct g; reflexivity. }
  reflexivity.
Qed.

Lemma tryMove_loop row col piece g raw acc :
  getPiece g row col = Some piece ->
  forEachM (tryMove row col piece) raw acc g
  = Some (acc ++ filter (fun move =>
                  isInCheck (simulated row col piece move g) (color piece) = false)
                raw, g).
Proof.
  intros Hp.
  rewrite (forEachM_pure _
    (fun acc move =>
       if negb (isInCheck (simulated row col piece move g) (color piece))
       then acc ++ [move] else acc)).
  2:{ intros. apply tryMove_eq. exact Hp. }
  rewrite (foldl_filter (fun move =>
    negb (isInCheck (simulated row col piece move g) (color piece)))).
  f_equal. f_equal. f_equal. apply list_filter_iff. intros move.
  rewrite negb_true_iff. reflexivity.
Qed.

Lemma getValidMoves_eq row col g :
  getValidMoves row col g = Some (legalMoves g row col, g).
Proof.
  unfold getValidMoves, legalMoves. munfold.
  destruct (getPiece g row col) as [piece|] eqn:Hp; [|reflexivity].
  case_decide; [reflexivity|].
  rewrite (tryMove_loop _ _ _ _ _ _ Hp). reflexivity.
Qed.

Lemma getAllValidMoves_eq clr g :
  getAllValidMoves clr g = Some (allLegalMoves g clr, g).
Proof.
  unfold getAllValidMoves, allLegalMoves.
  apply forEachM_pure. intros acc [row col]. munfold.
  destruct (getPiece g row col) as [piece|]; [|reflexivity].
  case_decide; [|reflexivity].
  rewrite getValidMoves_eq. reflexivity.
Qed.

Lemma hasValidMovesFrom_eq squares g :
  hasValidMovesFrom squares g = Some (hasLegalMove g squares, g).
Proof.
  induction squares as [|[row col] squares IH]; [reflexivity|].
  cbn [hasValidMovesFrom hasLegalMove existsb]. munfold.
  destruct (getPiece g row col) as [piece|]; [|exact IH].
  case_decide.
  - rewrite getValidMoves_eq. rewrite bool_decide_true by assumption.
    case_decide.
    + rewrite bool_decide_true by assumption. reflexivity.
    + rewrite bool_decide_false by assumption. exact IH.
  - rewrite bool_decide_false by assumption. exact IH.
Qed.

Lemma checkGameState_eq g : checkGameState g = Some (tt, checked g).
Proof.
  unfold checkGameState, checked. munfold.
  rewrite hasValidMovesFrom_eq.
  destruct (hasLegalMove _ allSquares); cbn; [reflexivity|].
  destruct (isInCheck g (currentTurn g)); reflexivity.
Qed.

Lemma makeMove_eq fromRow fromCol toRow toCol promotionPiece g piece moveInfo :
  getPiece g fromRow fromCol = Some piece ->
  find (landsOn toRow toCol) (validMoves g) = Some moveInfo ->
  makeMove fromRow fromCol toRow toCol promotionPiece g
  = g' ← executed fromRow fromCol toRow toCol promotionPiece piece moveInfo g;
    Some (true, checked g').
Proof.
  intros Hp Hf. unfold makeMove, executed. munfold. rewrite Hp, Hf.
  destruct (MoveInfo.enPassant moveInfo); rewrite ?setPiece_eq;
  [ destruct (getPiece g (if decide (color piece = WHITE) then toRow + 1
                          else toRow - 1) toCol) as [cp|]
  | destruct (getPiece g toRow toCol) as [cp|] ];
  (destruct (MoveInfo.castling moveInfo) as [[]|]; cbn -[checkGameState];
   [ match goal with
     | |- context [getPiece ?g' fromRow 7] =>
         destruct (getPiece g' fromRow 7); [|reflexivity]
     end
   | match goal with
     | |- context [getPiece ?g' fromRow 0] =>
         destruct (getPiece g' fromRow 0); [|reflexivity]
     end
   | ]);
  cbn -[checkGameState]; rewrite ?setPiece_eq;
  destruct promotionPiece as [promotionType|];
  try destruct (MoveInfo.promotion moveInfo);
  cbn -[checkGameState]; rewrite ?setPiece_eq; cbn -[checkGameState];
  rewrite checkGameState_eq; reflexivity.
Qed.

(** ** The pseudo-legal moves *)

Section RawMoves.
Context (g : ChessGame) (r c : Z) (piece : Piece).
Hypothesis Hon : onBoard r c.

Lemma Forall_snoc_push {A} (P : A -> Prop) (l : list A) (x : A) :
  Forall P l -> P x -> Forall P (l ++ [x]).
Proof. intros Hl Hx. apply Forall_app. split; [exact Hl|]. constructor; auto. Qed.

Lemma offsetMoves_raw moves offsets :
  type piece ≠ PAWN ->
  Forall (RawMove g r c piece) moves ->
  Forall (RawMove g r c piece) (offsetMoves g r c piece moves offsets).
Proof.
  intros Hty. unfold offsetMoves. revert moves.
  induction offsets as [|[dr dc] offsets IH]; intros moves Hm; [exact Hm|].
  cbn [foldl]. apply IH.
  case_decide; [|exact Hm].
  destruct (emptyOrEnemy _ piece) eqn:He; [|exact Hm].
  apply Forall_snoc_push; [exact Hm|]. apply Raw_step; assumption.
Qed.

Lemma slide_raw fuel dr dc r' c' moves :
  type piece ≠ PAWN ->
  Forall (RawMove g r c piece) moves ->
  Forall (RawMove g r c piece) (slide fuel g piece dr dc r' c' moves).
Proof.
  intros Hty. revert r' c' moves.
  induction fuel as [|fuel IH]; intros r' c' moves Hm; [exact Hm|].
  cbn [slide]. case_decide; [|exact Hm].
  destruct (getPiece g r' c') as [target|] eqn:Ht.
  - case_decide; [|exact Hm].
    apply Forall_snoc_push; [exact Hm|]. apply Raw_step; [done..|].
    rewrite Ht. cbn. apply bool_decide_eq_true. assumption.
  - apply IH. apply Forall_snoc_push; [exact Hm|].
    apply Raw_step; [done..|]. rewrite Ht. reflexivity.
Qed.

Lemma getSlidingMoves_raw moves directions :
  type piece ≠ PAWN ->
  Forall (RawMove g r c piece) moves ->
  Forall (RawMove g r c piece) (getSlidingMoves g r c piece moves directions).
Proof.
  intros Hty. unfold getSlidingMoves. revert moves.
  induction directions as [|[dr dc] directions IH]; intros moves Hm; [exact Hm|].
  cbn [foldl]. apply IH. apply slide_raw; assumption.
Qed.

Lemma getCastlingMoves_raw moves :
  type piece = KING -> hasMoved piece = false ->
  isInCheck g (color piece) = false ->
  Forall (RawMove g r c piece) moves ->
  Forall (RawMove g r c piece) (getCastlingMoves g r c piece moves).
Proof.
  intros Hty Hnm Hnc Hm. unfold getCastlingMoves, getCastlingMovesWith.
  set (moves1 := match getPiece g r 7 with Some _ => _ | None => moves end).
  assert (Forall (RawMove g r c piece) moves1) as Hm1.
  { subst moves1. destruct (getPiece g r 7) as [rook|] eqn:Hr; [|exact Hm].
    case_decide as Hrook; [|exact Hm]. destruct Hrook.
    case_decide as Hempty; [|exact Hm]. destruct Hempty.
    destruct (isSquareAttacked g r 5 _) eqn:Ha5; [exact Hm|].
    destruct (isSquareAttacked g r 6 _) eqn:Ha6; [exact Hm|].
    cbn. apply Forall_snoc_push; [exact Hm|].
    eapply Raw_castle_kingside; eassumption. }
  destruct (getPiece g r 0) as [rook|] eqn:Hr; [|exact Hm1].
  case_decide as Hrook; [|exact Hm1]. destruct Hrook.
  case_decide as Hempty; [|exact Hm1]. destruct Hempty as (? & ? & ?).
  destruct (isSquareAttacked g r 2 _) eqn:Ha2; [exact Hm1|].
  destruct (isSquareAttacked g r 3 _) eqn:Ha3; [exact Hm1|].
  cbn. apply Forall_snoc_push; [exact Hm1|].
  eapply Raw_castle_queenside; eassumption.
Qed.

Lemma getPawnMoves_raw :
  type piece = PAWN ->
  Forall (RawMove g r c piece) (getPawnMoves g r c piece [] false).
Proof.
  intros Hty. unfold getPawnMoves.
  change (if decide (color piece = WHITE) then -1 else 1)
    with (pawnDirection piece).
  change (if decide (color piece = WHITE) then 6 else 1)
    with (pawnStartRow piece).
  change (if decide (color piece = WHITE) then 0 else 7)
    with (pawnPromotionRow piece).
  cbn [negb].
  set (fw := if decide (_ ∧ _ ∧ getPiece g _ c = None) then _ else []).
  assert (Forall (RawMove g r c piece) fw) as Hfw.
  { subst fw. case_decide as Hone; [|constructor].
    destruct Hone as (? & ? & ?).
    assert (Forall (RawMove g r c piece)
              ([] ++ [MoveInfo.mk (r + pawnDirection piece) c false
                 (bool_decide (r + pawnDirection piece = pawnPromotionRow piece))
                 false false None])) as Hfirst.
    { apply Forall_snoc_push; [constructor|].
      apply Raw_pawn_one; [done| |done]. unfold onBoard in *. lia. }
    destruct (decide (r = pawnStartRow piece)); [|exact Hfirst].
    destruct (decide (getPiece g (r + 2 * pawnDirection piece) c = None));
      [|exact Hfirst].
    apply Forall_snoc_push; [exact Hfirst|]. apply Raw_pawn_two; assumption. }
  revert Hfw. generalize fw. clear fw.
  assert (forall dc moves, dc = -1 ∨ dc = 1 ->
    Forall (RawMove g r c piece) moves ->
    Forall (RawMove g r c piece)
      (if decide (onBoard (r + pawnDirection piece) (c + dc)) then
         let target := getPiece g (r + pawnDirection piece) (c + dc) in
         let moves0 :=
           if isEnemy target piece then
             moves ++ [MoveInfo.mk (r + pawnDirection piece) (c + dc) true
                (bool_decide (r + pawnDirection piece = pawnPromotionRow piece))
                false false None]
           else moves in
         if true && bool_decide
              (enPassantTarget g = Some (r + pawnDirection piece, c + dc))
         then moves0 ++ [MoveInfo.mk (r + pawnDirection piece) (c + dc)
                           true false false true None]
         else moves0
       else moves)) as Hstep.
  { intros dc moves Hdc Hm.
    destruct (decide (onBoard (r + pawnDirection piece) (c + dc))) as [Hb|];
      [|exact Hm]. cbn zeta.
    set (moves0 := if isEnemy _ piece then _ else moves).
    assert (Forall (RawMove g r c piece) moves0) as Hm0.
    { subst moves0. destruct (isEnemy _ piece) eqn:He; [|exact Hm].
      apply Forall_snoc_push; [exact Hm|]. apply Raw_pawn_capture; assumption. }
    cbn [andb]. case_bool_decide as Hep; [|exact Hm0].
    apply Forall_snoc_push; [exact Hm0|]. apply Raw_pawn_enPassant; assumption. }
  intros fw Hfw. cbn [foldl].
  apply (Hstep 1); [right; reflexivity|].
  apply (Hstep (-1)); [left; reflexivity|]. exact Hfw.
Qed.

Lemma getRawMoves_raw :
  Forall (RawMove g r c piece) (getRawMoves g r c piece false).
Proof.
  unfold getRawMoves, getRawMovesWith.
  destruct (type piece) eqn:Hty.
  - unfold getKingMovesWith. cbn [negb andb].
    destruct (hasMoved piece) eqn:Hnm; cbn [negb andb].
    + apply offsetMoves_raw; [congruence|constructor].
    + destruct (isInCheck g (color piece)) eqn:Hc; cbn [negb].
      * apply offsetMoves_raw; [congruence|constructor].
      * apply getCastlingMoves_raw; [done..|].
        apply offsetMoves_raw; [congruence|constructor].
  - apply getSlidingMoves_raw; [congruence|constructor].
  - apply getSlidingMoves_raw; [congruence|constructor].
  - apply getSlidingMoves_raw; [congruence|constructor].
  - apply offsetMoves_raw; [congruence|constructor].
  - apply getPawnMoves_raw. exact Hty.
Qed.
End RawMoves.

Lemma undoMove_eq g move :
  last (moveHistory g) = Some move ->
  undoMove g
  = g' ← reverted move (set_moveHistory (removelast (moveHistory g)) g);
    Some (true, g').
Proof.
  intros Hl. unfold undoMove, reverted. munfold. rewrite Hl.
  destruct (MoveRecord.from move) as [fromRow fromCol].
  destruct (MoveRecord.to move) as [toRow toCol].
  cbn [fst snd]. rewrite !setPiece_eq.
  destruct (MoveRecord.captured move) as [captured|];
    [destruct (MoveRecord.enPassant move)|];
    rewrite ?setPiece_eq;
    (destruct (MoveRecord.castling move) as [[]|]; cbn;
     [ match goal with
       | |- context [getPiece ?g' fromRow 5] =>
           destruct (getPiece g' fromRow 5); [|reflexivity]
       end
     | match goal with
       | |- context [getPiece ?g' fromRow 3] =>
           destruct (getPiece g' fromRow 3); [|reflexivity]
       end
     | ]);
    cbn; rewrite ?setPiece_eq; reflexivity.
Qed.

Lemma undoMove_empty g :
  moveHistory g = [] -> undoMove g = Some (false, g).
Proof. intros H. unfold undoMove. munfold. rewrite H. reflexivity. Qed.

(** ** Fields through the board writes and [checkGameState] *)

Lemma currentTurn_putPiece r c p g : currentTurn (putPiece r c p g) = currentTurn g.
Proof. unfold putPiece. case_decide; reflexivity. Qed.
Lemma selectedPiece_putPiece r c p g : selectedPiece (putPiece r c p g) = selectedPiece g.
Proof. unfold putPiece. case_decide; reflexivity. Qed.
Lemma validMoves_putPiece r c p g : validMoves (putPiece r c p g) = validMoves g.
Proof. unfold putPiece. case_decide; reflexivity. Qed.
Lemma moveHistory_putPiece r c p g : moveHistory (putPiece r c p g) = moveHistory g.
Proof. unfold putPiece. case_decide; reflexivity. Qed.
Lemma capturedPieces_putPiece r c p g : capturedPieces (putPiece r c p g) = capturedPieces g.
Proof. unfold putPiece. case_decide; reflexivity. Qed.
Lemma enPassantTarget_putPiece r c p g : enPassantTarget (putPiece r c p g) = enPassantTarget g.
Proof. unfold putPiece. case_decide; reflexivity. Qed.
Lemma gameOver_putPiece r c p g : gameOver (putPiece r c p g) = gameOver g.
Proof. unfold putPiece. case_decide; reflexivity. Qed.
Lemma winner_putPiece r c p g : winner (putPiece r c p g) = winner g.
Proof. unfold putPiece. case_decide; reflexivity. Qed.
Lemma isCheck_putPiece r c p g : isCheck (putPiece r c p g) = isCheck g.
Proof. unfold putPiece. case_decide; reflexivity. Qed.
Lemma lastMove_putPiece r c p g : lastMove (putPiece r c p g) = lastMove g.
Proof. unfold putPiece. case_decide; reflexivity. Qed.

Lemma checked_cases g :
  checked g = set_isCheck (isInCheck g (currentTurn g)) g
  ∨ exists w, checked g = set_winner w (set_gameOver true
                 (set_isCheck (isInCheck g (currentTurn g)) g)).
Proof.
  unfold checked. destruct (hasLegalMove _ allSquares); [left; reflexivity|].
  right. cbn. destruct (isInCheck g (currentTurn g)); eexists; reflexivity.
Qed.

Lemma board_checked g : board (checked g) = board g.
Proof. destruct (checked_cases g) as [->|[w ->]]; reflexivity. Qed.
Lemma currentTurn_checked g : currentTurn (checked g) = currentTurn g.
Proof. destruct (checked_cases g) as [->|[w ->]]; reflexivity. Qed.
Lemma selectedPiece_checked g : selectedPiece (checked g) = selectedPiece g.
Proof. destruct (checked_cases g) as [->|[w ->]]; reflexivity. Qed.
Lemma validMoves_checked g : validMoves (checked g) = validMoves g.
Proof. destruct (checked_cases g) as [->|[w ->]]; reflexivity. Qed.
Lemma moveHistory_checked g : moveHistory (checked g) = moveHistory g.
Proof. destruct (checked_cases g) as [->|[w ->]]; reflexivity. Qed.
Lemma capturedPieces_checked g : capturedPieces (checked g) = capturedPieces g.
Proof. destruct (checked_cases g) as [->|[w ->]]; reflexivity. Qed.
Lemma enPassantTarget_checked g : enPassantTarget (checked g) = enPassantTarget g.
Proof. destruct (checked_cases g) as [->|[w ->]]; reflexivity. Qed.
Lemma lastMove_checked g : lastMove (checked g) = lastMove g.
Proof. destruct (checked_cases g) as [->|[w ->]]; reflexivity. Qed.
Lemma isCheck_checked g : isCheck (checked g) = isInCheck g (currentTurn g).
Proof. destruct (checked_cases g) as [->|[w ->]]; reflexivity. Qed.
Lemma getPiece_checked g r c : getPiece (checked g) r c = getPiece g r c.
Proof. unfold getPiece. rewrite board_checked. reflexivity. Qed.

Ltac fields :=
  repeat first
    [ rewrite currentTurn_putPiece | rewrite selectedPiece_putPiece
    | rewrite validMoves_putPiece | rewrite moveHistory_putPiece
    | rewrite capturedPieces_putPiece | rewrite enPassantTarget_putPiece
    | rewrite gameOver_putPiece | rewrite winner_putPiece
    | rewrite isCheck_putPiece | rewrite lastMove_putPiece
    | rewrite board_checked | rewrite currentTurn_checked
    | rewrite selectedPiece_checked | rewrite validMoves_checked
    | rewrite moveHistory_checked | rewrite capturedPieces_checked
    | rewrite enPassantTarget_checked | rewrite lastMove_checked
    | rewrite isCheck_checked | rewrite getPiece_checked
    | progress cbn [board currentTurn selectedPiece validMoves moveHistory
                    capturedPieces enPassantTarget gameOver winner isCheck
                    lastMove set_board set_currentTurn set_validMoves
                    set_moveHistory set_capturedPieces set_enPassantTarget
                    set_gameOver set_winner set_isCheck set_lastMove] ].

(** Two states with the same fields are equal. *)
Lemma game_eq g1 g2 :
  board g1 = board g2 -> currentTurn g1 = currentTurn g2 ->
  selectedPiece g1 = selectedPiece g2 -> validMoves g1 = validMoves g2 ->
  moveHistory g1 = moveHistory g2 -> capturedPieces g1 = capturedPieces g2 ->
  enPassantTarget g1 = enPassantTarget g2 -> gameOver g1 = gameOver g2 ->
  winner g1 = winner g2 -> isCheck g1 = isCheck g2 ->
  lastMove g1 = lastMove g2 -> g1 = g2.
Proof. destruct g1, g2. cbn. intros. subst. reflexivity. Qed.

(** A reader of the board sees the same pieces in two states with the
    same board. *)
Lemma getPiece_same_board g1 g2 r c :
  board g1 = board g2 -> getPiece g1 r c = getPiece g2 r c.
Proof. unfold getPiece. intros ->. reflexivity. Qed.

Lemma alikeCell_refl clr p : alikeCell clr p p.
Proof. destruct p; cbn; tauto. Qed.

Lemma alike_same_board clr g1 g2 : board g1 = board g2 -> alike clr g1 g2.
Proof.
  intros Hb r c. rewrite (getPiece_same_board g1 g2) by exact Hb.
  apply alikeCell_refl.
Qed.

Section Alike.
Context (clr : COLORS) (g1 g2 : ChessGame).
Hypothesis Halike : alike clr g1 g2.

Lemma alike_None r c : getPiece g1 r c = None <-> getPiece g2 r c = None.
Proof.
  specialize (Halike r c). unfold alikeCell in Halike.
  destruct (getPiece g1 r c), (getPiece g2 r c); try tauto; split; discriminate.
Qed.

Lemma alike_emptyOrEnemy r c p1 p2 :
  color p1 = color p2 ->
  emptyOrEnemy (getPiece g1 r c) p1 = emptyOrEnemy (getPiece g2 r c) p2.
Proof.
  intros Hc. specialize (Halike r c). unfold alikeCell in Halike.
  destruct (getPiece g1 r c), (getPiece g2 r c); try tauto; cbn.
  destruct Halike as (-> & _). rewrite Hc. reflexivity.
Qed.

Lemma alike_truthy r c :
  truthy (getPiece g1 r c) = truthy (getPiece g2 r c).
Proof.
  specialize (Halike r c). unfold alikeCell in Halike.
  destruct (getPiece g1 r c), (getPiece g2 r c); try tauto; reflexivity.
Qed.

Lemma alike_offsetMoves r c p1 p2 moves offsets :
  color p1 = color p2 ->
  offsetMoves g1 r c p1 moves offsets = offsetMoves g2 r c p2 moves offsets.
Proof.
  intros Hc. unfold offsetMoves. revert moves.
  induction offsets as [|[dr dc] offsets IH]; intros moves;
    cbn [foldl]; [reflexivity|].
  rewrite (alike_emptyOrEnemy _ _ p1 p2 Hc), alike_truthy.
  apply IH.
Qed.

Lemma alike_slide fuel p1 p2 dr dc r c moves :
  color p1 = color p2 ->
  slide fuel g1 p1 dr dc r c moves = slide fuel g2 p2 dr dc r c moves.
Proof.
  intros Hc. revert r c moves.
  induction fuel as [|fuel IH]; intros r c moves;
    cbn [slide]; [reflexivity|].
  case_decide; [|reflexivity].
  pose proof (Halike r c) as Hrc. unfold alikeCell in Hrc.
  destruct (getPiece g1 r c) as [t1|], (getPiece g2 r c) as [t2|]; try tauto.
  - destruct Hrc as (-> & _). rewrite Hc. reflexivity.
  - apply IH.
Qed.

Lemma alike_getSlidingMoves r c p1 p2 moves directions :
  color p1 = color p2 ->
  getSlidingMoves g1 r c p1 moves directions
  = getSlidingMoves g2 r c p2 moves directions.
Proof.
  intros Hc. unfold getSlidingMoves. revert moves.
  induction directions as [|[dr dc] directions IH]; intros moves;
    cbn [foldl]; [reflexivity|].
  rewrite (alike_slide _ p1 p2) by exact Hc. apply IH.
Qed.

Lemma alike_attackMoves r c p1 p2 :
  color p1 = color p2 -> type p1 = type p2 ->
  attackMoves g1 r c p1 = attackMoves g2 r c p2.
Proof.
  intros Hc Ht. unfold attackMoves, getRawMovesWith. rewrite <- Ht.
  destruct (type p1).
  - unfold getKingMovesWith. cbn [negb andb]. apply alike_offsetMoves, Hc.
  - apply alike_getSlidingMoves, Hc.
  - apply alike_getSlidingMoves, Hc.
  - apply alike_getSlidingMoves, Hc.
  - apply alike_offsetMoves, Hc.
  - unfold getPawnMoves. rewrite Hc. reflexivity.
Qed.

Lemma alike_isSquareAttacked row col :
  isSquareAttacked g1 row col (opponent clr)
  = isSquareAttacked g2 row col (opponent clr).
Proof.
  unfold isSquareAttacked. induction allSquares as [|[r c] sqs IH];
    cbn [existsb]; [reflexivity|].
  rewrite IH. f_equal.
  pose proof (Halike r c) as Hrc. unfold alikeCell in Hrc.
  destruct (getPiece g1 r c) as [p1|], (getPiece g2 r c) as [p2|]; try tauto.
  destruct Hrc as (Hc & Ht & _). rewrite <- Hc.
  case_bool_decide as Hby; [|reflexivity]. cbn [andb].
  rewrite (alike_attackMoves r c p1 p2); [reflexivity|exact Hc|].
  apply Ht. rewrite Hby. destruct clr; discriminate.
Qed.

Lemma alike_findKing : findKing g1 clr = findKing g2 clr.
Proof.
  unfold findKing. induction allSquares as [|[r c] sqs IH];
    cbn [find]; [reflexivity|].
  rewrite IH.
  pose proof (Halike r c) as Hrc. unfold alikeCell in Hrc.
  destruct (getPiece g1 r c) as [p1|], (getPiece g2 r c) as [p2|]; try tauto.
  destruct Hrc as (Hc & _ & Hk). rewrite <- Hc.
  rewrite (bool_decide_ext (type p1 = KING ∧ color p1 = clr)
                           (type p2 = KING ∧ color p1 = clr)) by tauto.
  reflexivity.
Qed.

Lemma alike_isInCheck : isInCheck g1 clr = isInCheck g2 clr.
Proof.
  unfold isInCheck. rewrite alike_findKing.
  destruct (findKing g2 clr) as [[kr kc]|]; [|reflexivity].
  apply alike_isSquareAttacked.
Qed.
End Alike.

Lemma isInCheck_same_board g1 g2 clr :
  board g1 = board g2 -> isInCheck g1 clr = isInCheck g2 clr.
Proof. intros Hb. apply alike_isInCheck, alike_same_board, Hb. Qed.

Lemma getPiece_set_currentTurn v g r c : getPiece (set_currentTurn v g) r c = getPiece g r c.
Proof. reflexivity. Qed.
Lemma getPiece_set_validMoves v g r c : getPiece (set_validMoves v g) r c = getPiece g r c.
Proof. reflexivity. Qed.
Lemma getPiece_set_moveHistory v g r c : getPiece (set_moveHistory v g) r c = getPiece g r c.
Proof. reflexivity. Qed.
Lemma getPiece_set_capturedPieces v g r c : getPiece (set_capturedPieces v g) r c = getPiece g r c.
Proof. reflexivity. Qed.
Lemma getPiece_set_enPassantTarget v g r c : getPiece (set_enPassantTarget v g) r c = getPiece g r c.
Proof. reflexivity. Qed.
Lemma getPiece_set_gameOver v g r c : getPiece (set_gameOver v g) r c = getPiece g r c.
Proof. reflexivity. Qed.
Lemma getPiece_set_winner v g r c : getPiece (set_winner v g) r c = getPiece g r c.
Proof. reflexivity. Qed.
Lemma getPiece_set_isCheck v g r c : getPiece (set_isCheck v g) r c = getPiece g r c.
Proof. reflexivity. Qed.
Lemma getPiece_set_lastMove v g r c : getPiece (set_lastMove v g) r c = getPiece g r c.
Proof. reflexivity. Qed.

(** The board is well formed through the writes and the assignments to
    the other fields. *)
Ltac solve_wf :=
  repeat first
    [ assumption
    | apply wfBoard_putPiece
    | rewrite board_checked
    | progress cbn [board set_currentTurn set_validMoves set_moveHistory
                    set_capturedPieces set_enPassantTarget set_gameOver
                    set_winner set_isCheck set_lastMove] ].

(** Reads of written boards. *)
Ltac read_board :=
  repeat first
    [ rewrite getPiece_checked
    | rewrite getPiece_set_currentTurn | rewrite getPiece_set_validMoves
    | rewrite getPiece_set_moveHistory | rewrite getPiece_set_capturedPieces
    | rewrite getPiece_set_enPassantTarget | rewrite getPiece_set_gameOver
    | rewrite getPiece_set_winner | rewrite getPiece_set_isCheck
    | rewrite getPiece_set_lastMove
    | rewrite getPiece_putPiece by solve_wf ].

(** ** Normal forms of [makeMove] and [undoMove]

    The accessors on boards, and the board and the record that a move
    produces, so that the states after [makeMove] and after [undoMove]
    can be written field by field. *)

Lemma getPiece_pieceAt g r c : getPiece g r c = pieceAt (board g) r c.
Proof. reflexivity. Qed.

Lemma putPiece_place r c p g :
  putPiece r c p g = set_board (place (board g) r c p) g.
Proof.
  unfold putPiece, place. case_decide; [reflexivity|].
  symmetry. apply set_board_id.
Qed.

Lemma wfBoard_place b r c p : wfBoard b -> wfBoard (place b r c p).
Proof. intros H. unfold place. case_decide; [apply wfBoard_storeAt|]; exact H. Qed.

Lemma pieceAt_place b row col piece r c :
  wfBoard b ->
  pieceAt (place b row col piece) r c =
    if decide (onBoard row col ∧ r = row ∧ c = col) then piece
    else pieceAt b r c.
Proof.
  intros Hwf.
  pose proof (getPiece_putPiece (set_board b reset) row col piece r c Hwf) as H.
  rewrite putPiece_place in H. exact H.
Qed.

Lemma pieceAt_onBoard b r c p : pieceAt b r c = Some p -> onBoard r c.
Proof.
  unfold pieceAt, onBoard. case_decide; [discriminate|]. intros _. lia.
Qed.

Lemma pieceAt_ext b1 b2 :
  wfBoard b1 -> wfBoard b2 ->
  (forall r c, pieceAt b1 r c = pieceAt b2 r c) -> b1 = b2.
Proof.
  intros H1 H2 H.
  apply (game_board_ext (set_board b1 reset) (set_board b2 reset) H1 H2 H).
Qed.

Lemma executed_normal fromRow fromCol toRow toCol promotionPiece piece moveInfo g :
  executed fromRow fromCol toRow toCol promotionPiece piece moveInfo g
  = b ← executedBoard fromRow fromCol toRow toCol promotionPiece piece
         moveInfo (board g);
    Some {| board := b;
            currentTurn := opponent (currentTurn g);
            selectedPiece := selectedPiece g;
            validMoves := validMoves g;
            moveHistory := moveHistory g ++
              [recordOf fromRow fromCol toRow toCol promotionPiece piece
                 moveInfo g];
            capturedPieces :=
              match capturedOf toRow toCol piece moveInfo (board g) with
              | Some cp =>
                  set_capturedBy (color piece)
                    (capturedBy (color piece) (capturedPieces g) ++ [cp])
                    (capturedPieces g)
              | None => capturedPieces g
              end;
            enPassantTarget :=
              if MoveInfo.twoStep moveInfo then
                Some (capturedRowOf piece toRow, toCol)
              else None;
            gameOver := gameOver g;
            winner := winner g;
            isCheck := isCheck g;
            lastMove := Some ((fromRow, fromCol), (toRow, toCol)) |}.
Proof.
  unfold executed, executedBoard, recordOf, capturedOf, capturedRowOf.
  rewrite !putPiece_place, !getPiece_pieceAt.
  destruct (MoveInfo.enPassant moveInfo);
    [ destruct (pieceAt (board g) (if decide (color piece = WHITE)
                                   then toRow + 1 else toRow - 1) toCol)
    | destruct (pieceAt (board g) toRow toCol) ];
    (destruct (MoveInfo.castling moveInfo) as [[]|];
     cbn -[place pieceAt];
     [ match goal with
       | |- context [pieceAt ?b fromRow 7] => destruct (pieceAt b fromRow 7)
       end
     | match goal with
       | |- context [pieceAt ?b fromRow 0] => destruct (pieceAt b fromRow 0)
       end
     | ]);
    cbn -[place pieceAt]; try reflexivity;
    destruct promotionPiece as [promotionType|];
    try destruct (MoveInfo.promotion moveInfo);
    cbn -[place pieceAt]; rewrite ?putPiece_place; reflexivity.
Qed.

Opaque isInCheck.

Lemma reverted_normal move g :
  reverted move g
  = b ← revertedBoard move (board g);
    Some {| board := b;
            currentTurn := opponent (currentTurn g);
            selectedPiece := selectedPiece g;
            validMoves := validMoves g;
            moveHistory := moveHistory g;
            capturedPieces :=
              match MoveRecord.captured move with
              | Some _ =>
                  set_capturedBy (color (restoredPiece move))
                    (removelast (capturedBy (color (restoredPiece move))
                                   (capturedPieces g)))
                    (capturedPieces g)
              | None => capturedPieces g
              end;
            enPassantTarget := MoveRecord.previousEnPassant move;
            gameOver := false;
            winner := None;
            isCheck := isInCheck (set_board b g) (opponent (currentTurn g));
            lastMove :=
              match last (moveHistory g) with
              | Some lastHistoryMove =>
                  Some (MoveRecord.from lastHistoryMove,
                        MoveRecord.to lastHistoryMove)
              | None => None
              end |}.
Proof.
  unfold reverted, revertedBoard, capturedRowOf.
  fold (restoredPiece move).
  rewrite !putPiece_place.
  destruct (MoveRecord.captured move) as [captured|];
    [destruct (MoveRecord.enPassant move)|];
    rewrite ?putPiece_place, ?getPiece_pieceAt;
    (destruct (MoveRecord.castling move) as [[]|];
     cbn -[place pieceAt isInCheck restoredPiece];
     [ match goal with
       | |- context [pieceAt ?b ?r 5] =>
           destruct (pieceAt b r 5); [|reflexivity]
       end
     | match goal with
       | |- context [pieceAt ?b ?r 3] =>
           destruct (pieceAt b r 3); [|reflexivity]
       end
     | ]);
    cbn -[place pieceAt isInCheck restoredPiece];
    rewrite ?putPiece_place;
    apply (f_equal (@Some ChessGame)); apply game_eq;
    cbn -[place pieceAt isInCheck restoredPiece];
    first [ apply isInCheck_same_board; reflexivity | reflexivity ].
Qed.

Transparent isInCheck.

(** ** Undoing a move restores the board *)

Ltac solve_wfb := repeat first [assumption | apply wfBoard_place].

Ltac solve_cells :=
  rewrite ?pieceAt_place by solve_wfb;
  repeat case_decide; destruct_and?; subst;
  first [ congruence
        | exfalso; unfold onBoard, pawnDirection, capturedRowOf in *;
          repeat case_decide; first [tauto | lia | congruence] ].

Lemma restoredPiece_recordOf fr fc tr tc promo piece m g :
  (MoveInfo.promotion m = true ->
   type piece = PAWN ∧ symbol piece = PIECE_SYMBOLS (color piece) (type piece)) ->
  restoredPiece (recordOf fr fc tr tc promo piece m g) = piece.
Proof.
  intros H. unfold restoredPiece, recordOf. cbn.
  destruct promo as [t|]; [destruct (MoveInfo.promotion m)|];
    try (destruct piece; reflexivity).
  destruct H as [Ht Hs]; [reflexivity|].
  destruct piece as [ty cl sy hm]. cbn in *. subst. reflexivity.
Qed.

Lemma withHasMoved_back p :
  hasMoved p = false -> withHasMoved false (withHasMoved true p) = p.
Proof. destruct p. cbn. intros ->. reflexivity. Qed.

Ltac split_promo promo :=
  destruct promo;
  try match goal with
      | |- context [bool_decide ?P] => destruct (bool_decide P)
      end.

Ltac record_fields :=
  cbn [MoveInfo.row MoveInfo.col MoveInfo.enPassant MoveInfo.castling
       MoveInfo.promotion MoveInfo.twoStep MoveRecord.from MoveRecord.to
       MoveRecord.captured MoveRecord.castling MoveRecord.enPassant fst snd].

Lemma roundtrip_board g fr fc piece m promo :
  wfBoard (board g) ->
  getPiece g fr fc = Some piece ->
  RawMove g fr fc piece m ->
  symbol piece = PIECE_SYMBOLS (color piece) (type piece) ->
  (forall er ec, enPassantTarget g = Some (er, ec) -> getPiece g er ec = None) ->
  exists b',
    executedBoard fr fc (MoveInfo.row m) (MoveInfo.col m) promo piece m (board g)
      = Some b'
    ∧ wfBoard b'
    ∧ revertedBoard (recordOf fr fc (MoveInfo.row m) (MoveInfo.col m) promo piece m g) b'
      = Some (board g).
Proof.
  intros Hwf Hp Hraw Hsym Hep.
  pose proof (getPiece_onBoard _ _ _ _ Hp) as Hfrom.
  assert (restoredPiece (recordOf fr fc (MoveInfo.row m) (MoveInfo.col m) promo piece m g) = piece) as Hrest.
  { apply restoredPiece_recordOf. intros Hpr. split; [|exact Hsym].
    destruct Hraw; cbn in Hpr; try discriminate; assumption. }
  unfold revertedBoard. rewrite Hrest. clear Hrest.
  rewrite getPiece_pieceAt in Hp.
  setoid_rewrite getPiece_pieceAt in Hep.
  destruct Hraw as [tr tc cap Hty Hon He
                   | Hty Hon H1
                   | Hty Hst H1 H2
                   | dc Hty Hdc Hon He
                   | dc Hty Hdc Hon Het
                   | rook Hty Hnm Hnc Hrook Hrt Hrm H5 H6 Ha5 Ha6
                   | rook Hty Hnm Hnc Hrook Hrt Hrm H1 H2 H3 Ha2 Ha3 ];
    rewrite ?getPiece_pieceAt in *;
    unfold executedBoard, recordOf, capturedOf; record_fields.
  - cbn [mbind option_bind].
    eexists. split; [reflexivity|]. split; [split_promo promo; solve_wfb|].
    destruct (pieceAt (board g) tr tc) as [target|] eqn:Ht;
      cbn [fmap option_fmap option_map];
      f_equal; (apply pieceAt_ext; [split_promo promo; solve_wfb|assumption|]);
      intros r c; rewrite ?spread_id; split_promo promo; solve_cells.
  - cbn [mbind option_bind].
    eexists. split; [reflexivity|].
    split; [split_promo promo; solve_wfb|].
    rewrite H1. cbn [fmap option_fmap option_map].
    f_equal. (apply pieceAt_ext; [split_promo promo; solve_wfb|assumption|]).
    intros r c. split_promo promo; solve_cells.
  - cbn [mbind option_bind].
    eexists. split; [reflexivity|].
    split; [split_promo promo; solve_wfb|].
    rewrite H2. cbn [fmap option_fmap option_map].
    f_equal. (apply pieceAt_ext; [split_promo promo; solve_wfb|assumption|]).
    intros r c. split_promo promo; solve_cells.
  - cbn [mbind option_bind].
    eexists. split; [reflexivity|]. split; [split_promo promo; solve_wfb|].
    destruct (pieceAt (board g) (fr + pawnDirection piece) (fc + dc)) as [target|] eqn:Ht;
      cbn [fmap option_fmap option_map];
      f_equal; (apply pieceAt_ext; [split_promo promo; solve_wfb|assumption|]);
      intros r c; rewrite ?spread_id; split_promo promo; solve_cells.
  - cbn [mbind option_bind].
    eexists. split; [reflexivity|]. split; [split_promo promo; solve_wfb|].
    pose proof (Hep _ _ Het) as Hempty.
    destruct (pieceAt (board g) (capturedRowOf piece (fr + pawnDirection piece)) (fc + dc)) as [target|] eqn:Ht;
      cbn [fmap option_fmap option_map];
      f_equal; (apply pieceAt_ext; [split_promo promo; solve_wfb|assumption|]);
      intros r c; rewrite ?spread_id; split_promo promo; solve_cells.
  - rewrite Hrook. cbn [mbind option_bind].
    eexists. split; [reflexivity|]. split; [split_promo promo; solve_wfb|].
    rewrite H6. cbn [fmap option_fmap option_map].
    assert (onBoard fr 7) as Hon7 by (eapply pieceAt_onBoard; eauto).
    match goal with
    | |- context [pieceAt ?b fr 5 ≫= _] =>
        assert (pieceAt b fr 5 = Some (withHasMoved true rook)) as ->
    end.
    { split_promo promo; solve_cells. }
    cbn [mbind option_bind]. rewrite withHasMoved_back by exact Hrm.
    f_equal. (apply pieceAt_ext; [split_promo promo; solve_wfb|assumption|]).
    intros r c. split_promo promo; solve_cells.
  - rewrite Hrook. cbn [mbind option_bind].
    eexists. split; [reflexivity|]. split; [split_promo promo; solve_wfb|].
    rewrite H2. cbn [fmap option_fmap option_map].
    assert (onBoard fr 0) as Hon7 by (eapply pieceAt_onBoard; eauto).
    match goal with
    | |- context [pieceAt ?b fr 3 ≫= _] =>
        assert (pieceAt b fr 3 = Some (withHasMoved true rook)) as ->
    end.
    { split_promo promo; solve_cells. }
    cbn [mbind option_bind]. rewrite withHasMoved_back by exact Hrm.
    f_equal. (apply pieceAt_ext; [split_promo promo; solve_wfb|assumption|]).
    intros r c. split_promo promo; solve_cells.
Qed.

Lemma isSquareAttacked_same_board g1 g2 row col byColor :
  board g1 = board g2 ->
  isSquareAttacked g1 row col byColor = isSquareAttacked g2 row col byColor.
Proof.
  intros Hb.
  replace byColor with (opponent (opponent byColor)) by (destruct byColor; reflexivity).
  apply alike_isSquareAttacked, alike_same_board, Hb.
Qed.

Lemma getPiece_fun_same_board g1 g2 :
  board g1 = board g2 -> getPiece g1 = getPiece g2.
Proof. unfold getPiece. intros ->. reflexivity. Qed.

Lemma foldl_pointwise {A B} (f1 f2 : A -> B -> A) (xs : list B) (a : A) :
  (forall a x, f1 a x = f2 a x) -> foldl f1 a xs = foldl f2 a xs.
Proof.
  intros H. revert a. induction xs as [|x xs IH]; intros a; cbn [foldl];
    [reflexivity|]. rewrite H. apply IH.
Qed.

Section SameCore.
Context (g1 g2 : ChessGame).
Hypothesis Hcore : sameCore g1 g2.

Lemma sameCore_getPiece : getPiece g1 = getPiece g2.
Proof. apply getPiece_fun_same_board, Hcore. Qed.

Lemma sameCore_getRawMoves r c piece attackOnly :
  getRawMoves g1 r c piece attackOnly = getRawMoves g2 r c piece attackOnly.
Proof.
  destruct Hcore as (Hb & _ & Hep).
  pose proof (alike_same_board WHITE g1 g2 Hb) as Ha.
  unfold getRawMoves, getRawMovesWith. destruct (type piece).
  - unfold getKingMovesWith, getCastlingMovesWith.
    rewrite (alike_offsetMoves WHITE g1 g2 Ha r c piece piece) by reflexivity.
    rewrite (isInCheck_same_board g1 g2) by exact Hb.
    rewrite !(isSquareAttacked_same_board g1 g2) by exact Hb.
    rewrite sameCore_getPiece. reflexivity.
  - apply (alike_getSlidingMoves WHITE g1 g2 Ha). reflexivity.
  - apply (alike_getSlidingMoves WHITE g1 g2 Ha). reflexivity.
  - apply (alike_getSlidingMoves WHITE g1 g2 Ha). reflexivity.
  - apply (alike_offsetMoves WHITE g1 g2 Ha). reflexivity.
  - unfold getPawnMoves. rewrite sameCore_getPiece, Hep. reflexivity.
Qed.

Lemma sameCore_simulated r c piece move :
  board (simulated r c piece move g1) = board (simulated r c piece move g2).
Proof.
  destruct Hcore as (Hb & _ & _).
  unfold simulated. rewrite !putPiece_place, !getPiece_pieceAt.
  destruct (MoveInfo.enPassant move), (MoveInfo.castling move) as [[]|];
    cbn [board set_board]; rewrite ?putPiece_place; cbn [board set_board];
    rewrite Hb; reflexivity.
Qed.

Lemma sameCore_legalMoves r c : legalMoves g1 r c = legalMoves g2 r c.
Proof.
  unfold legalMoves. rewrite sameCore_getPiece.
  destruct (getPiece g2 r c) as [piece|]; [|reflexivity].
  destruct Hcore as (_ & -> & _).
  case_decide; [reflexivity|].
  rewrite sameCore_getRawMoves. apply list_filter_iff. intros move.
  rewrite (isInCheck_same_board _ _ _ (sameCore_simulated r c piece move)).
  reflexivity.
Qed.

Lemma sameCore_hasLegalMove squares :
  hasLegalMove g1 squares = hasLegalMove g2 squares.
Proof.
  unfold hasLegalMove.
  induction squares as [|[r c] squares IH]; cbn [existsb]; [reflexivity|].
  rewrite IH, sameCore_getPiece, sameCore_legalMoves.
  destruct Hcore as (_ & -> & _). reflexivity.
Qed.

Lemma sameCore_allLegalMoves clr : allLegalMoves g1 clr = allLegalMoves g2 clr.
Proof.
  unfold allLegalMoves. apply foldl_pointwise. intros acc [r c].
  rewrite sameCore_getPiece, sameCore_legalMoves. reflexivity.
Qed.
End SameCore.

Lemma sameCore_checked g : sameCore (checked g) g.
Proof.
  unfold sameCore.
  rewrite board_checked, currentTurn_checked, enPassantTarget_checked. auto.
Qed.

Lemma sameCore_set_validMoves v g : sameCore (set_validMoves v g) g.
Proof. unfold sameCore. auto. Qed.

Lemma sameCore_set_isCheck v g : sameCore (set_isCheck v g) g.
Proof. unfold sameCore. auto. Qed.

(** ** Legal moves and the moves [makeMove] accepts *)

Lemma legalMoves_elem g r c m :
  m ∈ legalMoves g r c <->
  exists piece,
    getPiece g r c = Some piece ∧ color piece = currentTurn g
    ∧ m ∈ getRawMoves g r c piece false
    ∧ isInCheck (simulated r c piece m g) (color piece) = false.
Proof.
  unfold legalMoves. destruct (getPiece g r c) as [piece|] eqn:Hp.
  - case_decide as Hc.
    + rewrite elem_of_nil. split; [tauto|].
      intros (p & Hp' & Hc' & _). congruence.
    + rewrite list_elem_of_filter. split.
      * intros [Hchk Hin]. exists piece. repeat split; try assumption.
      * intros (p & Hp' & _ & Hin & Hchk). injection Hp' as <-. tauto.
  - rewrite elem_of_nil. split; [tauto|]. intros (p & Hp' & _). discriminate.
Qed.

Lemma legalMoves_raw g r c m :
  m ∈ legalMoves g r c ->
  exists piece,
    getPiece g r c = Some piece ∧ color piece = currentTurn g
    ∧ RawMove g r c piece m
    ∧ isInCheck (simulated r c piece m g) (color piece) = false.
Proof.
  intros (piece & Hp & Hc & Hin & Hchk)%legalMoves_elem.
  exists piece. repeat split; try assumption.
  pose proof (getRawMoves_raw g r c piece (getPiece_onBoard _ _ _ _ Hp)) as Hall.
  rewrite Forall_forall in Hall. apply Hall, Hin.
Qed.

Lemma find_landsOn_Some toRow toCol moves m :
  find (landsOn toRow toCol) moves = Some m ->
  m ∈ moves ∧ MoveInfo.row m = toRow ∧ MoveInfo.col m = toCol.
Proof.
  intros H. apply find_some in H as [Hin Hl].
  unfold landsOn in Hl. apply bool_decide_eq_true in Hl.
  split; [apply list_elem_of_In, Hin|exact Hl].
Qed.

Lemma find_landsOn_elem moves m :
  m ∈ moves ->
  exists m', find (landsOn (MoveInfo.row m) (MoveInfo.col m)) moves = Some m'.
Proof.
  intros Hin.
  destruct (find (landsOn (MoveInfo.row m) (MoveInfo.col m)) moves) as [m'|] eqn:Hf;
    [eauto|].
  exfalso. apply list_elem_of_In in Hin.
  pose proof (find_none _ _ Hf m Hin) as Hn.
  unfold landsOn in Hn. rewrite bool_decide_true in Hn by auto. discriminate.
Qed.

Lemma executed_played fromRow fromCol toRow toCol promotionPiece piece moveInfo g :
  executed fromRow fromCol toRow toCol promotionPiece piece moveInfo g
  = b ← executedBoard fromRow fromCol toRow toCol promotionPiece piece
         moveInfo (board g);
    Some (played fromRow fromCol toRow toCol promotionPiece piece moveInfo b g).
Proof. apply executed_normal. Qed.

Lemma executedBoard_Some g fr fc piece m promo :
  RawMove g fr fc piece m ->
  exists b', executedBoard fr fc (MoveInfo.row m) (MoveInfo.col m) promo piece m
               (board g) = Some b'.
Proof.
  intros Hraw. unfold executedBoard.
  destruct Hraw; record_fields; rewrite ?getPiece_pieceAt in *;
    try match goal with
        | H : pieceAt (board g) fr ?k = Some _ |- _ => rewrite H
        end;
    cbn [mbind option_bind]; eexists; reflexivity.
Qed.

Lemma selectPiece_eq row col g :
  selectPiece row col g = Some (tt, selected g row col).
Proof. unfold selectPiece. munfold. rewrite getValidMoves_eq. reflexivity. Qed.

Lemma playMove_eq fr fc tr tc promo g :
  playMove fr fc tr tc promo g = makeMove fr fc tr tc promo (selected g fr fc).
Proof.
  unfold playMove. rewrite (bind_Some _ _ _ _ _ (selectPiece_eq fr fc g)).
  reflexivity.
Qed.

Lemma makeMove_rejects fr fc tr tc promo g :
  getPiece g fr fc = None ∨ find (landsOn tr tc) (validMoves g) = None ->
  makeMove fr fc tr tc promo g = Some (false, g).
Proof.
  intros H. unfold makeMove. munfold.
  destruct (getPiece g fr fc) as [piece|]; [|reflexivity].
  destruct H as [H|H]; [discriminate|]. rewrite H. reflexivity.
Qed.

Lemma playMove_success fr fc tr tc promo g g' :
  playMove fr fc tr tc promo g = Some (true, g') ->
  exists piece m b',
    getPiece g fr fc = Some piece ∧ color piece = currentTurn g
    ∧ find (landsOn tr tc) (legalMoves g fr fc) = Some m
    ∧ MoveInfo.row m = tr ∧ MoveInfo.col m = tc
    ∧ RawMove g fr fc piece m
    ∧ isInCheck (simulated fr fc piece m g) (color piece) = false
    ∧ executedBoard fr fc tr tc promo piece m (board g) = Some b'
    ∧ g' = checked (played fr fc tr tc promo piece m b' (selected g fr fc)).
Proof.
  rewrite playMove_eq. intros H.
  destruct (getPiece g fr fc) as [piece|] eqn:Hp.
  2:{ rewrite makeMove_rejects in H by (left; exact Hp). discriminate. }
  destruct (find (landsOn tr tc) (legalMoves g fr fc)) as [m|] eqn:Hf.
  2:{ rewrite makeMove_rejects in H by (right; exact Hf). discriminate. }
  rewrite (makeMove_eq _ _ _ _ _ _ piece m) in H by assumption.
  rewrite executed_played in H. cbn [board selected set_validMoves] in H.
  destruct (executedBoard fr fc tr tc promo piece m (board g)) as [b'|] eqn:Hb;
    [|discriminate].
  cbn [mbind option_bind] in H. injection H as <-.
  destruct (find_landsOn_Some _ _ _ _ Hf) as (Hin & Hr & Hc).
  destruct (legalMoves_raw _ _ _ _ Hin) as (p & Hp' & Hcol & Hraw & Hchk).
  rewrite Hp in Hp'. injection Hp' as <-.
  exists piece, m, b'. repeat split; assumption || reflexivity.
Qed.

Lemma playMove_legal fr fc promo g m :
  m ∈ legalMoves g fr fc ->
  exists g', playMove fr fc (MoveInfo.row m) (MoveInfo.col m) promo g
             = Some (true, g').
Proof.
  intros Hin. rewrite playMove_eq.
  destruct (find_landsOn_elem _ _ Hin) as [m' Hf].
  destruct (find_landsOn_Some _ _ _ _ Hf) as (Hin' & Hr & Hc).
  destruct (legalMoves_raw _ _ _ _ Hin') as (piece & Hp & Hcol & Hraw & Hchk).
  rewrite (makeMove_eq _ _ _ _ _ _ piece m') by assumption.
  rewrite executed_played. cbn [board selected set_validMoves].
  destruct (executedBoard_Some g fr fc piece m' promo Hraw) as [b' Hb].
  rewrite Hr, Hc in Hb. rewrite Hb. cbn [mbind option_bind]. eauto.
Qed.

(** ** The board after a move *)

Lemma symbolOk_withHasMoved v p : symbolOk p -> symbolOk (withHasMoved v p).
Proof. unfold symbolOk. destruct p; cbn. auto. Qed.

Lemma symbolOk_createPiece t c : symbolOk (createPiece t c).
Proof. reflexivity. Qed.

Lemma pawnDirection_cases piece :
  (color piece = WHITE ∧ pawnDirection piece = -1
   ∧ pawnStartRow piece = 6 ∧ pawnPromotionRow piece = 0
   ∧ forall r, capturedRowOf piece r = r + 1)
  ∨ (color piece = BLACK ∧ pawnDirection piece = 1
     ∧ pawnStartRow piece = 1 ∧ pawnPromotionRow piece = 7
     ∧ forall r, capturedRowOf piece r = r - 1).
Proof.
  unfold pawnDirection, pawnStartRow, pawnPromotionRow, capturedRowOf.
  destruct (color piece); [left|right]; repeat split.
Qed.

Lemma RawMove_dest g fr fc piece m :
  getPiece g fr fc = Some piece ->
  RawMove g fr fc piece m ->
  onBoard (MoveInfo.row m) (MoveInfo.col m)
  ∧ ¬ (MoveInfo.row m = fr ∧ MoveInfo.col m = fc).
Proof.
  intros Hp Hraw. pose proof (getPiece_onBoard _ _ _ _ Hp) as Hfrom.
  destruct (pawnDirection_cases piece) as [(_ & Hd & Hs & _)|(_ & Hd & Hs & _)];
  destruct Hraw; record_fields; rewrite ?Hd, ?Hs in *;
    (split;
     [ first [ assumption | unfold onBoard in *; lia ]
     | intros [Hr Hc];
       first [ lia
             | subst; congruence
             | subst; rewrite Hp in *; cbn in *;
               rewrite bool_decide_false in * by auto; discriminate ] ]).
Qed.

Tactic Notation "record_fields" "in" hyp(H) :=
  cbn [MoveInfo.row MoveInfo.col MoveInfo.enPassant MoveInfo.castling
       MoveInfo.promotion MoveInfo.twoStep MoveRecord.from MoveRecord.to
       MoveRecord.captured MoveRecord.castling MoveRecord.enPassant fst snd] in H.

Ltac changed_cell Hsym :=
  let Hcell := fresh "Hcell" in
  rewrite ?pieceAt_place by solve_wfb;
  repeat case_decide; intros Hcell;
  first [ left; exact Hcell
        | discriminate
        | right; injection Hcell as <-; split; [reflexivity|];
          first [ apply symbolOk_withHasMoved; eapply Hsym; eassumption
                | reflexivity ] ].

Lemma executedBoard_facts g fr fc piece m promo :
  wfBoard (board g) ->
  getPiece g fr fc = Some piece ->
  RawMove g fr fc piece m ->
  (forall r c q, getPiece g r c = Some q -> symbolOk q) ->
  exists b',
    executedBoard fr fc (MoveInfo.row m) (MoveInfo.col m) promo piece m (board g)
      = Some b'
    ∧ wfBoard b'
    ∧ (forall r c p, pieceAt b' r c = Some p ->
         getPiece g r c = Some p ∨ (hasMoved p = true ∧ symbolOk p))
    ∧ pieceAt b' fr fc = None
    ∧ pieceAt b' (MoveInfo.row m) (MoveInfo.col m) = Some (landed promo piece m)
    ∧ (MoveInfo.castling m = None ->
       forall r c, getPiece g r c = None ->
         ¬ (r = MoveInfo.row m ∧ c = MoveInfo.col m) -> pieceAt b' r c = None).
Proof.
  intros Hwf Hp Hraw Hsym.
  pose proof (getPiece_onBoard _ _ _ _ Hp) as Hfrom.
  destruct (RawMove_dest _ _ _ _ _ Hp Hraw) as [Hto Hne].
  setoid_rewrite getPiece_pieceAt in Hsym.
  setoid_rewrite getPiece_pieceAt.
  rewrite getPiece_pieceAt in Hp.
  unfold landed.
  destruct Hraw as [tr tc cap Hty Hon He
                   | Hty Hon H1
                   | Hty Hst H1 H2
                   | dc Hty Hdc Hon He
                   | dc Hty Hdc Hon Het
                   | rook Hty Hnm Hnc Hrook Hrt Hrm H5 H6 Ha5 Ha6
                   | rook Hty Hnm Hnc Hrook Hrt Hrm H1 H2 H3 Ha2 Ha3 ];
    rewrite ?getPiece_pieceAt in *;
    unfold executedBoard; record_fields; record_fields in Hto; record_fields in Hne;
    rewrite ?Hrook; cbn [mbind option_bind];
    (eexists; split; [reflexivity|]);
    (split; [split_promo promo; solve_wfb|]);
    (split; [intros r c p; split_promo promo; changed_cell Hsym|]);
    (split; [split_promo promo; solve_cells|]);
    (split; [split_promo promo; solve_cells|]);
    (intros Hcastle r c Hnone Hnot; try discriminate;
     split_promo promo; solve_cells).
Qed.

(** ** Reachable states and their invariant *)

Lemma allSquares_elem r c : (r, c) ∈ allSquares <-> onBoard r c.
Proof.
  unfold allSquares, onBoard. rewrite list_elem_of_bind. split.
  - intros (row & Hin & Hrow). apply list_elem_of_bind in Hin.
    destruct Hin as (col & Hin & Hcol).
    apply list_elem_of_singleton in Hin. injection Hin as -> ->.
    apply elem_of_seqZ in Hrow, Hcol. lia.
  - intros H. exists r. split; [|apply elem_of_seqZ; lia].
    apply list_elem_of_bind. exists c. split; [|apply elem_of_seqZ; lia].
    apply list_elem_of_singleton. reflexivity.
Qed.

Lemma allPieces_spec P g r c p :
  allPieces P g = true -> getPiece g r c = Some p -> P r c p = true.
Proof.
  unfold allPieces. rewrite forallb_forall. intros Hall Hp.
  specialize (Hall (r, c)). cbn in Hall. rewrite Hp in Hall. apply Hall.
  apply list_elem_of_In, allSquares_elem. eapply getPiece_onBoard, Hp.
Qed.

Lemma hasLegalMove_intro g r c piece m :
  getPiece g r c = Some piece -> color piece = currentTurn g ->
  m ∈ legalMoves g r c ->
  hasLegalMove g allSquares = true.
Proof.
  intros Hp Hc Hm. unfold hasLegalMove. apply existsb_exists.
  exists (r, c). split.
  - apply list_elem_of_In, allSquares_elem. eapply getPiece_onBoard, Hp.
  - rewrite Hp. rewrite bool_decide_true by exact Hc.
    rewrite bool_decide_true; [reflexivity|].
    destruct (legalMoves g r c); [inversion Hm|cbn; lia].
Qed.

Lemma Inv_reset : Inv reset.
Proof.
  split.
  - apply wfBoard_initial.
  - intros r c p Hp.
    pose proof (allPieces_spec (fun _ _ p => bool_decide (symbolOk p))
                  reset r c p eq_refl Hp) as H.
    apply bool_decide_eq_true in H. exact H.
  - discriminate.
  - vm_compute. reflexivity.
  - intros _. split; reflexivity.
  - reflexivity.
  - auto.
  - intros move r c p Hin. inversion Hin.
Qed.

Lemma checked_check x :
  isCheck (checked x) = isInCheck (checked x) (currentTurn (checked x)).
Proof.
  rewrite isCheck_checked, currentTurn_checked.
  apply isInCheck_same_board. symmetry. apply board_checked.
Qed.

Lemma checked_over x :
  hasLegalMove (checked x) allSquares = true ->
  gameOver (checked x) = gameOver x ∧ winner (checked x) = winner x.
Proof.
  rewrite (sameCore_hasLegalMove _ _ (sameCore_checked x)).
  rewrite <- (sameCore_hasLegalMove _ _
               (sameCore_set_isCheck (isInCheck x (currentTurn x)) x)).
  unfold checked. intros ->. split; reflexivity.
Qed.

Lemma checked_no_move x :
  hasLegalMove x allSquares = false ->
  gameOver (checked x) = true
  ∧ winner (checked x)
    = Some (if isInCheck x (currentTurn x) then Won (opponent (currentTurn x))
            else draw).
Proof.
  rewrite <- (sameCore_hasLegalMove _ _
               (sameCore_set_isCheck (isInCheck x (currentTurn x)) x)).
  unfold checked. intros ->. cbn.
  destruct (isInCheck x (currentTurn x)); split; reflexivity.
Qed.

Lemma played_fields fr fc tr tc promo piece m b' g :
  let g' := checked (played fr fc tr tc promo piece m b' g) in
  board g' = b'
  ∧ currentTurn g' = opponent (currentTurn g)
  ∧ enPassantTarget g' =
      (if MoveInfo.twoStep m then Some (capturedRowOf piece tr, tc) else None)
  ∧ moveHistory g' = moveHistory g ++ [recordOf fr fc tr tc promo piece m g]
  ∧ lastMove g' = Some ((fr, fc), (tr, tc))
  ∧ (forall r c, getPiece g' r c = pieceAt b' r c)
  ∧ isCheck g' = isInCheck g' (currentTurn g')
  ∧ (hasLegalMove g' allSquares = true ->
     gameOver g' = gameOver g ∧ winner g' = winner g).
Proof.
  cbn zeta. rewrite board_checked, currentTurn_checked, enPassantTarget_checked,
    moveHistory_checked, lastMove_checked.
  repeat split.
  - intros r c. rewrite getPiece_checked. reflexivity.
  - rewrite <- currentTurn_checked. apply checked_check.
  - apply checked_over in H. apply H.
  - apply checked_over in H. apply H.
Qed.

Lemma opponent_involutive c : opponent (opponent c) = c.
Proof. destruct c; reflexivity. Qed.

Lemma Inv_playMove fr fc tr tc promo g g' :
  Inv g -> playMove fr fc tr tc promo g = Some (true, g') -> Inv g'.
Proof.
  intros HI Hplay.
  destruct (playMove_success _ _ _ _ _ _ _ Hplay)
    as (piece & m & b' & Hp & Hcol & Hfind & Hr & Hc & Hraw & Hchk & Hb & ->).
  subst tr tc.
  destruct (find_landsOn_Some _ _ _ _ Hfind) as (Hin & _ & _).
  destruct (executedBoard_facts g fr fc piece m promo (inv_wf _ HI) Hp Hraw
              (inv_symbols _ HI))
    as (b'' & Hb'' & Hwf' & Hcells & Hfromcell & Htocell & Hempties).
  rewrite Hb in Hb''. injection Hb'' as <-.
  destruct (played_fields fr fc (MoveInfo.row m) (MoveInfo.col m) promo piece m
              b' (selected g fr fc))
    as (Fb & Ft & Fep & Fh & Fl & Fget & Fchk & Fover).
  cbn [selected currentTurn moveHistory set_validMoves] in Ft, Fh.
  set (g' := checked _) in *. clearbody g'.
  assert (recordOf fr fc (MoveInfo.row m) (MoveInfo.col m) promo piece m
            (selected g fr fc)
          = recordOf fr fc (MoveInfo.row m) (MoveInfo.col m) promo piece m g)
    as Hrec by reflexivity.
  rewrite Hrec in Fh. clear Hrec.
  split.
  - rewrite Fb. exact Hwf'.
  - intros r c p. rewrite Fget. intros Hcell.
    destruct (Hcells _ _ _ Hcell) as [Hold|[_ Hs]]; [|exact Hs].
    eapply (inv_symbols _ HI), Hold.
  - intros er ec. rewrite Fep. intros Hep.
    destruct (MoveInfo.twoStep m) eqn:Htwo; [|discriminate].
    injection Hep as <- <-.
    unfold epJustified. rewrite !Fget, Fh, Ft, last_snoc.
    clear Hplay Hfind Hchk Hin Hcells.
    destruct Hraw; try discriminate.
    record_fields in Hempties. record_fields in Htocell. record_fields.
    unfold recordOf; cbn [MoveRecord.piece MoveRecord.from MoveRecord.to].
    rewrite spread_id, opponent_involutive.
    unfold landed in Htocell. cbn [MoveInfo.promotion] in Htocell.
    assert (pieceAt b' (fr + 2 * pawnDirection piece) fc
            = Some (withHasMoved true piece)) as Hto
      by (destruct promo; exact Htocell).
    clear Htocell.
    destruct (pawnDirection_cases piece) as [(Hcw & Hd & Hs & Hpr & Hcr)|(Hcw & Hd & Hs & Hpr & Hcr)];
      rewrite Hcr, Hd in *;
      (split; [apply Hempties; [reflexivity| |intros [? _]; lia]|];
       [ match goal with
         | H : getPiece g (fr + ?d) fc = None |- getPiece g ?x fc = None =>
             replace x with (fr + d) by lia; exact H
         end
       | eexists; split; [reflexivity|];
         cbn [MoveRecord.piece MoveRecord.from MoveRecord.to];
         rewrite Hd; repeat split; try assumption; try (f_equal; lia);
         rewrite Fget;
         match goal with
         | Hto : pieceAt b' ?y fc = _ |- pieceAt b' ?x fc = _ =>
             replace x with y by lia; exact Hto
         end ]).
  - exact Fchk.
  - intros Hl. destruct (Fover Hl) as [-> ->].
    cbn [selected gameOver winner set_validMoves].
    apply (inv_over _ HI). eapply hasLegalMove_intro; eassumption.
  - rewrite Fl, Fh. unfold lastOf. rewrite last_snoc. reflexivity.
  - intros r c p. rewrite Fget. intros Hcell Hnm.
    destruct (Hcells _ _ _ Hcell) as [Hold|[Hm _]]; [|congruence].
    eapply (inv_unmoved _ HI); eassumption.
  - intros move r c p. rewrite Fh, Fget. intros Hmove Hsq Hcell.
    destruct (Hcells _ _ _ Hcell) as [Hold|[Hm _]]; [|exact Hm].
    apply elem_of_app in Hmove as [Hmove|Hmove].
    + eapply (inv_touched _ HI); eassumption.
    + apply list_elem_of_singleton in Hmove. subst move.
      cbn [recordOf MoveRecord.from MoveRecord.to] in Hsq.
      destruct Hsq as [Hsq|Hsq]; injection Hsq as -> ->.
      * congruence.
      * rewrite Htocell in Hcell. injection Hcell as <-.
        unfold landed. destruct promo; [destruct (MoveInfo.promotion m)|];
          reflexivity.
Qed.

Lemma reachableByMoves_Inv g : reachableByMoves g -> Inv g.
Proof.
  induction 1 as [|g fr fc tr tc promo g' _ IH Hplay]; [apply Inv_reset|].
  eapply Inv_playMove; eassumption.
Qed.

Lemma Inv_set_validMoves v g : Inv g -> Inv (set_validMoves v g).
Proof.
  intros [Hwf Hsym Hep Hchk Hover Hlast Hunm Htou].
  split.
  - exact Hwf.
  - exact Hsym.
  - exact Hep.
  - cbn [isCheck currentTurn set_validMoves]. rewrite Hchk.
    apply isInCheck_same_board. reflexivity.
  - intros Hl. apply Hover.
    rewrite <- (sameCore_hasLegalMove _ _ (sameCore_set_validMoves v g)).
    exact Hl.
  - exact Hlast.
  - exact Hunm.
  - exact Htou.
Qed.

(** ** Undoing a move restores the state *)

Lemma set_capturedBy_pop clr cp captured :
  set_capturedBy clr
    (removelast (capturedBy clr
       (set_capturedBy clr (capturedBy clr captured ++ [cp]) captured)))
    (set_capturedBy clr (capturedBy clr captured ++ [cp]) captured)
  = captured.
Proof.
  destruct clr, captured; cbn; rewrite removelast_last; reflexivity.
Qed.

Lemma playMove_undoMove fr fc tr tc promo g g' v :
  Inv g ->
  playMove fr fc tr tc promo g = Some (true, g') ->
  undoMove (set_validMoves v g') = Some (true, set_validMoves v g).
Proof.
  intros HI Hplay.
  destruct (playMove_success _ _ _ _ _ _ _ Hplay)
    as (piece & m & b' & Hp & Hcol & Hfind & Hr & Hc & Hraw & Hchk & Hb & ->).
  subst tr tc.
  destruct (find_landsOn_Some _ _ _ _ Hfind) as (Hin & _ & _).
  destruct (roundtrip_board g fr fc piece m promo (inv_wf _ HI) Hp Hraw
              (inv_symbols _ HI _ _ _ Hp))
    as (b'' & Hb'' & Hwf' & Hback).
  { intros er ec Hep. apply (inv_ep _ HI _ _ Hep). }
  rewrite Hb in Hb''. injection Hb'' as <-.
  set (rec := recordOf fr fc (MoveInfo.row m) (MoveInfo.col m) promo piece m g)
    in *.
  set (gp := played fr fc (MoveInfo.row m) (MoveInfo.col m) promo piece m b'
               (selected g fr fc)).
  assert (moveHistory (set_validMoves v (checked gp)) = moveHistory g ++ [rec])
    as Hhist.
  { cbn [moveHistory set_validMoves]. rewrite moveHistory_checked. reflexivity. }
  rewrite (undoMove_eq _ rec) by (rewrite Hhist; apply last_snoc).
  rewrite reverted_normal.
  cbn [board set_moveHistory set_validMoves]. rewrite board_checked.
  cbn [board gp played]. rewrite Hback. cbn [mbind option_bind].
  assert (restoredPiece rec = piece) as Hrest.
  { apply restoredPiece_recordOf. intros Hpr.
    split; [|exact (inv_symbols _ HI _ _ _ Hp)].
    clear -Hraw Hpr. destruct Hraw; cbn in Hpr; try discriminate; assumption. }
  f_equal. f_equal. apply game_eq;
    cbn [board currentTurn selectedPiece validMoves moveHistory capturedPieces
         enPassantTarget gameOver winner isCheck lastMove set_validMoves
         set_moveHistory set_board];
    rewrite ?currentTurn_checked, ?selectedPiece_checked, ?moveHistory_checked,
      ?capturedPieces_checked;
    cbn [currentTurn selectedPiece moveHistory capturedPieces gp played selected
         set_validMoves].
  - reflexivity.
  - apply opponent_involutive.
  - reflexivity.
  - reflexivity.
  - apply removelast_last.
  - rewrite Hrest. subst rec. unfold recordOf. cbn [MoveRecord.captured].
    change (board (selected g fr fc)) with (board g).
    destruct (capturedOf _ _ piece m (board g)) as [cp|];
      cbn [fmap option_fmap option_map]; [|reflexivity].
    apply set_capturedBy_pop.
  - reflexivity.
  - symmetry. apply (inv_over _ HI). eapply hasLegalMove_intro; eassumption.
  - symmetry. apply (inv_over _ HI). eapply hasLegalMove_intro; eassumption.
  - rewrite opponent_involutive, (inv_check _ HI).
    apply isInCheck_same_board. reflexivity.
  - rewrite removelast_last. rewrite (inv_last _ HI). reflexivity.
Qed.

Lemma playMove_set_validMoves fr fc tr tc promo v g :
  playMove fr fc tr tc promo (set_validMoves v g) = playMove fr fc tr tc promo g.
Proof.
  rewrite !playMove_eq.
  assert (selected (set_validMoves v g) fr fc = selected g fr fc) as ->;
    [|reflexivity].
  unfold selected.
  rewrite (sameCore_legalMoves _ _ (sameCore_set_validMoves v g)). reflexivity.
Qed.

Lemma undoMove_success_history g g' :
  undoMove g = Some (true, g') -> moveHistory g <> [].
Proof. intros H He. rewrite (undoMove_empty _ He) in H. discriminate. Qed.

Lemma reachable_byMoves g :
  reachable g ->
  exists g0, reachableByMoves g0 ∧ g = set_validMoves (validMoves g) g0.
Proof.
  induction 1 as [ | g row col g' _ (g0 & H0 & Hg) Hselect
                 | g _ (g0 & H0 & Hg)
                 | g fr fc tr tc promo g' _ (g0 & H0 & Hg) Hplay
                 | g g' _ (g0 & H0 & Hg) Hundo ].
  - exists reset. split; [constructor|reflexivity].
  - rewrite selectPiece_eq in Hselect. injection Hselect as <-.
    exists g0. split; [exact H0|]. unfold selected.
    rewrite Hg at 2. reflexivity.
  - exists g0. split; [exact H0|]. rewrite Hg at 1. reflexivity.
  - exists g'. split.
    + rewrite Hg, playMove_set_validMoves in Hplay.
      econstructor; eassumption.
    + destruct g'; reflexivity.
  - rewrite Hg in Hundo. destruct H0 as [|g00 fr fc tr tc promo g0 H00 Hplay].
    + apply undoMove_success_history in Hundo. exfalso. apply Hundo. reflexivity.
    + rewrite (playMove_undoMove _ _ _ _ _ _ _ _ (reachableByMoves_Inv _ H00) Hplay)
        in Hundo.
      injection Hundo as <-. exists g00. split; [exact H00|reflexivity].
Qed.

Lemma reachable_Inv g : reachable g -> Inv g.
Proof.
  intros (g0 & H0 & ->)%reachable_byMoves.
  apply Inv_set_validMoves, reachableByMoves_Inv, H0.
Qed.

(** ** Terminal detection *)

Lemma allLegalMoves_nil g :
  allLegalMoves g (currentTurn g) = [] <-> hasLegalMove g allSquares = false.
Proof.
  unfold allLegalMoves, hasLegalMove.
  assert (forall squares acc,
    foldl (fun allMoves '(row, col) =>
      match getPiece g row col with
      | Some piece =>
          if decide (color piece = currentTurn g) then
            allMoves ++
              ((fun move => Candidate.mk (row, col) move piece)
                 <$> legalMoves g row col)
          else allMoves
      | None => allMoves
      end) acc squares = []
    <-> acc = [] ∧
        existsb (fun '(row, col) =>
          match getPiece g row col with
          | Some piece =>
              bool_decide (color piece = currentTurn g)
              && bool_decide (0 < length (legalMoves g row col))%nat
          | None => false
          end) squares = false) as H.
  { induction squares as [|[r c] squares IH]; intros acc; cbn [foldl existsb].
    - tauto.
    - rewrite IH. rewrite orb_false_iff.
      destruct (getPiece g r c) as [piece|]; [|tauto].
      destruct (decide (color piece = currentTurn g)) as [Hc|Hc].
      + rewrite bool_decide_true by exact Hc. cbn [andb].
        destruct (legalMoves g r c) as [|m ms].
        * cbn. rewrite app_nil_r. rewrite bool_decide_false by lia. tauto.
        * cbn [fmap list_fmap length]. rewrite bool_decide_true by lia.
          split; [intros [H _]|intros [_ [? _]]; discriminate].
          apply app_eq_nil in H as [_ H]. discriminate.
      + rewrite bool_decide_false by exact Hc. cbn [andb]. tauto. }
  rewrite H. tauto.
Qed.

Lemma makeMove_success fr fc tr tc promo g g' :
  makeMove fr fc tr tc promo g = Some (true, g') ->
  exists piece m b',
    getPiece g fr fc = Some piece
    ∧ find (landsOn tr tc) (validMoves g) = Some m
    ∧ executedBoard fr fc tr tc promo piece m (board g) = Some b'
    ∧ g' = checked (played fr fc tr tc promo piece m b' g).
Proof.
  intros H.
  destruct (getPiece g fr fc) as [piece|] eqn:Hp.
  2:{ rewrite makeMove_rejects in H by (left; exact Hp). discriminate. }
  destruct (find (landsOn tr tc) (validMoves g)) as [m|] eqn:Hf.
  2:{ rewrite makeMove_rejects in H by (right; exact Hf). discriminate. }
  rewrite (makeMove_eq _ _ _ _ _ _ piece m) in H by assumption.
  rewrite executed_played in H.
  destruct (executedBoard fr fc tr tc promo piece m (board g)) as [b'|] eqn:Hb;
    [|discriminate].
  cbn [mbind option_bind] in H. injection H as <-.
  exists piece, m, b'. repeat split; assumption || reflexivity.
Qed.

(** C5: after every completed move the engine recomputes [isCheck] for
    the side now to move and enumerates its legal moves; when there are
    none the game is over, won by the other side if the side to move is
    in check and drawn otherwise, and when there are some the terminal
    status is left as it was.  After 1. f3 e5 2. g4 Qh4# the game is
    over, black has won and white, to move, is in check. *)
Theorem checkGameState_after_move :
  (forall g fromRow fromCol toRow toCol promotionPiece g',
     makeMove fromRow fromCol toRow toCol promotionPiece g = Some (true, g') ->
     currentTurn g' = opponent (currentTurn g)
     ∧ isCheck g' = isInCheck g' (currentTurn g')
     ∧ exists moves,
         run (getAllValidMoves (currentTurn g')) g' = Some moves
         ∧ (moves = [] ->
            gameOver g' = true
            ∧ winner g' = Some (if isCheck g'
                                then Won (opponent (currentTurn g'))
                                else draw))
         ∧ (moves <> [] -> gameOver g' = gameOver g ∧ winner g' = winner g))
  ∧ exists g,
      playAll foolsMate reset = Some g
      ∧ gameOver g = true ∧ winner g = Some (Won BLACK)
      ∧ isCheck g = true ∧ currentTurn g = WHITE.
Proof.
  split.
  - intros g fr fc tr tc promo g' Hmove.
    destruct (makeMove_success _ _ _ _ _ _ _ Hmove)
      as (piece & m & b' & Hp & Hf & Hb & ->).
    set (gp := played fr fc tr tc promo piece m b' g).
    split; [rewrite currentTurn_checked; reflexivity|].
    split; [apply checked_check|].
    unfold run. rewrite getAllValidMoves_eq. cbn [fmap option_fmap option_map fst].
    eexists. split; [reflexivity|].
    rewrite (sameCore_allLegalMoves _ _ (sameCore_checked gp)).
    rewrite currentTurn_checked.
    split.
    + intros Hnil. apply allLegalMoves_nil in Hnil.
      rewrite isCheck_checked. apply (checked_no_move _ Hnil).
    + intros Hne.
      destruct (hasLegalMove gp allSquares) eqn:Hl.
      * destruct (checked_over gp) as [-> ->]; [|split; reflexivity].
        rewrite (sameCore_hasLegalMove _ _ (sameCore_checked gp)). exact Hl.
      * apply allLegalMoves_nil in Hl. contradiction.
  - eexists. split; [vm_compute; reflexivity|]. repeat split.
Qed.

Lemma checkGameState_after_move_witness :
  exists g',
    makeMove 6 5 5 5 None (selected reset 6 5) = Some (true, g')
    ∧ currentTurn g' = BLACK
    ∧ isCheck g' = isInCheck g' (currentTurn g').
Proof.
  eexists. split; [vm_compute; reflexivity|].
  match goal with
  | |- currentTurn ?g' = _ ∧ _ =>
      destruct (proj1 checkGameState_after_move (selected reset 6 5)
                  6 5 5 5 None g') as (Ht & Hc & _);
        [vm_compute; reflexivity|]
  end.
  split; [exact Ht|exact Hc].
Defined.

(** ** The initial position *)

(** C4: in the standard initial position, with white to move,
    [getAllValidMoves(white)] returns exactly 20 moves, 16 of pawns and 4
    of knights, and [getValidMoves(6, 4)] returns exactly the one-square
    and the two-square advance of the e-pawn. *)
Theorem initial_position_has_twenty_moves :
  currentTurn reset = WHITE
  ∧ (exists moves,
       run (getAllValidMoves WHITE) reset = Some moves
       ∧ length moves = 20%nat
       ∧ length (filter (fun mv => type (Candidate.piece mv) = PAWN) moves)
         = 16%nat
       ∧ length (filter (fun mv => type (Candidate.piece mv) = KNIGHT) moves)
         = 4%nat)
  ∧ run (getValidMoves 6 4) reset
    = Some [ MoveInfo.mk 5 4 false false false false None;
             MoveInfo.mk 4 4 false false true false None ].
Proof.
  split; [reflexivity|]. split.
  - eexists. split; [vm_compute; reflexivity|]. repeat split.
  - vm_compute. reflexivity.
Qed.

(** ** Rejected moves *)

(** C1, as stated, fails: [makeMove] looks the destination up in the
    stored [validMoves], whatever square they were computed for.  After
    the e-pawn has been selected, [makeMove(6, 3, 4, 4)] moves the d-pawn
    to e4, although (4, 4) is not a legal destination of the d-pawn. *)
Lemma makeMove_accepts_stale_selection :
  exists g,
    exec (selectPiece 6 4) reset = Some g
    ∧ run (getValidMoves 6 3) g
      = Some [ MoveInfo.mk 5 3 false false false false None;
               MoveInfo.mk 4 3 false false true false None ]
    ∧ find (landsOn 4 4)
        [ MoveInfo.mk 5 3 false false false false None;
          MoveInfo.mk 4 3 false false true false None ] = None
    ∧ exists g',
        makeMove 6 3 4 4 None g = Some (true, g')
        ∧ getPiece g' 6 3 = None
        ∧ getPiece g' 4 4 = Some (withHasMoved true (createPiece PAWN WHITE))
        ∧ currentTurn g' = BLACK
        ∧ g' <> g.
Proof.
  eexists. split; [vm_compute; reflexivity|].
  split; [vm_compute; reflexivity|]. split; [reflexivity|].
  eexists. split; [vm_compute; reflexivity|].
  repeat split. intros H. discriminate H.
Qed.

(** C1, amended: [makeMove] returns [false] and leaves the whole state
    unchanged when no piece stands on the from-square or no move of the
    stored [validMoves] lands on the destination; when [validMoves] holds
    the legal moves of the from-square in the current state, as
    [selectPiece] leaves them, these are the pairs absent from the
    legal-move set of that square. *)
Theorem makeMove_rejects_unlisted_move :
  (forall g fromRow fromCol toRow toCol promotionPiece,
     getPiece g fromRow fromCol = None
     ∨ find (landsOn toRow toCol) (validMoves g) = None ->
     makeMove fromRow fromCol toRow toCol promotionPiece g = Some (false, g))
  ∧ (forall g fromRow fromCol toRow toCol promotionPiece moves,
       run (getValidMoves fromRow fromCol) g = Some moves ->
       validMoves g = moves ->
       getPiece g fromRow fromCol = None
       ∨ find (landsOn toRow toCol) moves = None ->
       makeMove fromRow fromCol toRow toCol promotionPiece g = Some (false, g)).
Proof.
  split.
  - intros. apply makeMove_rejects. assumption.
  - intros g fr fc tr tc promo moves _ Hv H. apply makeMove_rejects.
    rewrite Hv. exact H.
Qed.

Lemma makeMove_rejects_unlisted_move_witness :
  makeMove 6 4 3 4 None (selected reset 6 4)
  = Some (false, selected reset 6 4).
Proof.
  apply (proj2 makeMove_rejects_unlisted_move (selected reset 6 4) 6 4 3 4 None
           [ MoveInfo.mk 5 4 false false false false None;
             MoveInfo.mk 4 4 false false true false None ]).
  - vm_compute. reflexivity.
  - vm_compute. reflexivity.
  - right. reflexivity.
Defined.

(** ** The round trip *)

(** C2: in every reachable state whose [validMoves] are the legal moves
    of the from-square, [makeMove] for any of these moves, with any
    promotion choice, followed by [undoMove], gives back the state it
    started from: board, side to move, en-passant target, [isCheck],
    [gameOver], [winner], history, captured pieces and last move; and
    [undoMove] returns [false] and changes nothing when the history is
    empty. *)
Theorem makeMove_undoMove_roundtrip :
  (forall g fromRow fromCol move promotionPiece,
     reachable g ->
     run (getValidMoves fromRow fromCol) g = Some (validMoves g) ->
     move ∈ validMoves g ->
     exists g',
       makeMove fromRow fromCol (MoveInfo.row move) (MoveInfo.col move)
                promotionPiece g = Some (true, g')
       ∧ undoMove g' = Some (true, g))
  ∧ (forall g, moveHistory g = [] -> undoMove g = Some (false, g)).
Proof.
  split; [|apply undoMove_empty].
  intros g fr fc m promo Hreach Hsel Hin.
  unfold run in Hsel. rewrite getValidMoves_eq in Hsel.
  cbn [fmap option_fmap option_map fst] in Hsel. injection Hsel as Hsel.
  assert (selected g fr fc = g) as Hg.
  { unfold selected. rewrite Hsel. destruct g; reflexivity. }
  rewrite <- Hsel in Hin.
  destruct (playMove_legal fr fc promo g m Hin) as [g' Hplay].
  exists g'. split.
  - rewrite playMove_eq, Hg in Hplay. exact Hplay.
  - pose proof (playMove_undoMove _ _ _ _ _ _ _ (validMoves g)
                  (reachable_Inv _ Hreach) Hplay) as Hundo.
    assert (set_validMoves (validMoves g) g' = g') as Hv'.
    { destruct (playMove_success _ _ _ _ _ _ _ Hplay)
        as (piece & m' & b' & _ & _ & _ & _ & _ & _ & _ & _ & ->).
      apply game_eq; try reflexivity.
      cbn [validMoves set_validMoves]. rewrite validMoves_checked.
      cbn [validMoves played selected set_validMoves]. symmetry. exact Hsel. }
    rewrite Hv' in Hundo. rewrite Hundo. f_equal. f_equal.
    destruct g; reflexivity.
Qed.

Lemma makeMove_undoMove_roundtrip_witness :
  exists g',
    makeMove 6 4 4 4 None (selected reset 6 4) = Some (true, g')
    ∧ undoMove g' = Some (true, selected reset 6 4).
Proof.
  apply (proj1 makeMove_undoMove_roundtrip (selected reset 6 4) 6 4
           (MoveInfo.mk 4 4 false false true false None) None).
  - eapply reachable_select; [apply reachable_reset|apply selectPiece_eq].
  - vm_compute. reflexivity.
  - vm_compute. apply list_elem_of_further, list_elem_of_here.
Defined.

(** ** En passant *)

Lemma run_getValidMoves g r c moves :
  run (getValidMoves r c) g = Some moves <-> moves = legalMoves g r c.
Proof.
  unfold run. rewrite getValidMoves_eq. cbn. split; congruence.
Qed.

Lemma pawnDirection_opponent p q :
  color p = opponent (color q) -> pawnDirection p = - pawnDirection q.
Proof.
  unfold pawnDirection. intros H. destruct (color q); rewrite H; reflexivity.
Qed.

(** Two pseudo-legal moves of a pawn to the same square carry the
    same flags, when the en-passant target is an empty square. *)
Lemma RawMove_pawn_same_dest g fr fc piece m m' :
  (forall er ec, enPassantTarget g = Some (er, ec) -> getPiece g er ec = None) ->
  type piece = PAWN ->
  RawMove g fr fc piece m -> RawMove g fr fc piece m' ->
  MoveInfo.row m' = MoveInfo.row m -> MoveInfo.col m' = MoveInfo.col m ->
  m' = m.
Proof.
  intros Hep Hty Hm Hm'.
  destruct (pawnDirection_cases piece) as [(_ & Hd & _)|(_ & Hd & _)];
    destruct Hm; try congruence;
    destruct Hm'; try congruence; record_fields; rewrite ?Hd in *;
    intros Hr Hc; try lia;
    try (f_equal; lia);
    repeat match goal with
           | H : enPassantTarget g = Some _ |- _ => apply Hep in H
           end;
    try match goal with
        | H : _ = -1 ∨ _ = 1, H' : _ = -1 ∨ _ = 1 |- _ =>
            assert (dc0 = dc) as -> by lia
        end;
    try reflexivity;
    try match goal with
        | H : getPiece g ?r ?c = None, H' : isEnemy (getPiece g ?r ?c) _ = true |- _ =>
            rewrite H in H'; discriminate
        end.
Qed.

Lemma playMove_enPassantTarget fr fc tr tc promo g g' piece :
  playMove fr fc tr tc promo g = Some (true, g') ->
  getPiece g fr fc = Some piece ->
  enPassantTarget g' =
    if decide (type piece = PAWN ∧ tr = fr + 2 * pawnDirection piece)
    then Some (fr + pawnDirection piece, fc) else None.
Proof.
  intros Hplay Hp.
  destruct (playMove_success _ _ _ _ _ _ _ Hplay)
    as (piece' & m & b' & Hp' & Hcol & Hfind & Hr & Hc & Hraw & Hchk & Hb & ->).
  rewrite Hp in Hp'. injection Hp' as <-.
  rewrite enPassantTarget_checked. cbn [enPassantTarget played].
  subst tr tc.
  destruct (pawnDirection_cases piece)
    as [(_ & Hd & _ & _ & Hcr)|(_ & Hd & _ & _ & Hcr)];
    destruct Hraw; record_fields; rewrite ?Hcr, ?Hd;
    try (rewrite decide_False by (intros [? ?]; first [congruence | lia]);
         reflexivity);
    rewrite decide_True by (split; [assumption|reflexivity]);
    f_equal; f_equal; lia.
Qed.

Lemma playMove_enPassant fr fc promo g m :
  Inv g ->
  m ∈ legalMoves g fr fc ->
  MoveInfo.enPassant m = true ->
  exists g' pawn victim,
    playMove fr fc (MoveInfo.row m) (MoveInfo.col m) promo g = Some (true, g')
    ∧ getPiece g fr fc = Some pawn
    ∧ type pawn = PAWN
    ∧ getPiece g (MoveInfo.row m) (MoveInfo.col m) = None
    ∧ getPiece g fr (MoveInfo.col m) = Some victim
    ∧ type victim = PAWN
    ∧ color victim = opponent (color pawn)
    ∧ getPiece g' fr (MoveInfo.col m) = None
    ∧ getPiece g' (MoveInfo.row m) (MoveInfo.col m)
      = Some (withHasMoved true pawn)
    ∧ getPiece g' fr fc = None
    ∧ capturedBy (color pawn) (capturedPieces g')
      = capturedBy (color pawn) (capturedPieces g) ++ [victim].
Proof.
  intros HI Hin Hepm.
  destruct (playMove_legal fr fc promo g m Hin) as [g' Hplay].
  destruct (playMove_success _ _ _ _ _ _ _ Hplay)
    as (piece & m' & b' & Hp & Hcol & Hfind & Hr & Hc & Hraw' & Hchk & Hb & ->).
  destruct (legalMoves_raw _ _ _ _ Hin) as (p & Hp' & _ & Hraw & _).
  rewrite Hp in Hp'. injection Hp' as <-.
  assert (forall er ec, enPassantTarget g = Some (er, ec) ->
                        getPiece g er ec = None) as Hempty.
  { intros er ec H. apply (inv_ep _ HI _ _ H). }
  assert (type piece = PAWN) as Hty
    by (clear -Hraw Hepm; destruct Hraw; cbn in Hepm; congruence).
  assert (m' = m) as -> by (eapply RawMove_pawn_same_dest; eassumption).
  clear Hraw' Hr Hc Hfind.
  exists (checked (played fr fc (MoveInfo.row m) (MoveInfo.col m) promo piece m
                     b' (selected g fr fc))), piece.
  destruct Hraw as [ | | | | dc _ Hdc Hon Het | | ]; try discriminate.
  record_fields. record_fields in Hb.
  destruct (inv_ep _ HI _ _ Het) as (Hdest & rec & Hlast & Hrty & Hrcol & Hrfrom & Hrto & Hrcell).
  rewrite <- Hcol in Hrcol.
  rewrite (pawnDirection_opponent _ _ Hrcol) in Hrcell.
  replace (fr + pawnDirection piece + - pawnDirection piece) with fr in Hrcell
    by lia.
  exists (withHasMoved true (MoveRecord.piece rec)).
  pose proof (getPiece_onBoard _ _ _ _ Hp) as Hfrom.
  pose proof (getPiece_onBoard _ _ _ _ Hrcell) as Hvic.
  pose proof (inv_wf _ HI) as Hwf.
  assert (capturedRowOf piece (fr + pawnDirection piece) = fr) as Hcr.
  { destruct (pawnDirection_cases piece)
      as [(_ & Hd & _ & _ & Hcr)|(_ & Hd & _ & _ & Hcr)]; rewrite Hcr, Hd; lia. }
  unfold executedBoard in Hb. record_fields in Hb.
  cbn [mbind option_bind] in Hb. rewrite Hcr in Hb.
  assert (b' = place (place (place (board g) fr (fc + dc) None)
                        (fr + pawnDirection piece) (fc + dc)
                        (Some (withHasMoved true piece))) fr fc None) as ->.
  { destruct promo; injection Hb as <-; reflexivity. }
  clear Hb.
  rewrite !getPiece_checked. rewrite capturedPieces_checked.
  cbn [capturedPieces played capturedOf MoveInfo.enPassant selected board
       set_validMoves].
  rewrite Hcr. rewrite !getPiece_pieceAt in *. cbn [board played].
  rewrite Hrcell.
  assert (pawnDirection piece = -1 ∨ pawnDirection piece = 1) as Hd.
  { unfold pawnDirection. case_decide; auto. }
  split; [exact Hplay|]. split; [exact Hp|]. split; [exact Hty|].
  split; [exact Hdest|]. split; [reflexivity|]. split; [exact Hrty|].
  split; [exact Hrcol|].
  split; [solve_cells|]. split; [solve_cells|]. split; [solve_cells|].
  destruct (color piece); reflexivity.
Qed.

Lemma playAll_reachable moves g g' :
  reachable g -> playAll moves g = Some g' -> reachable g'.
Proof.
  revert g. induction moves as [|[[[[fr fc] tr] tc] promo] moves IH];
    intros g Hg H; cbn [playAll] in H.
  - injection H as <-. exact Hg.
  - destruct (playMove fr fc tr tc promo g) as [[[] g1]|] eqn:Hplay;
      try discriminate.
    apply (IH g1); [|exact H]. econstructor; eassumption.
Qed.

(** C6: an en-passant capture is in the legal-move set only when its
    destination is the en-passant target; in a reachable state that
    target is the empty square passed over by the opposing pawn in the
    last move of the history; every move sets the target to the
    passed-over square if it is a two-square pawn advance and clears it
    otherwise; and the capture, when applied, empties the square the
    opposing pawn landed on (the row of the capturing pawn), the
    destination having been empty.  After 1. e4 a6 2. e5 d5 the capture
    e5xd6 is legal and removes the pawn on d5; one move pair later it is
    no longer offered. *)
Theorem enPassant_only_after_two_square_advance :
  (forall g fromRow fromCol moves move,
     run (getValidMoves fromRow fromCol) g = Some moves ->
     move ∈ moves -> MoveInfo.enPassant move = true ->
     enPassantTarget g = Some (MoveInfo.row move, MoveInfo.col move)
     ∧ exists pawn,
         getPiece g fromRow fromCol = Some pawn ∧ type pawn = PAWN
         ∧ MoveInfo.row move = fromRow + pawnDirection pawn
         ∧ (MoveInfo.col move = fromCol - 1 ∨ MoveInfo.col move = fromCol + 1))
  ∧ (forall g er ec,
       reachable g -> enPassantTarget g = Some (er, ec) -> epJustified g er ec)
  ∧ (forall g fromRow fromCol toRow toCol promotionPiece g' piece,
       playMove fromRow fromCol toRow toCol promotionPiece g = Some (true, g') ->
       getPiece g fromRow fromCol = Some piece ->
       enPassantTarget g' =
         if decide (type piece = PAWN
                    ∧ toRow = fromRow + 2 * pawnDirection piece)
         then Some (fromRow + pawnDirection piece, fromCol) else None)
  ∧ (forall g fromRow fromCol moves move promotionPiece,
       reachable g ->
       run (getValidMoves fromRow fromCol) g = Some moves ->
       move ∈ moves -> MoveInfo.enPassant move = true ->
       exists g' pawn victim,
         playMove fromRow fromCol (MoveInfo.row move) (MoveInfo.col move)
                  promotionPiece g = Some (true, g')
         ∧ getPiece g fromRow fromCol = Some pawn
         ∧ type pawn = PAWN
         ∧ getPiece g (MoveInfo.row move) (MoveInfo.col move) = None
         ∧ getPiece g fromRow (MoveInfo.col move) = Some victim
         ∧ type victim = PAWN
         ∧ color victim = opponent (color pawn)
         ∧ getPiece g' fromRow (MoveInfo.col move) = None
         ∧ getPiece g' (MoveInfo.row move) (MoveInfo.col move)
           = Some (withHasMoved true pawn)
         ∧ getPiece g' fromRow fromCol = None
         ∧ capturedBy (color pawn) (capturedPieces g')
           = capturedBy (color pawn) (capturedPieces g) ++ [victim])
  ∧ (exists g,
       playAll enPassantOpening reset = Some g
       ∧ enPassantTarget g = Some (2, 3)
       ∧ getPiece g 3 3 = Some (withHasMoved true (createPiece PAWN BLACK))
       ∧ getPiece g 2 3 = None
       ∧ run (getValidMoves 3 4) g
         = Some [ MoveInfo.mk 2 4 false false false false None;
                  MoveInfo.mk 2 3 true false false true None ]
       ∧ (exists g',
            playMove 3 4 2 3 None g = Some (true, g')
            ∧ getPiece g' 3 3 = None
            ∧ getPiece g' 2 3 = Some (withHasMoved true (createPiece PAWN WHITE))
            ∧ getPiece g' 3 4 = None)
       ∧ (exists g2,
            playAll [ (6, 7, 5, 7, None); (1, 7, 2, 7, None) ] g = Some g2
            ∧ enPassantTarget g2 = None
            ∧ run (getValidMoves 3 4) g2
              = Some [ MoveInfo.mk 2 4 false false false false None ])).
Proof.
  split; [|split; [|split; [|split]]].
  - intros g fr fc moves m Hrun Hin Hep.
    apply run_getValidMoves in Hrun. subst moves.
    destruct (legalMoves_raw _ _ _ _ Hin) as (pawn & Hp & _ & Hraw & _).
    destruct Hraw; try discriminate. record_fields.
    split; [assumption|]. exists pawn. repeat split; try assumption. lia.
  - intros g er ec Hreach Hep. apply (inv_ep _ (reachable_Inv _ Hreach) _ _ Hep).
  - intros. eapply playMove_enPassantTarget; eassumption.
  - intros g fr fc moves m promo Hreach Hrun Hin Hep.
    apply run_getValidMoves in Hrun. subst moves.
    apply playMove_enPassant; [apply reachable_Inv|..]; assumption.
  - eexists. split; [vm_compute; reflexivity|].
    split; [reflexivity|]. split; [reflexivity|]. split; [reflexivity|].
    split; [vm_compute; reflexivity|]. split.
    + eexists. split; [vm_compute; reflexivity|]. repeat split.
    + eexists. split; [vm_compute; reflexivity|].
      split; [reflexivity|]. vm_compute. reflexivity.
Qed.

Lemma enPassant_only_after_two_square_advance_witness :
  exists g,
    playAll enPassantOpening reset = Some g
    ∧ exists g' pawn victim,
        playMove 3 4 2 3 None g = Some (true, g')
        ∧ getPiece g 3 4 = Some pawn
        ∧ getPiece g 3 3 = Some victim
        ∧ getPiece g' 3 3 = None
        ∧ getPiece g' 2 3 = Some (withHasMoved true pawn).
Proof.
  eexists. split; [vm_compute; reflexivity|].
  match goal with
  | |- exists g' pawn victim, playMove _ _ _ _ _ ?g = _ ∧ _ =>
      destruct (proj1 (proj2 (proj2 (proj2
                  enPassant_only_after_two_square_advance)))
                  g 3 4
                  [ MoveInfo.mk 2 4 false false false false None;
                    MoveInfo.mk 2 3 true false false true None ]
                  (MoveInfo.mk 2 3 true false false true None) None)
        as (g' & pawn & victim & H1 & H2 & _ & _ & H5 & _ & _ & H8 & H9 & _)
  end.
  - apply (playAll_reachable enPassantOpening reset);
      [apply reachable_reset|vm_compute; reflexivity].
  - vm_compute. reflexivity.
  - apply list_elem_of_further, list_elem_of_here.
  - reflexivity.
  - exists g', pawn, victim. repeat split; assumption.
Defined.

(** ** Promotion *)

Lemma RawMove_promotion g fr fc piece m :
  RawMove g fr fc piece m -> MoveInfo.promotion m = true ->
  type piece = PAWN ∧ MoveInfo.row m = pawnPromotionRow piece.
Proof.
  intros Hraw Hpr. destruct Hraw; cbn in Hpr; try discriminate;
    record_fields; apply bool_decide_eq_true in Hpr; auto.
Qed.

Lemma RawMove_same_dest_promotion g fr fc piece m m' :
  (forall er ec, enPassantTarget g = Some (er, ec) -> getPiece g er ec = None) ->
  RawMove g fr fc piece m -> RawMove g fr fc piece m' ->
  MoveInfo.row m' = MoveInfo.row m -> MoveInfo.col m' = MoveInfo.col m ->
  MoveInfo.promotion m' = MoveInfo.promotion m.
Proof.
  intros Hep Hm Hm' Hr Hc.
  destruct (decide (type piece = PAWN)) as [Hty|Hty].
  - f_equal. eapply RawMove_pawn_same_dest; eassumption.
  - destruct Hm; try contradiction; destruct Hm'; try contradiction;
      reflexivity.
Qed.

Lemma playMove_landed fr fc promo g m :
  Inv g ->
  m ∈ legalMoves g fr fc ->
  exists g' piece,
    playMove fr fc (MoveInfo.row m) (MoveInfo.col m) promo g = Some (true, g')
    ∧ getPiece g fr fc = Some piece
    ∧ getPiece g' (MoveInfo.row m) (MoveInfo.col m)
      = Some (landed promo piece m).
Proof.
  intros HI Hin.
  destruct (playMove_legal fr fc promo g m Hin) as [g' Hplay].
  destruct (playMove_success _ _ _ _ _ _ _ Hplay)
    as (piece & m' & b' & Hp & Hcol & Hfind & Hr & Hc & Hraw' & Hchk & Hb & ->).
  destruct (legalMoves_raw _ _ _ _ Hin) as (p & Hp' & _ & Hraw & _).
  rewrite Hp in Hp'. injection Hp' as <-.
  assert (MoveInfo.promotion m' = MoveInfo.promotion m) as Hpr.
  { eapply RawMove_same_dest_promotion; try eassumption.
    intros er ec H. apply (inv_ep _ HI _ _ H). }
  destruct (executedBoard_facts g fr fc piece m' promo (inv_wf _ HI) Hp Hraw'
              (inv_symbols _ HI))
    as (b'' & Hb'' & _ & _ & _ & Hto & _).
  rewrite Hr, Hc in Hb''. rewrite Hb in Hb''. injection Hb'' as <-.
  eexists _, piece. split; [exact Hplay|]. split; [exact Hp|].
  rewrite getPiece_checked, getPiece_pieceAt. cbn [board played].
  rewrite Hr, Hc in Hto. rewrite Hto. unfold landed. rewrite Hpr. reflexivity.
Qed.

(** C10: a legal move flagged as a promotion, made without a promotion
    choice, succeeds and leaves the pawn itself, marked as moved, on the
    promotion rank; in general the piece on the destination after a
    legal move is a new piece of the chosen type exactly when the move is
    flagged as a promotion and a choice was supplied, and the moved
    piece otherwise. *)
Theorem promotion_needs_flag_and_choice :
  (forall g fromRow fromCol moves move,
     reachable g ->
     run (getValidMoves fromRow fromCol) g = Some moves ->
     move ∈ moves -> MoveInfo.promotion move = true ->
     exists g' pawn,
       playMove fromRow fromCol (MoveInfo.row move) (MoveInfo.col move) None g
         = Some (true, g')
       ∧ getPiece g fromRow fromCol = Some pawn
       ∧ type pawn = PAWN
       ∧ MoveInfo.row move = pawnPromotionRow pawn
       ∧ getPiece g' (MoveInfo.row move) (MoveInfo.col move)
         = Some (withHasMoved true pawn))
  ∧ (forall g fromRow fromCol moves move promotionPiece,
       reachable g ->
       run (getValidMoves fromRow fromCol) g = Some moves ->
       move ∈ moves ->
       exists g' piece,
         playMove fromRow fromCol (MoveInfo.row move) (MoveInfo.col move)
                  promotionPiece g = Some (true, g')
         ∧ getPiece g fromRow fromCol = Some piece
         ∧ getPiece g' (MoveInfo.row move) (MoveInfo.col move)
           = Some match promotionPiece with
                  | Some promotionType =>
                      if MoveInfo.promotion move then
                        withHasMoved true
                          (createPiece promotionType (color piece))
                      else withHasMoved true piece
                  | None => withHasMoved true piece
                  end).
Proof.
  split.
  - intros g fr fc moves m Hreach Hrun Hin Hpr.
    apply run_getValidMoves in Hrun. subst moves.
    destruct (playMove_landed fr fc None g m (reachable_Inv _ Hreach) Hin)
      as (g' & pawn & Hplay & Hp & Hto).
    destruct (legalMoves_raw _ _ _ _ Hin) as (p & Hp' & _ & Hraw & _).
    rewrite Hp in Hp'. injection Hp' as <-.
    destruct (RawMove_promotion _ _ _ _ _ Hraw Hpr) as [Hty Hrow].
    exists g', pawn. repeat split; assumption.
  - intros g fr fc moves m promo Hreach Hrun Hin.
    apply run_getValidMoves in Hrun. subst moves.
    apply playMove_landed; [apply reachable_Inv|]; assumption.
Qed.

Lemma promotion_needs_flag_and_choice_witness :
  exists g,
    playAll promotionOpening reset = Some g
    ∧ exists g' pawn,
        playMove 1 1 0 0 None g = Some (true, g')
        ∧ getPiece g 1 1 = Some pawn
        ∧ type pawn = PAWN
        ∧ getPiece g' 0 0 = Some (withHasMoved true pawn).
Proof.
  eexists. split; [vm_compute; reflexivity|].
  match goal with
  | |- exists g' pawn, playMove _ _ _ _ _ ?g = _ ∧ _ =>
      destruct (proj1 promotion_needs_flag_and_choice g 1 1
                  [ MoveInfo.mk 0 1 false true false false None;
                    MoveInfo.mk 0 0 true true false false None ]
                  (MoveInfo.mk 0 0 true true false false None))
        as (g' & pawn & H1 & H2 & H3 & _ & H5)
  end.
  - apply (playAll_reachable promotionOpening reset);
      [apply reachable_reset|vm_compute; reflexivity].
  - vm_compute. reflexivity.
  - apply list_elem_of_further, list_elem_of_here.
  - reflexivity.
  - exists g', pawn. repeat split; assumption.
Defined.

(** ** The legality filter *)

Lemma alikeCell_moved clr x : alikeCell clr (Some (withHasMoved true x)) (Some x).
Proof. cbn. tauto. Qed.

Lemma alikeCell_promoted piece t :
  type piece = PAWN -> t <> KING ->
  alikeCell (color piece)
    (Some (withHasMoved true (createPiece t (color piece)))) (Some piece).
Proof.
  intros Hty Ht. cbn. split; [reflexivity|]. split; [tauto|].
  rewrite Hty. split; [tauto|discriminate].
Qed.

Ltac alike_cells :=
  rewrite ?pieceAt_place by solve_wfb;
  repeat case_decide; destruct_and?; subst;
  first [ apply alikeCell_refl
        | apply alikeCell_moved
        | apply alikeCell_promoted; [assumption|congruence]
        | exact I
        | exfalso; unfold onBoard in *; first [tauto | lia | congruence] ].

Lemma executed_alike_simulated g fr fc piece m promo b' :
  wfBoard (board g) ->
  getPiece g fr fc = Some piece ->
  RawMove g fr fc piece m ->
  promo <> Some KING ->
  executedBoard fr fc (MoveInfo.row m) (MoveInfo.col m) promo piece m (board g)
    = Some b' ->
  forall r c,
    alikeCell (color piece) (pieceAt b' r c)
      (getPiece (simulated fr fc piece m g) r c).
Proof.
  intros Hwf Hp Hraw Hpromo Hb r c.
  pose proof (getPiece_onBoard _ _ _ _ Hp) as Hfrom.
  unfold simulated. rewrite !putPiece_place, !getPiece_pieceAt.
  unfold executedBoard, capturedRowOf in Hb.
  rewrite getPiece_pieceAt in Hp.
  destruct Hraw as [tr tc cap Hty Hon He
                   | Hty Hon H1
                   | Hty Hst H1 H2
                   | dc Hty Hdc Hon He
                   | dc Hty Hdc Hon Het
                   | rook Hty Hnm Hnc Hrook Hrt Hrm H5 H6 Ha5 Ha6
                   | rook Hty Hnm Hnc Hrook Hrt Hrm H1 H2 H3 Ha2 Ha3 ];
    rewrite ?getPiece_pieceAt in *;
    record_fields; record_fields in Hb;
    rewrite ?Hrook in Hb; cbn [mbind option_bind] in Hb;
    cbn [board set_board]; rewrite ?putPiece_place; cbn [board set_board];
    rewrite ?Hrook;
    (destruct promo as [t|];
     [ try match type of Hb with
           | context [bool_decide ?P] => destruct (bool_decide P)
           end
     | ]);
    injection Hb as <-; alike_cells.
Qed.

(** C3: every move that [getValidMoves] returns leaves the mover's king
    unattacked on the board where the legality filter plays it, with its
    en-passant removal and castling rook relocation; and in every
    reachable state [makeMove] of such a move, with a promotion choice
    other than a king, gives a state where the king of the side that
    moved is not attacked. *)
Theorem legal_move_keeps_own_king_safe :
  (forall g fromRow fromCol moves move,
     run (getValidMoves fromRow fromCol) g = Some moves ->
     move ∈ moves ->
     exists g1,
       simulateMove fromRow fromCol (MoveInfo.row move) (MoveInfo.col move)
                    (Some move) g = Some (tt, g1)
       ∧ isInCheck g1 (currentTurn g) = false)
  ∧ (forall g fromRow fromCol moves move promotionPiece,
       reachable g ->
       run (getValidMoves fromRow fromCol) g = Some moves ->
       move ∈ moves ->
       promotionPiece <> Some KING ->
       exists g',
         playMove fromRow fromCol (MoveInfo.row move) (MoveInfo.col move)
                  promotionPiece g = Some (true, g')
         ∧ currentTurn g' = opponent (currentTurn g)
         ∧ isInCheck g' (currentTurn g) = false).
Proof.
  split.
  - intros g fr fc moves m Hrun Hin.
    apply run_getValidMoves in Hrun. subst moves.
    apply legalMoves_elem in Hin as (piece & Hp & Hcol & _ & Hchk).
    rewrite (simulateMove_eq _ _ piece) by exact Hp.
    eexists. split; [reflexivity|]. rewrite <- Hcol. exact Hchk.
  - intros g fr fc moves m promo Hreach Hrun Hin Hpromo.
    apply run_getValidMoves in Hrun. subst moves.
    pose proof (reachable_Inv _ Hreach) as HI.
    destruct (playMove_legal fr fc promo g m Hin) as [g' Hplay].
    destruct (playMove_success _ _ _ _ _ _ _ Hplay)
      as (piece & m' & b' & Hp & Hcol & Hfind & Hr & Hc & Hraw & Hchk & Hb & ->).
    eexists. split; [exact Hplay|]. split; [apply currentTurn_checked|].
    rewrite <- Hcol, <- Hchk. apply alike_isInCheck. intros r c.
    rewrite getPiece_checked, getPiece_pieceAt. cbn [board played].
    rewrite <- Hr, <- Hc in Hb.
    apply (executed_alike_simulated g fr fc piece m' promo b' (inv_wf _ HI));
      assumption.
Qed.

Lemma legal_move_keeps_own_king_safe_witness :
  exists g',
    playMove 6 4 4 4 None reset = Some (true, g')
    ∧ currentTurn g' = opponent (currentTurn reset)
    ∧ isInCheck g' (currentTurn reset) = false.
Proof.
  apply (proj2 legal_move_keeps_own_king_safe reset 6 4
           [ MoveInfo.mk 5 4 false false false false None;
             MoveInfo.mk 4 4 false false true false None ]
           (MoveInfo.mk 4 4 false false true false None) None).
  - apply reachable_reset.
  - vm_compute. reflexivity.
  - apply list_elem_of_further, list_elem_of_here.
  - discriminate.
Defined.

(** ** Castling *)

Lemma reset_king r c p :
  getPiece reset r c = Some p -> type p = KING ->
  c = 4 ∧ r = homeRow (color p).
Proof.
  intros Hp Hty.
  pose proof (allPieces_spec
    (fun r c p => bool_decide (type p = KING -> c = 4 ∧ r = homeRow (color p)))
    reset r c p eq_refl Hp) as H.
  apply bool_decide_eq_true in H. auto.
Qed.

Lemma reset_rook r c p :
  getPiece reset r c = Some p -> type p = ROOK ->
  r = homeRow (color p).
Proof.
  intros Hp Hty.
  pose proof (allPieces_spec
    (fun r c p => bool_decide (type p = ROOK -> r = homeRow (color p)))
    reset r c p eq_refl Hp) as H.
  apply bool_decide_eq_true in H. auto.
Qed.

Lemma castling_offered g r c m side :
  m ∈ legalMoves g r c -> MoveInfo.castling m = Some side ->
  exists king,
    getPiece g r c = Some king ∧ type king = KING
    ∧ color king = currentTurn g
    ∧ MoveInfo.row m = r
    ∧ MoveInfo.col m = match side with kingside => 6 | queenside => 2 end
    ∧ castlingConditions g r king side.
Proof.
  intros Hin Hside.
  destruct (legalMoves_raw _ _ _ _ Hin) as (king & Hp & Hcol & Hraw & _).
  exists king. unfold castlingConditions.
  destruct Hraw; try discriminate; cbn in Hside; injection Hside as <-;
    record_fields; repeat split; try assumption; eauto.
Qed.

Lemma castling_never_moved g r c m side :
  Inv g ->
  m ∈ legalMoves g r c -> MoveInfo.castling m = Some side ->
  exists king rook,
    getPiece g r c = Some king ∧ getPiece g r (rookCol side) = Some rook
    ∧ c = 4 ∧ r = homeRow (color king) ∧ color rook = color king
    ∧ forall move, move ∈ moveHistory g ->
        MoveRecord.from move <> (r, 4) ∧ MoveRecord.to move <> (r, 4)
        ∧ MoveRecord.from move <> (r, rookCol side)
        ∧ MoveRecord.to move <> (r, rookCol side).
Proof.
  intros HI Hin Hside.
  destruct (castling_offered _ _ _ _ _ Hin Hside)
    as (king & Hp & Hty & Hcol & _ & _ & Hnm & _ & Hrest).
  assert (exists rook, getPiece g r (rookCol side) = Some rook
                       ∧ type rook = ROOK ∧ hasMoved rook = false)
    as (rook & Hrook & Hrty & Hrnm).
  { destruct side; destruct Hrest as [(rook & ? & ? & ?) _]; eauto. }
  pose proof (inv_unmoved _ HI _ _ _ Hp Hnm) as Hk0.
  pose proof (inv_unmoved _ HI _ _ _ Hrook Hrnm) as Hr0.
  destruct (reset_king _ _ _ Hk0 Hty) as [-> Hkr].
  pose proof (reset_rook _ _ _ Hr0 Hrty) as Hrr.
  exists king, rook. repeat split; try assumption.
  - destruct (color king), (color rook); cbn in *; congruence || lia.
  - intros Heq. pose proof (inv_touched _ HI move r 4 king H (or_introl (eq_sym Heq)) Hp).
    congruence.
  - intros Heq. pose proof (inv_touched _ HI move r 4 king H (or_intror (eq_sym Heq)) Hp).
    congruence.
  - intros Heq. pose proof (inv_touched _ HI move r _ rook H (or_introl (eq_sym Heq)) Hrook).
    congruence.
  - intros Heq. pose proof (inv_touched _ HI move r _ rook H (or_intror (eq_sym Heq)) Hrook).
    congruence.
Qed.

Lemma playMove_history fr fc tr tc promo g g' :
  playMove fr fc tr tc promo g = Some (true, g') ->
  exists move,
    moveHistory g' = moveHistory g ++ [move]
    ∧ MoveRecord.from move = (fr, fc) ∧ MoveRecord.to move = (tr, tc).
Proof.
  intros Hplay.
  destruct (playMove_success _ _ _ _ _ _ _ Hplay)
    as (piece & m & b' & _ & _ & _ & _ & _ & _ & _ & _ & ->).
  eexists. rewrite moveHistory_checked. cbn [moveHistory played].
  split; [reflexivity|]. split; reflexivity.
Qed.

(** C7: [getValidMoves] offers a castling move only for a king that
    has not moved and is not in check, with an unmoved rook in the
    corner, empty squares between them and no attack on the square the
    king crosses nor on its destination; in a reachable state that king
    stands on its home square, the rook is its own, and no move of the
    history has left or reached the king's or the rook's square: once a
    move from or to one of these squares is in the history, castling on
    that side is not offered.  With a bishop attacking f1 the white king
    is not offered castling; after Ke1-f1-e1 it is not offered either. *)
Theorem castling_only_when_allowed :
  (forall g r c moves move side,
     run (getValidMoves r c) g = Some moves ->
     move ∈ moves -> MoveInfo.castling move = Some side ->
     exists king,
       getPiece g r c = Some king ∧ type king = KING
       ∧ color king = currentTurn g
       ∧ MoveInfo.row move = r
       ∧ MoveInfo.col move = match side with kingside => 6 | queenside => 2 end
       ∧ castlingConditions g r king side)
  ∧ (forall g r c moves move side,
       reachable g ->
       run (getValidMoves r c) g = Some moves ->
       move ∈ moves -> MoveInfo.castling move = Some side ->
       exists king rook,
         getPiece g r c = Some king ∧ getPiece g r (rookCol side) = Some rook
         ∧ c = 4 ∧ r = homeRow (color king) ∧ color rook = color king
         ∧ forall played, played ∈ moveHistory g ->
             MoveRecord.from played <> (r, 4) ∧ MoveRecord.to played <> (r, 4)
             ∧ MoveRecord.from played <> (r, rookCol side)
             ∧ MoveRecord.to played <> (r, rookCol side))
  ∧ (forall g r side played c moves move,
       reachable g ->
       played ∈ moveHistory g ->
       MoveRecord.from played = (r, 4) ∨ MoveRecord.to played = (r, 4)
       ∨ MoveRecord.from played = (r, rookCol side)
       ∨ MoveRecord.to played = (r, rookCol side) ->
       run (getValidMoves r c) g = Some moves ->
       move ∈ moves -> MoveInfo.castling move <> Some side)
  ∧ (forall g fromRow fromCol toRow toCol promotionPiece g',
       playMove fromRow fromCol toRow toCol promotionPiece g = Some (true, g') ->
       exists played,
         moveHistory g' = moveHistory g ++ [played]
         ∧ MoveRecord.from played = (fromRow, fromCol)
         ∧ MoveRecord.to played = (toRow, toCol))
  ∧ (exists g,
       playAll castlingBlocked reset = Some g
       ∧ getPiece g 7 4 = Some (createPiece KING WHITE)
       ∧ getPiece g 7 7 = Some (createPiece ROOK WHITE)
       ∧ getPiece g 7 5 = None ∧ getPiece g 7 6 = None
       ∧ isInCheck g WHITE = false
       ∧ isSquareAttacked g 7 5 BLACK = true
       ∧ run (getValidMoves 7 4) g = Some [])
  ∧ (exists g,
       playAll castlingOpen reset = Some g
       ∧ run (getValidMoves 7 4) g
         = Some [ MoveInfo.mk 6 4 false false false false None;
                  MoveInfo.mk 7 5 false false false false None;
                  MoveInfo.mk 7 6 false false false false (Some kingside) ]
       ∧ exists g',
           playAll kingWalk g = Some g'
           ∧ getPiece g' 7 4 = Some (withHasMoved true (createPiece KING WHITE))
           ∧ getPiece g' 7 7 = Some (createPiece ROOK WHITE)
           ∧ run (getValidMoves 7 4) g'
             = Some [ MoveInfo.mk 6 4 false false false false None;
                      MoveInfo.mk 7 5 false false false false None ]).
Proof.
  split; [|split; [|split; [|split; [|split]]]].
  - intros g r c moves m side Hrun Hin Hside.
    apply run_getValidMoves in Hrun. subst moves.
    eapply castling_offered; eassumption.
  - intros g r c moves m side Hreach Hrun Hin Hside.
    apply run_getValidMoves in Hrun. subst moves.
    eapply castling_never_moved; [apply reachable_Inv| |]; eassumption.
  - intros g r side played c moves m Hreach Hplayed Hsq Hrun Hin Hside.
    apply run_getValidMoves in Hrun. subst moves.
    destruct (castling_never_moved g r c m side (reachable_Inv _ Hreach) Hin Hside)
      as (king & rook & _ & _ & _ & _ & _ & Hclean).
    destruct (Hclean _ Hplayed) as (H1 & H2 & H3 & H4).
    destruct Hsq as [H|[H|[H|H]]]; contradiction.
  - intros. eapply playMove_history; eassumption.
  - eexists. split; [vm_compute; reflexivity|].
    repeat split; vm_compute; reflexivity.
  - eexists. split; [vm_compute; reflexivity|].
    split; [vm_compute; reflexivity|].
    eexists. split; [vm_compute; reflexivity|].
    repeat split; vm_compute; reflexivity.
Qed.

Lemma castling_only_when_allowed_witness :
  exists g,
    playAll castlingOpen reset = Some g
    ∧ exists king,
        getPiece g 7 4 = Some king
        ∧ castlingConditions g 7 king kingside.
Proof.
  eexists. split; [vm_compute; reflexivity|].
  match goal with
  | |- exists king, getPiece ?g _ _ = _ ∧ _ =>
      destruct (proj1 castling_only_when_allowed g 7 4
                  [ MoveInfo.mk 6 4 false false false false None;
                    MoveInfo.mk 7 5 false false false false None;
                    MoveInfo.mk 7 6 false false false false (Some kingside) ]
                  (MoveInfo.mk 7 6 false false false false (Some kingside))
                  kingside)
        as (king & H1 & _ & _ & _ & _ & H6)
  end.
  - vm_compute. reflexivity.
  - do 2 apply list_elem_of_further. apply list_elem_of_here.
  - reflexivity.
  - exists king. split; assumption.
Defined.

(** ** Pawn attacks and pawn captures *)

Lemma getPawnMoves_diagonals g row col piece moves attackOnly :
  exists forward,
    getPawnMoves g row col piece moves attackOnly
    = pawnDiagonal g row col piece attackOnly
        (pawnDiagonal g row col piece attackOnly forward (-1)) 1
    ∧ (attackOnly = true -> forward = moves)
    ∧ (forall m, m ∈ forward -> m ∈ moves ∨ MoveInfo.col m = col).
Proof.
  unfold getPawnMoves.
  match goal with
  | |- exists forward, foldl _ ?fw _ = _ ∧ _ => exists fw
  end.
  split; [reflexivity|]. split.
  - intros ->. reflexivity.
  - intros m. destruct attackOnly; cbn [negb]; [auto|].
    repeat case_decide; rewrite ?elem_of_app, ?list_elem_of_singleton;
      intros Hm; destruct_or?; subst; auto.
Qed.

Lemma pawnDiagonal_elem g row col piece attackOnly moves dc m :
  m ∈ pawnDiagonal g row col piece attackOnly moves dc <->
  m ∈ moves
  ∨ (onBoard (row + pawnDirection piece) (col + dc)
     ∧ ((attackOnly = true
         ∧ m = MoveInfo.plain (row + pawnDirection piece) (col + dc))
        ∨ (attackOnly = false
           ∧ isEnemy (getPiece g (row + pawnDirection piece) (col + dc)) piece
             = true
           ∧ m = MoveInfo.mk (row + pawnDirection piece) (col + dc) true
                   (bool_decide (row + pawnDirection piece
                                 = pawnPromotionRow piece))
                   false false None)
        ∨ (attackOnly = false
           ∧ enPassantTarget g = Some (row + pawnDirection piece, col + dc)
           ∧ m = MoveInfo.mk (row + pawnDirection piece) (col + dc) true
                   false false true None))).
Proof.
  unfold pawnDiagonal.
  destruct (decide (onBoard (row + pawnDirection piece) (col + dc))) as [Hon|Hoff];
    [|tauto].
  destruct attackOnly; cbn [negb andb].
  - rewrite elem_of_app, list_elem_of_singleton. intuition congruence.
  - destruct (isEnemy _ piece) eqn:He;
      case_bool_decide as Hep;
      rewrite ?elem_of_app, ?list_elem_of_singleton; intuition congruence.
Qed.

Lemma existsb_elem {A} (f : A -> bool) (l : list A) x :
  x ∈ l -> f x = true -> existsb f l = true.
Proof.
  intros Hin Hf. apply existsb_exists. exists x.
  split; [apply list_elem_of_In, Hin|exact Hf].
Qed.

(** C8: a pawn attacks both forward diagonals that are on the board,
    whatever stands on them -- [isSquareAttacked] answers [true] for such a
    square, and with [attackOnly] [getPawnMoves] lists exactly the on-board
    diagonals -- whereas without [attackOnly] a diagonal square is listed
    exactly when it holds an enemy piece (a capture, promoting on the last
    row) or is the en-passant target (an en-passant capture). *)
Theorem pawn_attacks_regardless_of_occupancy :
  (forall g pawnRow pawnCol pawn row col,
     getPiece g pawnRow pawnCol = Some pawn -> type pawn = PAWN ->
     row = pawnRow + pawnDirection pawn ->
     col = pawnCol - 1 ∨ col = pawnCol + 1 ->
     onBoard row col ->
     isSquareAttacked g row col (color pawn) = true)
  ∧ (forall g pawnRow pawnCol pawn move,
       move ∈ getPawnMoves g pawnRow pawnCol pawn [] true <->
       exists dc,
         (dc = -1 ∨ dc = 1)
         ∧ onBoard (pawnRow + pawnDirection pawn) (pawnCol + dc)
         ∧ move = MoveInfo.plain (pawnRow + pawnDirection pawn) (pawnCol + dc))
  ∧ (forall g pawnRow pawnCol pawn move,
       MoveInfo.col move <> pawnCol ->
       move ∈ getPawnMoves g pawnRow pawnCol pawn [] false <->
       exists dc,
         (dc = -1 ∨ dc = 1)
         ∧ onBoard (pawnRow + pawnDirection pawn) (pawnCol + dc)
         ∧ ((isEnemy (getPiece g (pawnRow + pawnDirection pawn) (pawnCol + dc))
                     pawn = true
             ∧ move = MoveInfo.mk (pawnRow + pawnDirection pawn) (pawnCol + dc)
                        true
                        (bool_decide (pawnRow + pawnDirection pawn
                                      = pawnPromotionRow pawn))
                        false false None)
            ∨ (enPassantTarget g
                 = Some (pawnRow + pawnDirection pawn, pawnCol + dc)
               ∧ move = MoveInfo.mk (pawnRow + pawnDirection pawn)
                          (pawnCol + dc) true false false true None))).
Proof.
  split; [|split].
  - intros g pr pc pawn row col Hp Hty -> Hcol Hon.
    unfold isSquareAttacked.
    apply (existsb_elem _ _ (pr, pc)).
    { apply allSquares_elem. eapply getPiece_onBoard, Hp. }
    rewrite Hp. rewrite bool_decide_true by reflexivity. cbn [andb].
    unfold attackMoves, getRawMovesWith. rewrite Hty.
    destruct (getPawnMoves_diagonals g pr pc pawn [] true)
      as (fw & -> & Hfw & _). rewrite (Hfw eq_refl).
    destruct Hcol as [->| ->].
    + apply (existsb_elem _ _ (MoveInfo.plain (pr + pawnDirection pawn) (pc + -1))).
      * apply pawnDiagonal_elem. left. apply pawnDiagonal_elem. right.
        split; [replace (pc + -1) with (pc - 1) by lia; exact Hon|].
        left. split; reflexivity.
      * apply bool_decide_eq_true. cbn. split; [reflexivity|lia].
    + apply (existsb_elem _ _ (MoveInfo.plain (pr + pawnDirection pawn) (pc + 1))).
      * apply pawnDiagonal_elem. right. split; [exact Hon|].
        left. split; reflexivity.
      * apply bool_decide_eq_true. cbn. split; reflexivity.
  - intros g pr pc pawn m.
    destruct (getPawnMoves_diagonals g pr pc pawn [] true)
      as (fw & -> & Hfw & _). rewrite (Hfw eq_refl).
    rewrite !pawnDiagonal_elem, elem_of_nil. split.
    + intros [[[]|(Hon & [[_ ->]|[(? & _)|(? & _)]])]
             |(Hon & [[_ ->]|[(? & _)|(? & _)]])]; try discriminate.
      * exists (-1). auto.
      * exists 1. auto.
    + intros (dc & [-> | ->] & Hon & ->).
      * left. right. split; [exact Hon|]. left. auto.
      * right. split; [exact Hon|]. left. auto.
  - intros g pr pc pawn m Hcol.
    destruct (getPawnMoves_diagonals g pr pc pawn [] false)
      as (fw & -> & _ & Hfw).
    rewrite !pawnDiagonal_elem. split.
    + intros [[Hin|(Hon & [[? _]|[(_ & He & ->)|(_ & He & ->)]])]
             |(Hon & [[? _]|[(_ & He & ->)|(_ & He & ->)]])]; try discriminate.
      * destruct (Hfw _ Hin) as [H|H]; [inversion H|contradiction].
      * exists (-1). auto.
      * exists (-1). auto.
      * exists 1. auto.
      * exists 1. auto.
    + intros (dc & [-> | ->] & Hon & [[He ->]|[He ->]]).
      * left. right. split; [exact Hon|]. right. left. auto.
      * left. right. split; [exact Hon|]. right. right. auto.
      * right. split; [exact Hon|]. right. left. auto.
      * right. split; [exact Hon|]. right. right. auto.
Qed.

Lemma pawn_attacks_regardless_of_occupancy_witness :
  getPiece reset 5 3 = None
  ∧ isSquareAttacked reset 5 3 WHITE = true
  ∧ ~ MoveInfo.mk 5 3 true false false false None
      ∈ getPawnMoves reset 6 4 (createPiece PAWN WHITE) [] false.
Proof.
  split; [reflexivity|]. split.
  - apply (proj1 pawn_attacks_regardless_of_occupancy reset 6 4
             (createPiece PAWN WHITE) 5 3).
    + reflexivity.
    + reflexivity.
    + reflexivity.
    + left. reflexivity.
    + vm_compute. intuition discriminate.
  - intros Hin.
    apply (proj2 (proj2 pawn_attacks_regardless_of_occupancy) reset 6 4
             (createPiece PAWN WHITE)) in Hin.
    + destruct Hin as (dc & [-> | ->] & _ & [[He _]|[He _]]);
        vm_compute in He; discriminate He.
    + cbn. lia.
Defined.

(** ** The search *)

Lemma returns_bind {A B} (m : M A) (k : A -> M B) g Q :
  returns m g (fun a g' => returns (k a) g' Q) -> returns (m ≫= k) g Q.
Proof.
  intros (a & g' & Hm & Hk). unfold returns.
  rewrite (bind_Some _ _ _ _ _ Hm). exact Hk.
Qed.

Lemma returns_ret {A} (a : A) g (Q : A -> ChessGame -> Prop) :
  Q a g -> returns (mret a) g Q.
Proof. intros H. by exists a, g. Qed.

Lemma returns_get g (Q : ChessGame -> ChessGame -> Prop) :
  Q g g -> returns get g Q.
Proof. intros H. by exists g, g. Qed.

Lemma returns_modify f g (Q : unit -> ChessGame -> Prop) :
  Q tt (f g) -> returns (modify f) g Q.
Proof. intros H. by exists tt, (f g). Qed.

Lemma returns_setPiece row col piece g (Q : unit -> ChessGame -> Prop) :
  Q tt (putPiece row col piece g) -> returns (setPiece row col piece) g Q.
Proof. intros H. exists tt, (putPiece row col piece g). by rewrite setPiece_eq. Qed.

Lemma returns_weaken {A} (m : M A) g (Q Q' : A -> ChessGame -> Prop) :
  returns m g Q -> (forall a g', Q a g' -> Q' a g') -> returns m g Q'.
Proof. intros (a & g' & Hm & HQ) H. exists a, g'. auto. Qed.

Lemma returns_forEachM {A B} (body : B -> A -> M B) g xs acc
    (I : B -> Prop) :
  I acc ->
  (forall acc x, I acc -> returns (body acc x) g (fun acc' g' => I acc' ∧ g' = g)) ->
  returns (forEachM body xs acc) g (fun acc' g' => I acc' ∧ g' = g).
Proof.
  intros Hacc Hbody. revert acc Hacc.
  induction xs as [|x xs IH]; intros acc Hacc; [by exists acc, g|].
  cbn [forEachM]. apply returns_bind.
  eapply returns_weaken; [apply Hbody, Hacc|].
  intros acc' g' [Hacc' ->]. by apply IH.
Qed.

Ltac returns_step :=
  lazymatch goal with
  | |- returns (mbind _ _) _ _ => apply returns_bind
  | |- returns (mret _) _ _ => apply returns_ret
  | |- returns get _ _ => apply returns_get
  | |- returns (modify _) _ _ => apply returns_modify
  | |- returns (setPiece _ _ _) _ _ => apply returns_setPiece
  | |- returns (if ?b then _ else _) _ _ => destruct b
  | |- returns (match ?o with Some _ => _ | None => _ end) _ _ =>
      destruct o as [[]|]
  end.

Lemma searchFrame_refl g : searchFrame g g.
Proof. unfold searchFrame. by destruct g. Qed.

Lemma searchFrame_putPiece g g' row col piece :
  searchFrame g g' -> searchFrame g (putPiece row col piece g').
Proof.
  unfold searchFrame, putPiece. intros H. case_decide; [|exact H].
  rewrite H. reflexivity.
Qed.

Lemma searchFrame_set_board g g' b :
  searchFrame g g' -> searchFrame g (set_board b g').
Proof. unfold searchFrame. intros ->. reflexivity. Qed.

Lemma searchFrame_set_enPassantTarget g g' ep :
  searchFrame g g' -> searchFrame g (set_enPassantTarget ep g').
Proof. unfold searchFrame. intros ->. reflexivity. Qed.

Lemma searchFrame_set_currentTurn g g' clr :
  searchFrame g g' -> searchFrame g (set_currentTurn clr g').
Proof. unfold searchFrame. intros ->. reflexivity. Qed.

Lemma searchFrame_trans g1 g2 g3 :
  searchFrame g1 g2 -> searchFrame g2 g3 -> searchFrame g1 g3.
Proof. unfold searchFrame. intros -> ->. reflexivity. Qed.

Lemma searchFrame_restore g g' :
  searchFrame g g' ->
  board g' = board g -> enPassantTarget g' = enPassantTarget g ->
  currentTurn g' = currentTurn g -> g' = g.
Proof.
  unfold searchFrame. intros -> Hb He Ht. cbn in *.
  rewrite Hb, He, Ht. by destruct g.
Qed.

Ltac search_frame :=
  repeat first
    [ assumption
    | apply searchFrame_refl
    | apply searchFrame_putPiece
    | apply searchFrame_set_board
    | apply searchFrame_set_enPassantTarget
    | apply searchFrame_set_currentTurn ].

Lemma onlyBoard_restore g g' :
  onlyBoard g g' -> set_board (board g) g' = g.
Proof. unfold onlyBoard. intros ->. by destruct g. Qed.

Lemma getValidMovesForMinimax_frame row col piece g :
  returns (getValidMovesForMinimax row col piece) g (fun _ g' => g' = g).
Proof.
  unfold getValidMovesForMinimax.
  do 2 returns_step.
  eapply returns_weaken.
  { apply (returns_forEachM _ _ _ _ (fun _ => True)); [exact I|].
    intros acc move _.
    repeat returns_step; cbn beta; (split; [exact I|]);
      rewrite ?copyBoard_id; apply onlyBoard_restore;
      repeat apply onlyBoard_putPiece;
      rewrite set_board_id; apply onlyBoard_refl. }
  intros a g' [_ ->]. reflexivity.
Qed.

Lemma getAllValidMovesForMinimax_frame clr g :
  returns (getAllValidMovesForMinimax clr) g (fun _ g' => g' = g).
Proof.
  unfold getAllValidMovesForMinimax.
  eapply returns_weaken.
  { apply (returns_forEachM _ _ _ _ (fun _ => True)); [exact I|].
    intros acc [row col] _.
    do 2 returns_step.
    destruct (getPiece g row col) as [piece|]; [|by returns_step].
    case_decide; [|by returns_step].
    returns_step.
    eapply returns_weaken; [apply getValidMovesForMinimax_frame|].
    intros moves g' ->. by returns_step. }
  intros a g' [_ ->]. reflexivity.
Qed.

Lemma makeSimulatedMove_frame move g :
  returns (makeSimulatedMove move) g (fun _ g' => searchFrame g g').
Proof.
  unfold makeSimulatedMove. destruct (Candidate.from move) as [fromRow fromCol].
  do 2 returns_step.
  destruct (getPiece g fromRow fromCol) as [piece|];
    repeat returns_step; cbn beta; search_frame.
Qed.

Lemma Score_max_finite m z : m <> Infinity -> isFinite (Score_max m (Finite z)).
Proof. destruct m; cbn; [done| |done]. intros _. unfold Score_max. cbn. by case_bool_decide. Qed.

Lemma Score_min_finite m z : m <> NegInfinity -> isFinite (Score_min m (Finite z)).
Proof. destruct m; cbn; [done| |done]. intros _. unfold Score_min. cbn. by case_bool_decide. Qed.

Lemma isFinite_inv s : isFinite s -> s <> Infinity ∧ s <> NegInfinity.
Proof. by destruct s. Qed.

Section Search.
Context (child : M Score).
Hypothesis child_frame :
forall g, returns child g (fun s g' => isFinite s ∧ g' = g).

Lemma searchChild_frame move g :
returns (searchChild (currentTurn g) child move) g
  (fun s g' => isFinite s ∧ g' = g).
Proof.
unfold searchChild. do 2 returns_step. cbn beta zeta.
returns_step.
eapply returns_weaken; [apply makeSimulatedMove_frame|].
intros [] g1 H1. cbn beta in *.
do 3 returns_step.
eapply returns_weaken; [apply child_frame|].
intros s g2 [Hs ->]. cbn beta.
repeat returns_step. split; [exact Hs|].
apply searchFrame_restore; [search_frame|cbn; apply copyBoard_id|reflexivity..].
Qed.
End Search.

Section Loops.
Context (child : Score -> Score -> M Score).
Hypothesis child_frame :
forall alpha beta g,
  returns (child alpha beta) g (fun s g' => isFinite s ∧ g' = g).

Lemma maximizeOver_frame g moves maxScore alpha beta :
maxScore <> Infinity ->
returns (maximizeOver (currentTurn g) child moves maxScore alpha beta) g
  (fun s g' =>
     g' = g ∧ s <> Infinity
     ∧ (s = NegInfinity -> maxScore = NegInfinity ∧ moves = [])).
Proof.
revert maxScore alpha.
induction moves as [|move moves IH]; intros maxScore alpha Hmax.
{ cbn [maximizeOver]. returns_step. auto. }
cbn [maximizeOver]. returns_step.
eapply returns_weaken; [apply searchChild_frame, child_frame|].
intros s g' [Hs ->]. cbn beta zeta.
destruct s as [|z|]; try contradiction.
destruct (isFinite_inv _ (Score_max_finite maxScore z Hmax)) as [Hinf Hneg].
destruct (Score_le beta (Score_max alpha (Finite z))).
- returns_step. split; [done|]. split; [done|]. intros He. by destruct Hneg.
- eapply returns_weaken; [apply IH, Hinf|].
  intros s g' (-> & Hs' & Hneg'). split; [done|]. split; [done|].
  intros ->. by destruct Hneg'.
Qed.

Lemma minimizeOver_frame g moves minScore alpha beta :
minScore <> NegInfinity ->
returns (minimizeOver (currentTurn g) child moves minScore alpha beta) g
  (fun s g' =>
     g' = g ∧ s <> NegInfinity
     ∧ (s = Infinity -> minScore = Infinity ∧ moves = [])).
Proof.
revert minScore beta.
induction moves as [|move moves IH]; intros minScore beta Hmin.
{ cbn [minimizeOver]. returns_step. auto. }
cbn [minimizeOver]. returns_step.
eapply returns_weaken; [apply searchChild_frame, child_frame|].
intros s g' [Hs ->]. cbn beta zeta.
destruct s as [|z|]; try contradiction.
destruct (isFinite_inv _ (Score_min_finite minScore z Hmin)) as [Hinf Hneg].
destruct (Score_le (Score_min beta (Finite z)) alpha).
- returns_step. split; [done|]. split; [done|]. intros He. by destruct Hinf.
- eapply returns_weaken; [apply IH, Hneg|].
  intros s g' (-> & Hs' & Hinf'). split; [done|]. split; [done|].
  intros ->. by destruct Hinf'.
Qed.
End Loops.

Lemma minimax_frame ai depth alpha beta isMaximizing aiColor g :
  returns (minimax ai depth alpha beta isMaximizing aiColor) g
    (fun s g' => isFinite s ∧ g' = g).
Proof.
  revert alpha beta isMaximizing g.
  induction depth as [|depth IH]; intros alpha beta isMaximizing g.
  { cbn [minimax]. repeat returns_step. done. }
  cbn [minimax]. do 2 returns_step. cbn beta zeta. returns_step.
  eapply returns_weaken; [apply getAllValidMovesForMinimax_frame|].
  intros moves g' ->. cbn beta.
  case_decide as Hlen.
  { repeat returns_step; done. }
  destruct isMaximizing.
  - eapply returns_weaken.
    { apply maximizeOver_frame; [|done]. intros a b g'. apply IH. }
    intros s g' (-> & Hinf & Hneg). split; [|done].
    destruct s; [|done|done].
    destruct Hneg as [_ ->]; done.
  - eapply returns_weaken.
    { apply minimizeOver_frame; [|done]. intros a b g'. apply IH. }
    intros s g' (-> & Hneg & Hinf). split; [|done].
    destruct s; [done|done|].
    destruct Hinf as [_ ->]; done.
Qed.

Lemma sortInsert_length g a sorted :
  length (sortInsert g a sorted) = S (length sorted).
Proof.
  induction sorted as [|b sorted IH]; [reflexivity|].
  cbn [sortInsert]. destruct (Qle_bool _ _); cbn [length]; [reflexivity|].
  by rewrite IH.
Qed.

Lemma sortMoves_length moves g : length (sortMoves moves g) = length moves.
Proof.
  unfold sortMoves. induction moves as [|a moves IH]; [reflexivity|].
  cbn [foldr length]. by rewrite sortInsert_length, IH.
Qed.

Lemma random_index (random : Q) (n : nat) :
  (0 <= random)%Q -> (random < 1)%Q -> (0 < n)%nat ->
  (Z.to_nat (Qfloor (random * inject_Z (Z.of_nat n))) < n)%nat.
Proof.
  intros H0 H1 Hn.
  assert (0 < inject_Z (Z.of_nat n))%Q as Hpos.
  { rewrite <- (Zlt_Qlt 0). lia. }
  assert (0 <= Qfloor (random * inject_Z (Z.of_nat n))) as Hge.
  { change 0 with (Qfloor 0). apply Qfloor_resp_le.
    apply Qmult_le_0_compat; [exact H0|]. by apply Qlt_le_weak. }
  assert (Qfloor (random * inject_Z (Z.of_nat n)) < Z.of_nat n) as Hlt.
  { rewrite Zlt_Qlt. eapply Qle_lt_trans; [apply Qfloor_le|].
    rewrite <- (Qmult_1_l (inject_Z (Z.of_nat n))) at 2.
    apply Qmult_lt_compat_r; assumption. }
  lia.
Qed.

Lemma returns_getAllValidMoves clr g (Q : list Candidate.t -> ChessGame -> Prop) :
  Q (allLegalMoves g clr) g -> returns (getAllValidMoves clr) g Q.
Proof. intros H. eexists _, _. split; [apply getAllValidMoves_eq|exact H]. Qed.

(** C9: [getBestMove] returns, and returns the caller's state as it
    received it: the same board cells, [currentTurn], [enPassantTarget],
    [moveHistory], [capturedPieces], [gameOver], [winner], [isCheck] (and
    selection); its result is [null] exactly when [getAllValidMoves] finds
    no move for the side to move.  [random2] stands for a result of
    [Math.random()], a number of the interval [0, 1). *)
Theorem getBestMove_leaves_state_unchanged
    (difficulty : string) (random1 random2 : Q) (g : ChessGame) :
  (0 <= random2)%Q -> (random2 < 1)%Q ->
  exists best,
    getBestMove (setDifficulty difficulty) random1 random2 g = Some (best, g)
    ∧ (best = None <-> run (getAllValidMoves (currentTurn g)) g = Some []).
Proof.
  intros H0 H1.
  assert (run (getAllValidMoves (currentTurn g)) g = Some []
          <-> allLegalMoves g (currentTurn g) = []) as Hrun.
  { unfold run. rewrite getAllValidMoves_eq. cbn. split; congruence. }
  generalize (setDifficulty difficulty). intros ai.
  cut (returns (getBestMove ai random1 random2) g
         (fun best g' =>
            g' = g ∧ (best = None <-> allLegalMoves g (currentTurn g) = []))).
  { intros (best & g' & Hbest & -> & Hnone). exists best.
    split; [exact Hbest|]. by rewrite Hrun. }
  clear Hrun.
  unfold getBestMove. do 2 returns_step. cbn beta zeta.
  returns_step. apply returns_getAllValidMoves.
  set (moves := allLegalMoves g (currentTurn g)).
  case_decide as Hlen.
  { returns_step. split; [done|]. split; [|done].
    intros _. by apply length_zero_iff_nil. }
  assert (moves <> []) as Hmoves by (by intros Hnil; rewrite Hnil in Hlen).
  destruct (_ && _).
  { returns_step. split; [done|].
    destruct (lookup_lt_is_Some_2 moves
                (Z.to_nat (Qfloor (random2 * inject_Z (Z.of_nat (length moves))))))
      as [move ->]; [apply random_index; [done|done|lia]|].
    split; [done|]. intros Hnil. by destruct Hmoves. }
  do 2 returns_step. cbn beta zeta.
  returns_step.
  match goal with
  | |- returns (forEachM ?b _ _) _ _ => set (body := b)
  end.
  assert (forall best move,
    returns (body best move) g
      (fun best' g' =>
         (fst best <> None ∨ snd best = NegInfinity -> fst best' <> None)
         ∧ g' = g)) as Hbody.
  { intros [bestMove bestScore] move. subst body. cbn beta iota.
    do 2 returns_step. cbn beta zeta. rewrite !copyBoard_id.
    do 2 returns_step. rewrite set_board_id.
    returns_step.
    eapply returns_weaken; [apply makeSimulatedMove_frame|].
    intros [] g1 Hg1. cbn beta in *.
    do 3 returns_step.
    eapply returns_weaken; [apply minimax_frame|].
    intros score g2 [Hscore ->]. cbn beta.
    do 6 returns_step.
    assert (set_currentTurn (currentTurn g)
              (set_enPassantTarget (enPassantTarget g)
                 (set_board (board g)
                    (set_currentTurn (opponent (currentTurn g)) g1))) = g)
      as ->.
    { apply searchFrame_restore; [search_frame|reflexivity..]. }
    destruct score as [|z|]; try contradiction.
    destruct (Score_gt (Finite z) bestScore) eqn:Hgt; returns_step;
      (split; [|done]); cbn [fst snd].
    - done.
    - intros [Hsome| ->]; [exact Hsome|]. discriminate Hgt. }
  assert (forall sorted best,
    fst best <> None ->
    returns (forEachM body sorted best) g
      (fun best' g' => fst best' <> None ∧ g' = g)) as Hloop.
  { intros sorted best Hbest.
    apply (returns_forEachM _ _ _ _ (fun best => fst best <> None));
      [exact Hbest|].
    intros acc x Hacc. eapply returns_weaken; [apply Hbody|].
    intros best' g' [Hbest' ->]. split; [|done]. apply Hbest'. by left. }
  destruct (sortMoves moves g) as [|move sorted] eqn:Hsorted.
  { apply (f_equal length) in Hsorted. rewrite sortMoves_length in Hsorted.
    cbn in Hsorted. contradiction. }
  cbn [forEachM]. returns_step.
  eapply returns_weaken; [apply Hbody|].
  intros best' g' [Hbest' ->]. cbn beta.
  eapply returns_weaken; [apply Hloop; apply Hbest'; by right|].
  intros best'' g' [Hbest'' ->]. cbn beta.
  returns_step. split; [done|]. split; [intros Hnone|intros Hnil]; done.
Qed.

Lemma getBestMove_leaves_state_unchanged_witness :
  exists best,
    getBestMove (setDifficulty "hard") 0 (1 # 2) reset = Some (best, reset)
    ∧ (best = None <-> run (getAllValidMoves (currentTurn reset)) reset = Some []).
Proof.
  apply (getBestMove_leaves_state_unchanged "hard" 0 (1 # 2) reset).
  - vm_compute. discriminate.
  - reflexivity.
Defined.

(** * Further properties of the engine, the search and the interface *)

(** ** Board access *)

(** X1: on an 8x8 board [setPiece] returns; it writes the one cell
    [(row, col)] when that square is on the board and does nothing at all
    otherwise; it keeps the board 8x8 and touches no other field of the
    game; [getPiece] then reads the stored value on that square, what
    it read before on every other square, and [null] off the board. *)
Theorem setPiece_then_getPiece (g : ChessGame) (row col : Z)
    (piece : option Piece) :
  wfBoard (board g) ->
  exists g',
    setPiece row col piece g = Some (tt, g')
    ∧ wfBoard (board g')
    ∧ g' = set_board (board g') g
    ∧ (~ onBoard row col -> g' = g)
    ∧ (onBoard row col -> getPiece g' row col = piece)
    ∧ (forall r c, (r, c) <> (row, col) -> getPiece g' r c = getPiece g r c)
    ∧ (forall r c, ~ onBoard r c -> getPiece g' r c = None).
Proof.
  intros Hwf. exists (putPiece row col piece g).
  split; [apply setPiece_eq|].
  split; [by apply wfBoard_putPiece|].
  split; [apply putPiece_frame|].
  split; [intros Hoff; unfold putPiece; by rewrite decide_False|].
  split; [|split].
  - intros Hon. rewrite getPiece_putPiece by exact Hwf.
    by rewrite decide_True.
  - intros r c Hne. rewrite getPiece_putPiece by exact Hwf.
    rewrite decide_False; [reflexivity|]. intros (_ & -> & ->). by apply Hne.
  - intros r c Hoff. unfold getPiece. rewrite decide_True; [reflexivity|].
    unfold onBoard in Hoff. lia.
Qed.

Lemma setPiece_then_getPiece_witness :
  exists g',
    setPiece 4 4 (Some (createPiece QUEEN WHITE)) reset = Some (tt, g')
    ∧ getPiece g' 4 4 = Some (createPiece QUEEN WHITE)
    ∧ getPiece g' 7 3 = Some (createPiece QUEEN WHITE)
    ∧ getPiece g' 8 3 = None.
Proof.
  destruct (setPiece_then_getPiece reset 4 4 (Some (createPiece QUEEN WHITE))
              wfBoard_initial)
    as (g' & Hset & _ & _ & _ & Hsame & Hother & Hoff).
  exists g'. split; [exact Hset|]. split.
  - apply Hsame. unfold onBoard. lia.
  - split.
    + rewrite Hother; [reflexivity|discriminate].
    + apply Hoff. unfold onBoard. lia.
Defined.

(** ** The king *)

Lemma find_first {A} (f : A -> bool) (l : list A) x :
  find f l = Some x ->
  exists l1 l2, l = l1 ++ x :: l2 ∧ f x = true ∧ Forall (fun y => f y = false) l1.
Proof.
  induction l as [|y l IH]; [discriminate|]. cbn [find].
  destruct (f y) eqn:Hy.
  - intros [= ->]. exists [], l. split; [reflexivity|]. split; [exact Hy|constructor].
  - intros (l1 & l2 & -> & Hx & Hl1)%IH.
    exists (y :: l1), l2. split; [reflexivity|]. split; [exact Hx|].
    by constructor.
Qed.

Lemma find_none {A} (f : A -> bool) (l : list A) :
  find f l = None -> Forall (fun y => f y = false) l.
Proof.
  induction l as [|y l IH]; [constructor|]. cbn [find].
  destruct (f y) eqn:Hy; [discriminate|]. intros H. constructor; auto.
Qed.

Lemma allSquares_increasing : increasing allSquares = true.
Proof. vm_compute. reflexivity. Qed.

(** X2: [findKing] returns the first square, in row-major order, that
    holds a king of the given colour, and [null] exactly when no square of
    the board holds one; without a king [isInCheck] answers [false]. *)
Theorem findKing_first_king (g : ChessGame) (clr : COLORS) :
  match findKing g clr with
  | Some (row, col) =>
      onBoard row col
      ∧ isKingOf clr (getPiece g row col) = true
      ∧ forall r c, isKingOf clr (getPiece g r c) = true ->
                    (r, c) = (row, col) ∨ squareBefore (row, col) (r, c)
  | None =>
      (forall r c, isKingOf clr (getPiece g r c) = false)
      ∧ isInCheck g clr = false
  end.
Proof.
  assert (forall r c, isKingOf clr (getPiece g r c) = true -> (r, c) ∈ allSquares)
    as Hin.
  { intros r c Hk. apply allSquares_elem.
    destruct (getPiece g r c) as [p|] eqn:Hp; [|discriminate].
    eapply getPiece_onBoard, Hp. }
  unfold isInCheck.
  assert (findKing g clr
          = find (fun sq => isKingOf clr (getPiece g sq.1 sq.2)) allSquares) as Hfind.
  { unfold findKing. generalize allSquares. intros l.
    induction l as [|[r c] l IH]; [reflexivity|]. cbn [find fst snd].
    unfold isKingOf at 1. rewrite IH. reflexivity. }
  destruct (findKing g clr) as [[row col]|] eqn:Hk.
  - symmetry in Hfind. apply find_first in Hfind as (l1 & l2 & Hsplit & Hking & Hl1).
    cbn [fst snd] in Hking.
    split; [|split; [exact Hking|]].
    + apply allSquares_elem. rewrite Hsplit. apply elem_of_app. right. by left.
    + intros r c Hrc. specialize (Hin r c Hrc). rewrite Hsplit in Hin.
      apply elem_of_app in Hin as [Hin|Hin].
      * rewrite Forall_forall in Hl1. specialize (Hl1 _ Hin). cbn in Hl1.
        congruence.
      * apply elem_of_cons in Hin as [->|Hin]; [by left|]. right.
        pose proof allSquares_increasing as Hinc. rewrite Hsplit in Hinc.
        clear -Hinc Hin.
        induction l1 as [|a l1 IH]; cbn [increasing app] in Hinc.
        -- apply andb_true_iff in Hinc as [Ha _].
           rewrite forallb_forall in Ha. specialize (Ha (r, c)).
           rewrite bool_decide_eq_true in Ha. apply Ha.
           by apply list_elem_of_In.
        -- apply andb_true_iff in Hinc as [_ Hrest]. by apply IH.
  - split; [|reflexivity].
    symmetry in Hfind. apply find_none in Hfind.
    intros r c. destruct (isKingOf clr (getPiece g r c)) eqn:Hrc; [|reflexivity].
    rewrite Forall_forall in Hfind. specialize (Hfind _ (Hin r c Hrc)).
    cbn in Hfind. congruence.
Qed.

(** ** Where the generated moves land *)

Lemma offsetMoves_captureOk g r c piece moves offsets :
  Forall (captureOk g) moves ->
  Forall (captureOk g) (offsetMoves g r c piece moves offsets).
Proof.
  unfold offsetMoves. revert moves.
  induction offsets as [|[dr dc] offsets IH]; intros moves Hm; [exact Hm|].
  cbn [foldl]. apply IH.
  case_decide; [|exact Hm].
  destruct (emptyOrEnemy _ piece); [|exact Hm].
  apply Forall_app. split; [exact Hm|]. constructor; [|constructor].
  right. reflexivity.
Qed.

Lemma slide_captureOk fuel g piece dr dc r c moves :
  Forall (captureOk g) moves ->
  Forall (captureOk g) (slide fuel g piece dr dc r c moves).
Proof.
  revert r c moves.
  induction fuel as [|fuel IH]; intros r c moves Hm; [exact Hm|].
  cbn [slide]. case_decide; [|exact Hm].
  destruct (getPiece g r c) as [target|] eqn:Ht.
  - case_decide; [|exact Hm].
    apply Forall_app. split; [exact Hm|]. constructor; [|constructor].
    right. cbn. by rewrite Ht.
  - apply IH. apply Forall_app. split; [exact Hm|]. constructor; [|constructor].
    right. cbn. by rewrite Ht.
Qed.

Lemma getSlidingMoves_captureOk g r c piece moves directions :
  Forall (captureOk g) moves ->
  Forall (captureOk g) (getSlidingMoves g r c piece moves directions).
Proof.
  unfold getSlidingMoves. revert moves.
  induction directions as [|[dr dc] directions IH]; intros moves Hm; [exact Hm|].
  cbn [foldl]. apply IH. by apply slide_captureOk.
Qed.

Lemma getCastlingMoves_captureOk g r c piece moves :
  Forall (captureOk g) moves ->
  Forall (captureOk g) (getCastlingMoves g r c piece moves).
Proof.
  intros Hm. unfold getCastlingMoves, getCastlingMovesWith.
  set (moves1 := match getPiece g r 7 with Some _ => _ | None => moves end).
  assert (Forall (captureOk g) moves1) as Hm1.
  { subst moves1. destruct (getPiece g r 7) as [rook|]; [|exact Hm].
    case_decide; [|exact Hm].
    case_decide as Hempty; [|exact Hm]. destruct Hempty as [_ H6].
    destruct (_ && _); [|exact Hm].
    apply Forall_app. split; [exact Hm|]. constructor; [|constructor].
    right. cbn. by rewrite H6. }
  clearbody moves1.
  destruct (getPiece g r 0) as [rook|]; [|exact Hm1].
  case_decide; [|exact Hm1].
  case_decide as Hempty; [|exact Hm1]. destruct Hempty as (_ & H2 & _).
  destruct (_ && _); [|exact Hm1].
  apply Forall_app. split; [exact Hm1|]. constructor; [|constructor].
  right. cbn. by rewrite H2.
Qed.

Lemma getRawMoves_captureOk g r c piece m :
  onBoard r c ->
  m ∈ getRawMoves g r c piece false -> captureOk g m.
Proof.
  intros Hon Hin.
  destruct (decide (type piece = PAWN)) as [Hpawn|Hpawn].
  - pose proof (getRawMoves_raw g r c piece Hon) as Hraw.
    rewrite Forall_forall in Hraw. specialize (Hraw _ Hin).
    destruct Hraw as [tr tc cap Hty| Hty _ Hnone | Hty _ _ Hnone
                     | dc Hty _ _ Henemy | dc Hty _ _ _ | rook Hty | rook Hty];
      try congruence.
    + right. cbn. by rewrite Hnone.
    + right. cbn. by rewrite Hnone.
    + right. cbn. by destruct (getPiece g _ _).
    + by left.
  - revert m Hin. apply Forall_forall.
    unfold getRawMoves, getRawMovesWith.
    destruct (type piece) eqn:Hty; try congruence.
    + unfold getKingMovesWith.
      destruct (_ && _).
      * apply getCastlingMoves_captureOk, offsetMoves_captureOk. constructor.
      * apply offsetMoves_captureOk. constructor.
    + apply getSlidingMoves_captureOk. constructor.
    + apply getSlidingMoves_captureOk. constructor.
    + apply getSlidingMoves_captureOk. constructor.
    + apply offsetMoves_captureOk. constructor.
Qed.

(** X3: every move [getRawMoves] generates for the piece on [(row, col)]
    lands on the board and off the piece's own square; unless it is an
    en-passant capture, its destination is empty or holds an enemy piece,
    never a piece of the mover's colour, and its [capture] flag is set
    exactly when the destination is occupied; an en-passant capture is a
    pawn move onto the en-passant target, flagged as a capture. *)
Theorem getRawMoves_destinations (g : ChessGame) (row col : Z)
    (piece : Piece) (move : MoveInfo.t) :
  getPiece g row col = Some piece ->
  move ∈ getRawMoves g row col piece false ->
  onBoard (MoveInfo.row move) (MoveInfo.col move)
  ∧ (MoveInfo.row move, MoveInfo.col move) <> (row, col)
  ∧ (MoveInfo.enPassant move = false ->
     emptyOrEnemy (getPiece g (MoveInfo.row move) (MoveInfo.col move)) piece
       = true
     ∧ MoveInfo.capture move
       = truthy (getPiece g (MoveInfo.row move) (MoveInfo.col move)))
  ∧ (MoveInfo.enPassant move = true ->
     type piece = PAWN ∧ MoveInfo.capture move = true
     ∧ enPassantTarget g = Some (MoveInfo.row move, MoveInfo.col move)).
Proof.
  intros Hp Hin.
  pose proof (getPiece_onBoard _ _ _ _ Hp) as Hon.
  pose proof (getRawMoves_raw g row col piece Hon) as Hraw.
  rewrite Forall_forall in Hraw. specialize (Hraw _ Hin).
  destruct (RawMove_dest _ _ _ _ _ Hp Hraw) as [Hdest Hne].
  pose proof (getRawMoves_captureOk _ _ _ _ _ Hon Hin) as Hcap.
  split; [exact Hdest|]. split; [intros [= ? ?]; by apply Hne|].
  split.
  - intros Hep. destruct Hcap as [Hcap|Hcap]; [congruence|].
    split; [|exact Hcap].
    destruct Hraw as [tr tc cap _ _ He| _ _ Hnone | _ _ _ Hnone
                     | dc _ _ _ Henemy | dc _ _ _ _
                     | rook _ _ _ _ _ _ _ H6 | rook _ _ _ _ _ _ _ H2];
      cbn [MoveInfo.row MoveInfo.col MoveInfo.enPassant] in *;
      try (rewrite ?Hnone, ?H6, ?H2; reflexivity); try discriminate.
    + exact He.
    + revert Henemy. unfold isEnemy, emptyOrEnemy.
      destruct (getPiece g (row + pawnDirection piece) (col + dc));
        [auto|discriminate].
  - intros Hep.
    destruct Hraw; cbn [MoveInfo.enPassant] in Hep; try discriminate.
    cbn. auto.
Qed.

Lemma getRawMoves_destinations_witness :
  onBoard 5 2
  ∧ emptyOrEnemy (getPiece reset 5 2) (createPiece KNIGHT WHITE) = true.
Proof.
  destruct (getRawMoves_destinations reset 7 1 (createPiece KNIGHT WHITE)
              (MoveInfo.mk 5 2 false false false false None))
    as (Hon & _ & Hstep & _).
  - reflexivity.
  - vm_compute. apply list_elem_of_further, list_elem_of_here.
  - split; [exact Hon|]. apply Hstep. reflexivity.
Defined.

(** ** The legal moves *)

(** X4: [getValidMoves] returns and leaves the game as it found it (the
    board and the en-passant target are restored after every simulated
    move); the result is empty for an empty square and for a piece of
    the side not to move; otherwise it is the list of raw moves, in their
    order, without those after whose simulation the mover's king is in
    check. *)
Theorem getValidMoves_filters_raw_moves (g : ChessGame) (row col : Z) :
  exists moves,
    getValidMoves row col g = Some (moves, g)
    ∧ (getPiece g row col = None -> moves = [])
    ∧ forall piece,
        getPiece g row col = Some piece ->
        (color piece <> currentTurn g -> moves = [])
        ∧ sublist moves (getRawMoves g row col piece false)
        ∧ (color piece = currentTurn g ->
           forall move,
             move ∈ moves <->
             move ∈ getRawMoves g row col piece false
             ∧ exists g1,
                 simulateMove row col (MoveInfo.row move) (MoveInfo.col move)
                              (Some move) g = Some (tt, g1)
                 ∧ isInCheck g1 (color piece) = false).
Proof.
  exists (legalMoves g row col). split; [apply getValidMoves_eq|].
  unfold legalMoves. split; [by intros ->|].
  intros piece Hp. rewrite Hp. split; [|split].
  - intros Hne. by rewrite decide_True.
  - case_decide; [apply sublist_nil_l|apply sublist_filter].
  - intros Hturn move. rewrite decide_False by (intros Hne; by apply Hne).
    rewrite list_elem_of_filter.
    rewrite (simulateMove_eq _ _ piece) by exact Hp. split.
    + intros [Hchk Hin]. split; [exact Hin|]. by eexists.
    + intros [Hin (g1 & [= <-] & Hchk)]. by split.
Qed.

Lemma getValidMoves_filters_raw_moves_witness :
  exists moves,
    getValidMoves 6 4 reset = Some (moves, reset)
    ∧ sublist moves (getRawMoves reset 6 4 (createPiece PAWN WHITE) false).
Proof.
  destruct (getValidMoves_filters_raw_moves reset 6 4)
    as (moves & Hrun & _ & Hpiece).
  exists moves. split; [exact Hrun|].
  apply (Hpiece (createPiece PAWN WHITE)). reflexivity.
Defined.

Lemma allLegalMoves_elem g clr cand :
  cand ∈ allLegalMoves g clr <->
  exists r c piece m,
    getPiece g r c = Some piece ∧ color piece = clr
    ∧ m ∈ legalMoves g r c
    ∧ cand = Candidate.mk (r, c) m piece.
Proof.
  unfold allLegalMoves.
  assert (forall squares acc,
    cand ∈ foldl (fun allMoves '(row, col) =>
              match getPiece g row col with
              | Some piece =>
                  if decide (color piece = clr) then
                    allMoves ++
                      ((fun move => Candidate.mk (row, col) move piece)
                         <$> legalMoves g row col)
                  else allMoves
              | None => allMoves
              end) acc squares
    <-> cand ∈ acc
        ∨ exists r c piece m,
            (r, c) ∈ squares ∧ getPiece g r c = Some piece ∧ color piece = clr
            ∧ m ∈ legalMoves g r c ∧ cand = Candidate.mk (r, c) m piece) as Hfold.
  { induction squares as [|[r c] squares IH]; intros acc; cbn [foldl].
    - split; [by left|]. intros [H|(r & c & p & m & H & _)]; [exact H|].
      by apply elem_of_nil in H.
    - rewrite IH. split.
      + intros [Hacc|(r' & c' & p & m & Hsq & Hrest)].
        * destruct (getPiece g r c) as [piece|] eqn:Hp; [|by left].
          case_decide as Hclr; [|by left].
          apply elem_of_app in Hacc as [Hacc|Hnew]; [by left|].
          apply list_elem_of_fmap in Hnew as (m & -> & Hm).
          right. exists r, c, piece, m. split; [by left|]. auto.
        * right. exists r', c', p, m. split; [by right|]. exact Hrest.
      + intros [Hacc|(r' & c' & p & m & Hsq & Hp & Hclr & Hm & ->)].
        * left. destruct (getPiece g r c) as [piece|]; [|exact Hacc].
          case_decide; [|exact Hacc]. apply elem_of_app. by left.
        * apply elem_of_cons in Hsq as [[= -> ->]|Hsq].
          -- left. rewrite Hp. rewrite decide_True by exact Hclr.
             apply elem_of_app. right. apply list_elem_of_fmap. by exists m.
          -- right. exists r', c', p, m. auto. }
  rewrite Hfold. split.
  - intros [H|(r & c & p & m & _ & Hrest)]; [by apply elem_of_nil in H|].
    by exists r, c, p, m.
  - intros (r & c & p & m & Hp & Hrest). right. exists r, c, p, m.
    split; [|by split].
    apply allSquares_elem. eapply getPiece_onBoard, Hp.
Qed.

(** X5: [getAllValidMoves(color)] returns and leaves the game as it found
    it; its candidates are exactly the triples of a square holding a
    piece of that colour, that piece, and one of the moves
    [getValidMoves] returns for the square; asked for the side that is
    not to move, it returns nothing. *)
Theorem getAllValidMoves_collects_legal_moves (g : ChessGame) (clr : COLORS) :
  exists moves,
    getAllValidMoves clr g = Some (moves, g)
    ∧ (clr <> currentTurn g -> moves = [])
    ∧ forall candidate,
        candidate ∈ moves <->
        exists row col destinations,
          Candidate.from candidate = (row, col)
          ∧ getPiece g row col = Some (Candidate.piece candidate)
          ∧ color (Candidate.piece candidate) = clr
          ∧ run (getValidMoves row col) g = Some destinations
          ∧ Candidate.to candidate ∈ destinations.
Proof.
  exists (allLegalMoves g clr). split; [apply getAllValidMoves_eq|]. split.
  - intros Hne.
    destruct (allLegalMoves g clr) as [|cand rest] eqn:Hall; [reflexivity|].
    assert (cand ∈ allLegalMoves g clr) as Hin by (rewrite Hall; by left).
    apply allLegalMoves_elem in Hin as (r & c & p & m & Hp & Hclr & Hm & _).
    apply legalMoves_elem in Hm as (p' & Hp' & Hturn & _).
    congruence.
  - intros cand. rewrite allLegalMoves_elem. split.
    + intros (r & c & p & m & Hp & Hclr & Hm & ->).
      exists r, c, (legalMoves g r c). cbn.
      repeat split; try assumption. by apply run_getValidMoves.
    + intros (r & c & ms & Hfrom & Hp & Hclr & Hrun & Hto).
      apply run_getValidMoves in Hrun. subst ms.
      exists r, c, (Candidate.piece cand), (Candidate.to cand).
      repeat split; try assumption.
      destruct cand as [from to p]. cbn in *. by subst.
Qed.

Lemma getAllValidMoves_collects_legal_moves_witness :
  getAllValidMoves BLACK reset = Some ([], reset).
Proof.
  destruct (getAllValidMoves_collects_legal_moves reset BLACK)
    as (moves & Hrun & Hnil & _).
  rewrite Hrun, Hnil; [reflexivity|discriminate].
Defined.

(** ** The bookkeeping of [makeMove], [checkGameState] and [undoMove] *)

(** X6: a successful [makeMove] plays the first stored move that lands
    on the destination; it pushes exactly one record on the history,
    holding the two squares, the moved piece as it was, the piece taken,
    the flags of the move, the promotion choice and the en-passant target
    it replaces; the piece taken is appended to the captured list of the
    mover's colour and the other list is left alone; [lastMove] is the
    move, the turn passes, and the selection fields are not touched. *)
Theorem makeMove_bookkeeping (g g' : ChessGame)
    (fromRow fromCol toRow toCol : Z) (promotionPiece : option PIECES) :
  makeMove fromRow fromCol toRow toCol promotionPiece g = Some (true, g') ->
  exists piece moveInfo,
    getPiece g fromRow fromCol = Some piece
    ∧ find (landsOn toRow toCol) (validMoves g) = Some moveInfo
    ∧ moveHistory g' =
        moveHistory g ++
        [ MoveRecord.mk (fromRow, fromCol) (toRow, toCol) piece
            (victimOf g piece moveInfo toRow toCol)
            (MoveInfo.castling moveInfo) (MoveInfo.enPassant moveInfo)
            (MoveInfo.promotion moveInfo) promotionPiece (enPassantTarget g) ]
    ∧ capturedBy (color piece) (capturedPieces g') =
        capturedBy (color piece) (capturedPieces g)
        ++ option_list (victimOf g piece moveInfo toRow toCol)
    ∧ capturedBy (opponent (color piece)) (capturedPieces g') =
        capturedBy (opponent (color piece)) (capturedPieces g)
    ∧ lastMove g' = Some ((fromRow, fromCol), (toRow, toCol))
    ∧ currentTurn g' = opponent (currentTurn g)
    ∧ selectedPiece g' = selectedPiece g
    ∧ validMoves g' = validMoves g.
Proof.
  intros Hmove.
  destruct (makeMove_success _ _ _ _ _ _ _ Hmove)
    as (piece & m & b' & Hp & Hfind & Hb & ->).
  exists piece, m. split; [exact Hp|]. split; [exact Hfind|].
  rewrite moveHistory_checked, capturedPieces_checked, lastMove_checked,
    currentTurn_checked, selectedPiece_checked, validMoves_checked.
  cbn [moveHistory capturedPieces lastMove currentTurn selectedPiece
       validMoves played].
  assert (capturedOf toRow toCol piece m (board g)
          = victimOf g piece m toRow toCol) as Hvictim by reflexivity.
  rewrite Hvictim.
  split.
  { unfold recordOf. rewrite Hvictim, spread_id.
    destruct (victimOf g piece m toRow toCol) as [v|]; cbn [fmap option_fmap option_map];
      rewrite ?spread_id; reflexivity. }
  split; [|split; [|by repeat split]].
  - destruct (victimOf g piece m toRow toCol) as [v|]; cbn [option_list].
    + destruct (color piece), (capturedPieces g); reflexivity.
    + by rewrite app_nil_r.
  - destruct (victimOf g piece m toRow toCol) as [v|]; [|reflexivity].
    destruct (color piece), (capturedPieces g); reflexivity.
Qed.

Lemma makeMove_bookkeeping_witness :
  exists g',
    makeMove 6 4 4 4 None (selected reset 6 4) = Some (true, g')
    ∧ length (moveHistory g') = 1%nat
    ∧ lastMove g' = Some ((6, 4), (4, 4)).
Proof.
  assert (exists g', makeMove 6 4 4 4 None (selected reset 6 4) = Some (true, g'))
    as [g' Hmove] by (eexists; vm_compute; reflexivity).
  exists g'. split; [exact Hmove|].
  destruct (makeMove_bookkeeping _ _ _ _ _ _ _ Hmove)
    as (piece & m & _ & _ & Hh & _ & _ & Hl & _).
  split; [|exact Hl]. rewrite Hh, length_app. reflexivity.
Defined.

Lemma run_getAllValidMoves g clr moves :
  run (getAllValidMoves clr) g = Some moves <-> moves = allLegalMoves g clr.
Proof.
  unfold run. rewrite getAllValidMoves_eq.
  generalize (allLegalMoves g clr). intros all. cbn. split; congruence.
Qed.

Lemma checked_eq g :
  checked g =
    if hasLegalMove g allSquares then
      set_isCheck (isInCheck g (currentTurn g)) g
    else
      set_winner
        (Some (if isInCheck g (currentTurn g)
               then Won (opponent (currentTurn g)) else draw))
        (set_gameOver true (set_isCheck (isInCheck g (currentTurn g)) g)).
Proof.
  unfold checked.
  rewrite (sameCore_hasLegalMove _ _ (sameCore_set_isCheck _ g)).
  generalize (isInCheck g (currentTurn g)). intros inCheck.
  generalize (hasLegalMove g allSquares). intros hasMove.
  destruct hasMove, inCheck; reflexivity.
Qed.

(** X7: [checkGameState] returns and writes [isCheck], [gameOver] and
    [winner] only; [isCheck] becomes whether the side to move is in
    check; the game is over afterwards exactly if it was before or the
    side to move has no legal move, in which case the winner is the
    other side when in check and a draw otherwise; a game that is over is
    never reopened, and a second call changes nothing. *)
Theorem checkGameState_flags (g : ChessGame) :
  exists g',
    checkGameState g = Some (tt, g')
    ∧ g' = set_winner (winner g') (set_gameOver (gameOver g')
             (set_isCheck (isCheck g') g))
    ∧ isCheck g' = isInCheck g (currentTurn g)
    ∧ (forall moves,
         run (getAllValidMoves (currentTurn g)) g = Some moves ->
         (moves = [] ->
          gameOver g' = true
          ∧ winner g' = Some (if isCheck g'
                              then Won (opponent (currentTurn g)) else draw))
         ∧ (moves <> [] -> gameOver g' = gameOver g ∧ winner g' = winner g))
    ∧ checkGameState g' = Some (tt, g').
Proof.
  exists (checked g). split; [apply checkGameState_eq|].
  rewrite checkGameState_eq.
  assert (hasLegalMove (checked g) allSquares = hasLegalMove g allSquares) as Hsame
    by apply (sameCore_hasLegalMove _ _ (sameCore_checked g)).
  assert (isInCheck (checked g) (currentTurn (checked g))
          = isInCheck g (currentTurn g)) as Hsame'.
  { rewrite currentTurn_checked. apply isInCheck_same_board, board_checked. }
  assert (forall moves,
            run (getAllValidMoves (currentTurn g)) g = Some moves ->
            (moves = [] <-> hasLegalMove g allSquares = false)) as Hmoves.
  { intros moves ->%run_getAllValidMoves. apply allLegalMoves_nil. }
  rewrite (checked_eq (checked g)), Hsame, Hsame', currentTurn_checked.
  rewrite (checked_eq g).
  revert Hmoves.
  generalize (run (getAllValidMoves (currentTurn g)) g). intros result.
  generalize (isInCheck g (currentTurn g)). intros inCheck.
  generalize (hasLegalMove g allSquares). intros hasMove Hmoves.
  destruct hasMove.
  - split; [by destruct g|]. split; [reflexivity|]. split; [|by destruct g].
    intros moves Hrun. apply Hmoves in Hrun. split.
    + intros Hnil. apply Hrun in Hnil. discriminate.
    + intros _. split; reflexivity.
  - split; [by destruct g|]. split; [reflexivity|]. split; [|by destruct g].
    intros moves Hrun. apply Hmoves in Hrun. split.
    + intros _. split; reflexivity.
    + intros Hne. exfalso. apply Hne, Hrun. reflexivity.
Qed.

Lemma checkGameState_flags_witness :
  exists g',
    checkGameState reset = Some (tt, g')
    ∧ gameOver g' = false ∧ winner g' = None ∧ isCheck g' = false.
Proof.
  destruct (checkGameState_flags reset) as (g' & Hrun & _ & Hchk & Hmoves & _).
  exists g'. split; [exact Hrun|].
  destruct (Hmoves (allLegalMoves reset WHITE)) as [_ Hsome].
  - apply run_getAllValidMoves. reflexivity.
  - destruct Hsome as [Hover Hwin]; [vm_compute; discriminate|].
    split; [exact Hover|]. split; [exact Hwin|]. rewrite Hchk. reflexivity.
Defined.

Lemma last_removelast {A} (l : list A) x :
  last l = Some x -> l = removelast l ++ [x].
Proof.
  induction l as [|a l IH]; [discriminate|].
  destruct l as [|b l]; [by intros [= ->]|].
  intros Hl. cbn [removelast app]. f_equal. by apply IH.
Qed.

(** X8: when [undoMove] returns, it returns [false] exactly if the
    history was empty, and then nothing has changed; otherwise it has
    popped the last record, handed the turn back, restored the
    en-passant target saved in the record, reopened the game
    ([gameOver] false, no winner) whatever its status was, recomputed
    [isCheck] for the side now to move and [lastMove] from the record
    below, popped the mover's captured list when the record holds a
    captured piece, and left the selection fields alone. *)
Theorem undoMove_bookkeeping (g g' : ChessGame) (undone : bool) :
  undoMove g = Some (undone, g') ->
  (undone = false <-> moveHistory g = [])
  ∧ (undone = false -> g' = g)
  ∧ (undone = true ->
     exists move,
       moveHistory g = moveHistory g' ++ [move]
       ∧ currentTurn g' = opponent (currentTurn g)
       ∧ enPassantTarget g' = MoveRecord.previousEnPassant move
       ∧ gameOver g' = false ∧ winner g' = None
       ∧ isCheck g' = isInCheck g' (currentTurn g')
       ∧ lastMove g' = lastOf (moveHistory g')
       ∧ capturedBy (color (MoveRecord.piece move)) (capturedPieces g') =
           match MoveRecord.captured move with
           | Some _ =>
               removelast (capturedBy (color (MoveRecord.piece move))
                             (capturedPieces g))
           | None => capturedBy (color (MoveRecord.piece move)) (capturedPieces g)
           end
       ∧ capturedBy (opponent (color (MoveRecord.piece move)))
                    (capturedPieces g')
         = capturedBy (opponent (color (MoveRecord.piece move)))
                      (capturedPieces g)
       ∧ selectedPiece g' = selectedPiece g
       ∧ validMoves g' = validMoves g).
Proof.
  intros Hundo.
  destruct (last (moveHistory g)) as [move|] eqn:Hlast.
  - rewrite (undoMove_eq _ _ Hlast), reverted_normal in Hundo.
    set (g0 := set_moveHistory (removelast (moveHistory g)) g) in *.
    destruct (revertedBoard move (board g0)) as [b|]; [|discriminate].
    cbn [mbind option_bind] in Hundo. injection Hundo as <- <-.
    assert (moveHistory g <> []) as Hne by (intros Hnil; by rewrite Hnil in Hlast).
    split; [split; [discriminate|contradiction]|].
    split; [discriminate|]. intros _. exists move.
    assert (color (restoredPiece move) = color (MoveRecord.piece move)) as Hcolor.
    { unfold restoredPiece.
      destruct (MoveRecord.promotionPiece move), (MoveRecord.promotion move),
        (MoveRecord.piece move); reflexivity. }
    cbn [moveHistory currentTurn enPassantTarget gameOver winner isCheck
         lastMove capturedPieces selectedPiece validMoves g0 set_moveHistory].
    unfold restoredPiece, withHasMoved in Hcolor. cbn [color] in Hcolor.
    rewrite Hcolor.
    split; [by apply last_removelast|].
    do 4 (split; [reflexivity|]).
    split; [apply isInCheck_same_board; reflexivity|].
    split; [reflexivity|].
    split; [|split; [|split; reflexivity]].
    + destruct (MoveRecord.captured move); [|reflexivity].
      destruct (color (MoveRecord.piece move)), (capturedPieces g); reflexivity.
    + destruct (MoveRecord.captured move); [|reflexivity].
      destruct (color (MoveRecord.piece move)), (capturedPieces g); reflexivity.
  - assert (moveHistory g = []) as Hnil.
    { destruct (moveHistory g) as [|a l] eqn:Hh; [reflexivity|].
      exfalso. clear -Hlast. revert a Hlast.
      induction l as [|b l IH]; intros a; [discriminate|]. apply IH. }
    rewrite (undoMove_empty _ Hnil) in Hundo. injection Hundo as <- <-.
    split; [by split|]. split; [reflexivity|discriminate].
Qed.

Lemma undoMove_bookkeeping_witness :
  undoMove reset = Some (false, reset)
  ∧ (false = false <-> moveHistory reset = []).
Proof.
  split; [reflexivity|].
  apply (undoMove_bookkeeping reset reset false). reflexivity.
Defined.

(** ** The search's attack detection against the engine's *)

Lemma rayClear_0 g r c dr dc : rayClear g r c dr dc 0.
Proof. intros j Hj. lia. Qed.

Lemma rayClear_S g r c dr dc k :
  rayClear g r c dr dc (S k) <->
  onBoard r c ∧ getPiece g r c = None ∧ rayClear g (r + dr) (c + dc) dr dc k.
Proof.
  split.
  - intros H. pose proof (H 0%nat ltac:(lia)) as H0.
    replace (r + Z.of_nat 0 * dr) with r in H0 by lia.
    replace (c + Z.of_nat 0 * dc) with c in H0 by lia.
    destruct H0 as [Hon Hnone]. split; [exact Hon|]. split; [exact Hnone|].
    intros j Hj. specialize (H (S j) ltac:(lia)).
    replace (r + dr + Z.of_nat j * dr) with (r + Z.of_nat (S j) * dr) by lia.
    replace (c + dc + Z.of_nat j * dc) with (c + Z.of_nat (S j) * dc) by lia.
    exact H.
  - intros (Hon & Hnone & H) j Hj. destruct j as [|j].
    + replace (r + Z.of_nat 0 * dr) with r by lia.
      replace (c + Z.of_nat 0 * dc) with c by lia. by split.
    + specialize (H j ltac:(lia)).
      replace (r + Z.of_nat (S j) * dr) with (r + dr + Z.of_nat j * dr) by lia.
      replace (c + Z.of_nat (S j) * dc) with (c + dc + Z.of_nat j * dc) by lia.
      exact H.
Qed.

Lemma existsb_snoc {A} (f : A -> bool) l x :
  existsb f (l ++ [x]) = existsb f l || f x.
Proof. rewrite existsb_app. cbn. by rewrite orb_false_r. Qed.

(** Where the [while] loop of [getSlidingMoves] lands. *)
Lemma slide_lands fuel g piece dr dc r c moves row col :
  existsb (landsOn row col) (slide fuel g piece dr dc r c moves) = true <->
  existsb (landsOn row col) moves = true
  ∨ exists k : nat,
      (k < fuel)%nat ∧ rayClear g r c dr dc k
      ∧ row = r + Z.of_nat k * dr ∧ col = c + Z.of_nat k * dc
      ∧ onBoard row col
      ∧ emptyOrEnemy (getPiece g row col) piece = true.
Proof.
  revert r c moves.
  induction fuel as [|fuel IH]; intros r c moves; cbn [slide].
  { split; [by left|]. intros [H|(k & Hk & _)]; [exact H|lia]. }
  destruct (decide (onBoard r c)) as [Hon|Hoff].
  2:{ split; [by left|]. intros [H|(k & _ & Hclear & -> & -> & Hon & _)]; [exact H|].
      destruct k as [|k].
      - exfalso. apply Hoff.
        replace (r + Z.of_nat 0 * dr) with r in Hon by lia.
        replace (c + Z.of_nat 0 * dc) with c in Hon by lia. exact Hon.
      - apply rayClear_S in Hclear as [Hon' _]. contradiction. }
  destruct (getPiece g r c) as [target|] eqn:Ht.
  - assert (existsb (landsOn row col)
              (if decide (color target ≠ color piece)
               then moves ++ [MoveInfo.mk r c true false false false None]
               else moves) = true
            <-> existsb (landsOn row col) moves = true
                ∨ (row = r ∧ col = c
                   ∧ emptyOrEnemy (Some target) piece = true)) as ->.
    { unfold emptyOrEnemy. case_decide as Hclr.
      - rewrite existsb_snoc, orb_true_iff. unfold landsOn at 2.
        cbn [MoveInfo.row MoveInfo.col].
        rewrite !bool_decide_eq_true. split; intros [H|H]; auto.
        + right. destruct H as [<- <-]. auto.
        + right. destruct H as (-> & -> & _). auto.
      - rewrite bool_decide_eq_true. split; [by left|].
        intros [H|(_ & _ & H)]; [exact H|contradiction]. }
    split; (intros [H|H]; [by left|right]).
    + destruct H as (-> & -> & He). exists 0%nat.
      split; [lia|]. split; [apply rayClear_0|].
      split; [lia|]. split; [lia|]. split; [exact Hon|].
      by rewrite Ht.
    + destruct H as (k & _ & Hclear & -> & -> & _ & He).
      destruct k as [|k].
      * replace (r + Z.of_nat 0 * dr) with r in * by lia.
        replace (c + Z.of_nat 0 * dc) with c in * by lia.
        rewrite Ht in He. auto.
      * apply rayClear_S in Hclear as (_ & Hnone & _). congruence.
  - rewrite IH. rewrite existsb_snoc, orb_true_iff. unfold landsOn at 2.
    cbn [MoveInfo.plain MoveInfo.row MoveInfo.col].
    rewrite bool_decide_eq_true. split.
    + intros [[H|[<- <-]]|(k & Hk & Hclear & -> & -> & Hon' & He)].
      * by left.
      * right. exists 0%nat. split; [lia|]. split; [apply rayClear_0|].
        split; [lia|]. split; [lia|]. split; [exact Hon|]. by rewrite Ht.
      * right. exists (S k). split; [lia|].
        split; [apply rayClear_S; auto|].
        replace (r + Z.of_nat (S k) * dr) with (r + dr + Z.of_nat k * dr) by lia.
        replace (c + Z.of_nat (S k) * dc) with (c + dc + Z.of_nat k * dc) by lia.
        auto.
    + intros [H|(k & Hk & Hclear & -> & -> & Hon' & He)]; [by left; left|].
      destruct k as [|k].
      * left. right. split; lia.
      * right. exists k. split; [lia|].
        apply rayClear_S in Hclear as (_ & _ & Hclear).
        split; [exact Hclear|].
        replace (r + Z.of_nat (S k) * dr) with (r + dr + Z.of_nat k * dr) in * by lia.
        replace (c + Z.of_nat (S k) * dc) with (c + dc + Z.of_nat k * dc) in * by lia.
        auto.
Qed.

(** What the ray scan of [isSquareAttackedForMinimax] finds. *)
Lemma rayHits_spec fuel g byColor types dr dc r c :
  rayHits fuel g byColor types dr dc r c = true <->
  exists (k : nat) p,
    (k < fuel)%nat ∧ rayClear g r c dr dc k
    ∧ getPiece g (r + Z.of_nat k * dr) (c + Z.of_nat k * dc) = Some p
    ∧ color p = byColor ∧ type p ∈ types.
Proof.
  revert r c.
  induction fuel as [|fuel IH]; intros r c; cbn [rayHits].
  { split; [discriminate|]. intros (k & p & Hk & _). lia. }
  destruct (decide (onBoard r c)) as [Hon|Hoff].
  2:{ split; [discriminate|]. intros (k & p & _ & Hclear & Hp & _).
      destruct k as [|k].
      - exfalso. apply Hoff. apply getPiece_onBoard in Hp.
        replace (r + Z.of_nat 0 * dr) with r in Hp by lia.
        replace (c + Z.of_nat 0 * dc) with c in Hp by lia. exact Hp.
      - apply rayClear_S in Hclear as [Hon' _]. contradiction. }
  destruct (getPiece g r c) as [q|] eqn:Hq.
  - rewrite bool_decide_eq_true. split.
    + intros [Hc Hty]. exists 0%nat, q. split; [lia|]. split; [apply rayClear_0|].
      replace (r + Z.of_nat 0 * dr) with r by lia.
      replace (c + Z.of_nat 0 * dc) with c by lia. auto.
    + intros (k & p & _ & Hclear & Hp & Hc & Hty). destruct k as [|k].
      * replace (r + Z.of_nat 0 * dr) with r in Hp by lia.
        replace (c + Z.of_nat 0 * dc) with c in Hp by lia.
        rewrite Hq in Hp. injection Hp as ->. auto.
      * apply rayClear_S in Hclear as (_ & Hnone & _). congruence.
  - rewrite IH. split.
    + intros (k & p & Hk & Hclear & Hp & Hrest). exists (S k), p.
      split; [lia|]. split; [apply rayClear_S; auto|].
      replace (r + Z.of_nat (S k) * dr) with (r + dr + Z.of_nat k * dr) by lia.
      replace (c + Z.of_nat (S k) * dc) with (c + dc + Z.of_nat k * dc) by lia.
      auto.
    + intros (k & p & Hk & Hclear & Hp & Hrest). destruct k as [|k].
      * replace (r + Z.of_nat 0 * dr) with r in Hp by lia.
        replace (c + Z.of_nat 0 * dc) with c in Hp by lia. congruence.
      * exists k, p. split; [lia|].
        apply rayClear_S in Hclear as (_ & _ & Hclear). split; [exact Hclear|].
        replace (r + Z.of_nat (S k) * dr) with (r + dr + Z.of_nat k * dr) in Hp by lia.
        replace (c + Z.of_nat (S k) * dc) with (c + dc + Z.of_nat k * dc) in Hp by lia.
        auto.
Qed.

Lemma existsb_true_elem {A} (f : A -> bool) (l : list A) :
  existsb f l = true <-> exists x, x ∈ l ∧ f x = true.
Proof.
  rewrite existsb_exists. split; intros (x & Hin & Hf); exists x;
    (split; [by apply list_elem_of_In|exact Hf]).
Qed.

Lemma offsetMoves_lands g r c piece moves offsets row col :
  existsb (landsOn row col) (offsetMoves g r c piece moves offsets) = true <->
  existsb (landsOn row col) moves = true
  ∨ (offsetReaches offsets r c row col ∧ onBoard row col
     ∧ emptyOrEnemy (getPiece g row col) piece = true).
Proof.
  unfold offsetMoves, offsetReaches. revert moves.
  induction offsets as [|[dr dc] offsets IH]; intros moves; cbn [foldl].
  { split; [by left|]. intros [H|((dr & dc & Hin & _) & _)]; [exact H|].
    by apply elem_of_nil in Hin. }
  rewrite IH. clear IH.
  assert (existsb (landsOn row col)
            (if decide (onBoard (r + dr) (c + dc))
             then
               if emptyOrEnemy (getPiece g (r + dr) (c + dc)) piece
               then moves ++
                    [MoveInfo.mk (r + dr) (c + dc)
                       (truthy (getPiece g (r + dr) (c + dc)))
                       false false false None]
               else moves
             else moves) = true
          <-> existsb (landsOn row col) moves = true
              ∨ (row = r + dr ∧ col = c + dc ∧ onBoard row col
                 ∧ emptyOrEnemy (getPiece g row col) piece = true)) as ->.
  { case_decide as Hon.
    - destruct (emptyOrEnemy _ piece) eqn:He.
      + rewrite existsb_snoc, orb_true_iff. unfold landsOn at 2.
        cbn [MoveInfo.row MoveInfo.col]. rewrite bool_decide_eq_true.
        split; (intros [H|H]; [by left|right]).
        * destruct H as [<- <-]. auto.
        * destruct H as (-> & -> & _). auto.
      + split; [by left|]. intros [H|(-> & -> & _ & H)]; [exact H|congruence].
    - split; [by left|]. intros [H|(-> & -> & H & _)]; [exact H|contradiction]. }
  split.
  - intros [[H|(-> & -> & Hon & He)]|((dr' & dc' & Hin & -> & ->) & Hon & He)].
    + by left.
    + right. split; [|by split]. exists dr, dc. split; [by left|auto].
    + right. split; [|by split]. exists dr', dc'. split; [by right|auto].
  - intros [H|((dr' & dc' & Hin & -> & ->) & Hon & He)]; [by left; left|].
    apply elem_of_cons in Hin as [[= -> ->]|Hin].
    + left. right. auto.
    + right. split; [|by split]. exists dr', dc'. auto.
Qed.

Lemma getSlidingMoves_lands g r c piece moves directions row col :
  existsb (landsOn row col) (getSlidingMoves g r c piece moves directions)
    = true <->
  existsb (landsOn row col) moves = true
  ∨ (exists dr dc (k : nat),
       (dr, dc) ∈ directions ∧ (k < 8)%nat
       ∧ rayClear g (r + dr) (c + dc) dr dc k
       ∧ row = r + (Z.of_nat k + 1) * dr ∧ col = c + (Z.of_nat k + 1) * dc)
    ∧ onBoard row col
    ∧ emptyOrEnemy (getPiece g row col) piece = true.
Proof.
  unfold getSlidingMoves. revert moves.
  induction directions as [|[dr dc] directions IH]; intros moves; cbn [foldl].
  { split; [by left|]. intros [H|((dr & dc & k & Hin & _) & _)]; [exact H|].
    by apply elem_of_nil in Hin. }
  rewrite IH, slide_lands. clear IH. split.
  - intros [[H|(k & Hk & Hclear & -> & -> & Hon & He)]
           |((dr' & dc' & k & Hin & Hrest) & Hon & He)].
    + by left.
    + right. split; [|by split]. exists dr, dc, k.
      split; [by left|]. split; [exact Hk|]. split; [exact Hclear|]. lia.
    + right. split; [|by split]. exists dr', dc', k. split; [by right|exact Hrest].
  - intros [H|((dr' & dc' & k & Hin & Hk & Hclear & -> & ->) & Hon & He)];
      [by left; left|].
    apply elem_of_cons in Hin as [[= -> ->]|Hin].
    + left. right. exists k. split; [exact Hk|]. split; [exact Hclear|].
      replace (r + dr + Z.of_nat k * dr) with (r + (Z.of_nat k + 1) * dr) by lia.
      replace (c + dc + Z.of_nat k * dc) with (c + (Z.of_nat k + 1) * dc) by lia.
      auto.
    + right. split; [|by split]. exists dr', dc', k. auto.
Qed.

Lemma ray_within_board dr dc r c (k : nat) :
  (dr, dc) ∈ queenDirections -> onBoard r c ->
  onBoard (r + (Z.of_nat k + 1) * dr) (c + (Z.of_nat k + 1) * dc) ->
  (k < 7)%nat.
Proof.
  intros Hdir Hon Hon'.
  destruct (decide (k < 7)%nat) as [|Hge]; [assumption|]. exfalso.
  apply (ray_leaves_board dr dc r c (S k) Hdir Hon); [lia|].
  replace (Z.of_nat (S k)) with (Z.of_nat k + 1) by lia. exact Hon'.
Qed.

Lemma rookDirections_queen d : d ∈ rookDirections -> d ∈ queenDirections.
Proof. unfold rookDirections, queenDirections. rewrite !elem_of_cons. tauto. Qed.

Lemma bishopDirections_queen d : d ∈ bishopDirections -> d ∈ queenDirections.
Proof. unfold bishopDirections, queenDirections. rewrite !elem_of_cons. tauto. Qed.

Lemma queenDirections_split d :
  d ∈ queenDirections <-> d ∈ rookDirections ∨ d ∈ bishopDirections.
Proof.
  unfold rookDirections, bishopDirections, queenDirections.
  rewrite !elem_of_cons. tauto.
Qed.

(** The squares the engine's attack generation reaches from a piece. *)
Lemma attackMoves_lands g r c p row col :
  getPiece g r c = Some p ->
  existsb (landsOn row col) (attackMoves g r c p) = true <->
  onBoard row col ∧ attackedFrom g row col r c p
  ∧ (type p <> PAWN -> emptyOrEnemy (getPiece g row col) p = true).
Proof.
  intros Hp. pose proof (getPiece_onBoard _ _ _ _ Hp) as Hon.
  assert (forall directions,
    (forall d, d ∈ directions -> d ∈ queenDirections) ->
    existsb (landsOn row col) (getSlidingMoves g r c p [] directions) = true <->
    onBoard row col ∧ rayReaches g directions r c row col
    ∧ emptyOrEnemy (getPiece g row col) p = true) as Hslide.
  { intros directions Hsub. rewrite getSlidingMoves_lands. cbn [existsb].
    unfold rayReaches. split.
    - intros [|((dr & dc & k & Hin & _ & Hrest) & Hon' & He)]; [discriminate|].
      split; [exact Hon'|]. split; [|exact He]. by exists dr, dc, k.
    - intros (Hon' & (dr & dc & k & Hin & Hclear & -> & ->) & He). right.
      split; [|by split]. exists dr, dc, k. split; [exact Hin|].
      split; [|by split].
      pose proof (ray_within_board dr dc r c k (Hsub _ Hin) Hon Hon'). lia. }
  unfold attackMoves, getRawMovesWith, attackedFrom.
  destruct (type p) eqn:Hty.
  - unfold getKingMovesWith. cbn [negb andb].
    rewrite offsetMoves_lands. cbn [existsb]. split.
    + intros [|(Hr & Hon' & He)]; [discriminate|]. auto.
    + intros (Hon' & Hr & He). right. split; [exact Hr|]. split; [exact Hon'|].
      by apply He.
  - rewrite Hslide by auto.
    split; [intros (? & ? & ?); auto|].
    intros (? & ? & He). split; [assumption|]. split; [assumption|].
    by apply He.
  - rewrite Hslide by apply rookDirections_queen.
    split; [intros (? & ? & ?); auto|].
    intros (? & ? & He). split; [assumption|]. split; [assumption|].
    by apply He.
  - rewrite Hslide by apply bishopDirections_queen.
    split; [intros (? & ? & ?); auto|].
    intros (? & ? & He). split; [assumption|]. split; [assumption|].
    by apply He.
  - unfold getKnightMoves. rewrite offsetMoves_lands. cbn [existsb]. split.
    + intros [|(Hr & Hon' & He)]; [discriminate|]. auto.
    + intros (Hon' & Hr & He). right. split; [exact Hr|]. split; [exact Hon'|].
      by apply He.
  - rewrite existsb_true_elem.
    destruct (getPawnMoves_diagonals g r c p [] true) as (fw & -> & Hfw & _).
    rewrite (Hfw eq_refl). split.
    + intros (m & Hin & Hland).
      apply bool_decide_eq_true in Hland as [<- <-].
      rewrite !pawnDiagonal_elem, elem_of_nil in Hin.
      destruct Hin as [[[]|(Hon' & [[_ ->]|[(? & _)|(? & _)]])]
                      |(Hon' & [[_ ->]|[(? & _)|(? & _)]])]; try discriminate;
        cbn [MoveInfo.plain MoveInfo.row MoveInfo.col].
      * split; [exact Hon'|]. split; [|done]. split; [reflexivity|]. left. lia.
      * split; [exact Hon'|]. split; [|done]. split; [reflexivity|]. by right.
    + intros (Hon' & [-> Hcol] & _).
      exists (MoveInfo.plain (r + pawnDirection p) col).
      split; [|apply bool_decide_eq_true; by split].
      rewrite !pawnDiagonal_elem.
      destruct Hcol as [->| ->].
      * left. right. replace (c + -1) with (c - 1) by lia.
        split; [exact Hon'|]. left. by split.
      * right. split; [exact Hon'|]. left. by split.
Qed.

Lemma isSquareAttacked_spec g row col byColor :
  isSquareAttacked g row col byColor = true <->
  exists r c p,
    getPiece g r c = Some p ∧ color p = byColor
    ∧ onBoard row col ∧ attackedFrom g row col r c p
    ∧ (type p <> PAWN -> emptyOrEnemy (getPiece g row col) p = true).
Proof.
  unfold isSquareAttacked. rewrite existsb_true_elem. split.
  - intros ([r c] & _ & Hsq).
    destruct (getPiece g r c) as [p|] eqn:Hp; [|discriminate].
    apply andb_true_iff in Hsq as [Hclr Hland].
    apply bool_decide_eq_true in Hclr.
    apply (attackMoves_lands g r c p row col Hp) in Hland.
    exists r, c, p. tauto.
  - intros (r & c & p & Hp & Hclr & Hrest). exists (r, c).
    split; [apply allSquares_elem; eapply getPiece_onBoard, Hp|].
    rewrite Hp. apply andb_true_iff. split; [by apply bool_decide_eq_true|].
    apply (attackMoves_lands g r c p row col Hp). exact Hrest.
Qed.

Lemma offsetHits_spec g row col byColor type0 offsets :
  offsetHits g row col byColor type0 offsets = true <->
  exists dr dc p,
    (dr, dc) ∈ offsets ∧ getPiece g (row + dr) (col + dc) = Some p
    ∧ type p = type0 ∧ color p = byColor.
Proof.
  unfold offsetHits. rewrite existsb_true_elem. split.
  - intros ([dr dc] & Hin & Hhit).
    apply andb_true_iff in Hhit as [_ Hhit].
    destruct (getPiece g (row + dr) (col + dc)) as [p|] eqn:Hp; [|discriminate].
    apply bool_decide_eq_true in Hhit as [Hty Hclr].
    by exists dr, dc, p.
  - intros (dr & dc & p & Hin & Hp & Hty & Hclr). exists (dr, dc).
    split; [exact Hin|]. apply andb_true_iff. split.
    + apply bool_decide_eq_true. eapply getPiece_onBoard, Hp.
    + rewrite Hp. by apply bool_decide_eq_true.
Qed.

Ltac offsets_neg H :=
  repeat (apply elem_of_cons in H as [H|H];
          [injection H as -> ->; cbn; repeat constructor|]);
  by apply elem_of_nil in H.

Lemma knightOffsets_neg dr dc :
  (dr, dc) ∈ knightOffsets -> (- dr, - dc) ∈ knightOffsets.
Proof. unfold knightOffsets. intros H. offsets_neg H. Qed.

Lemma kingOffsets_neg dr dc :
  (dr, dc) ∈ kingOffsets -> (- dr, - dc) ∈ kingOffsets.
Proof. unfold kingOffsets. intros H. offsets_neg H. Qed.

Lemma rookDirections_neg dr dc :
  (dr, dc) ∈ rookDirections -> (- dr, - dc) ∈ rookDirections.
Proof. unfold rookDirections. intros H. offsets_neg H. Qed.

Lemma bishopDirections_neg dr dc :
  (dr, dc) ∈ bishopDirections -> (- dr, - dc) ∈ bishopDirections.
Proof. unfold bishopDirections. intros H. offsets_neg H. Qed.

Lemma offsetReaches_sym offsets r c row col :
  (forall dr dc, (dr, dc) ∈ offsets -> (- dr, - dc) ∈ offsets) ->
  offsetReaches offsets r c row col -> offsetReaches offsets row col r c.
Proof.
  intros Hneg (dr & dc & Hin & -> & ->). exists (- dr), (- dc).
  split; [by apply Hneg|lia].
Qed.

Lemma rayClear_reverse g r c dr dc k :
  rayClear g (r + dr) (c + dc) dr dc k ->
  rayClear g (r + Z.of_nat k * dr) (c + Z.of_nat k * dc) (- dr) (- dc) k.
Proof.
  intros H j Hj. specialize (H (k - 1 - j)%nat ltac:(lia)).
  assert (Z.of_nat (k - 1 - j) = Z.of_nat k - 1 - Z.of_nat j) as Hk by lia.
  rewrite Hk in H.
  replace (r + Z.of_nat k * dr + Z.of_nat j * - dr)
    with (r + dr + (Z.of_nat k - 1 - Z.of_nat j) * dr) by ring.
  replace (c + Z.of_nat k * dc + Z.of_nat j * - dc)
    with (c + dc + (Z.of_nat k - 1 - Z.of_nat j) * dc) by ring.
  exact H.
Qed.

(** A ray can be walked from either end. *)
Lemma rayReaches_sym g directions r c row col :
  (forall dr dc, (dr, dc) ∈ directions -> (- dr, - dc) ∈ directions) ->
  rayReaches g directions r c row col -> rayReaches g directions row col r c.
Proof.
  intros Hneg (dr & dc & k & Hin & Hclear & -> & ->).
  exists (- dr), (- dc), k. split; [by apply Hneg|].
  split; [|lia].
  apply rayClear_reverse in Hclear.
  replace (r + (Z.of_nat k + 1) * dr + - dr) with (r + Z.of_nat k * dr) by lia.
  replace (c + (Z.of_nat k + 1) * dc + - dc) with (c + Z.of_nat k * dc) by lia.
  exact Hclear.
Qed.

(** The scan of the rays of [directions] from [(row, col)] for a piece
    of one of [types]. *)
Lemma rayScan_spec g row col byColor directions types :
  (forall d, d ∈ directions -> d ∈ queenDirections) ->
  onBoard row col ->
  existsb (fun '(dr, dc) =>
             rayHits 8 g byColor types dr dc (row + dr) (col + dc)) directions
    = true <->
  exists r c p,
    getPiece g r c = Some p ∧ color p = byColor ∧ type p ∈ types
    ∧ rayReaches g directions row col r c.
Proof.
  intros Hsub Hon. rewrite existsb_true_elem. split.
  - intros ([dr dc] & Hin & Hhit).
    apply rayHits_spec in Hhit as (k & p & _ & Hclear & Hp & Hclr & Hty).
    exists (row + dr + Z.of_nat k * dr), (col + dc + Z.of_nat k * dc), p.
    split; [exact Hp|]. split; [exact Hclr|]. split; [exact Hty|].
    exists dr, dc, k. split; [exact Hin|]. split; [exact Hclear|]. lia.
  - intros (r & c & p & Hp & Hclr & Hty & dr & dc & k & Hin & Hclear & -> & ->).
    exists (dr, dc). split; [exact Hin|].
    apply rayHits_spec. exists k, p.
    split.
    { pose proof (ray_within_board dr dc row col k (Hsub _ Hin) Hon
                    (getPiece_onBoard _ _ _ _ Hp)). lia. }
    split; [exact Hclear|].
    replace (row + dr + Z.of_nat k * dr) with (row + (Z.of_nat k + 1) * dr) by lia.
    replace (col + dc + Z.of_nat k * dc) with (col + (Z.of_nat k + 1) * dc) by lia.
    auto.
Qed.

Lemma isSquareAttackedForMinimax_spec g row col byColor :
  onBoard row col ->
  isSquareAttackedForMinimax g row col byColor = true <->
  exists r c p,
    getPiece g r c = Some p ∧ color p = byColor
    ∧ attackedFrom g row col r c p.
Proof.
  intros Hon. unfold isSquareAttackedForMinimax.
  set (pawnDir := if decide (byColor = WHITE) then 1 else -1).
  assert (forall p, color p = byColor -> pawnDirection p = - pawnDir) as Hdir.
  { intros p <-. unfold pawnDirection, pawnDir. by case_decide. }
  transitivity
    (offsetHits g row col byColor PAWN [(pawnDir, -1); (pawnDir, 1)] = true
     ∨ offsetHits g row col byColor KNIGHT knightOffsets = true
     ∨ offsetHits g row col byColor KING kingOffsets = true
     ∨ existsb (fun '(dr, dc) =>
                  rayHits 8 g byColor [ROOK; QUEEN] dr dc (row + dr) (col + dc))
               rookDirections = true
     ∨ existsb (fun '(dr, dc) =>
                  rayHits 8 g byColor [BISHOP; QUEEN] dr dc (row + dr) (col + dc))
               bishopDirections = true).
  { cbn [existsb]. rewrite orb_false_r.
    destruct (offsetHits g row col byColor PAWN _); [tauto|].
    destruct (offsetHits g row col byColor KNIGHT _); [tauto|].
    destruct (offsetHits g row col byColor KING _); [tauto|].
    rewrite orb_true_iff. intuition discriminate. }
  rewrite !offsetHits_spec.
  rewrite (rayScan_spec _ _ _ _ _ _ rookDirections_queen Hon).
  rewrite (rayScan_spec _ _ _ _ _ _ bishopDirections_queen Hon).
  unfold attackedFrom. split.
  - intros [(dr & dc & p & Hin & Hp & Hty & Hclr)
           |[(dr & dc & p & Hin & Hp & Hty & Hclr)
           |[(dr & dc & p & Hin & Hp & Hty & Hclr)
           |[(r & c & p & Hp & Hclr & Hty & Hray)
            |(r & c & p & Hp & Hclr & Hty & Hray)]]]].
    + exists (row + dr), (col + dc), p. split; [exact Hp|]. split; [exact Hclr|].
      rewrite Hty, (Hdir p Hclr).
      apply elem_of_cons in Hin as [[= -> ->]|Hin];
        [|apply elem_of_cons in Hin as [[= -> ->]|Hin];
          [|by apply elem_of_nil in Hin]]; lia.
    + exists (row + dr), (col + dc), p. split; [exact Hp|]. split; [exact Hclr|].
      rewrite Hty. apply (offsetReaches_sym _ _ _ _ _ knightOffsets_neg).
      by exists dr, dc.
    + exists (row + dr), (col + dc), p. split; [exact Hp|]. split; [exact Hclr|].
      rewrite Hty. apply (offsetReaches_sym _ _ _ _ _ kingOffsets_neg).
      by exists dr, dc.
    + exists r, c, p. split; [exact Hp|]. split; [exact Hclr|].
      apply (rayReaches_sym _ _ _ _ _ _ rookDirections_neg) in Hray.
      apply elem_of_cons in Hty as [->|Hty].
      * exact Hray.
      * apply elem_of_cons in Hty as [->|Hty]; [|by apply elem_of_nil in Hty].
        destruct Hray as (dr & dc & k & Hin & Hrest).
        exists dr, dc, k. split; [by apply rookDirections_queen|exact Hrest].
    + exists r, c, p. split; [exact Hp|]. split; [exact Hclr|].
      apply (rayReaches_sym _ _ _ _ _ _ bishopDirections_neg) in Hray.
      apply elem_of_cons in Hty as [->|Hty].
      * exact Hray.
      * apply elem_of_cons in Hty as [->|Hty]; [|by apply elem_of_nil in Hty].
        destruct Hray as (dr & dc & k & Hin & Hrest).
        exists dr, dc, k. split; [by apply bishopDirections_queen|exact Hrest].
  - intros (r & c & p & Hp & Hclr & Hatt).
    destruct (type p) eqn:Hty.
    + right. right. left.
      destruct (offsetReaches_sym _ _ _ _ _ kingOffsets_neg Hatt)
        as (dr & dc & Hin & -> & ->).
      by exists dr, dc, p.
    + apply (rayReaches_sym g) in Hatt.
      2:{ intros dr dc [H|H]%queenDirections_split; apply queenDirections_split;
            [left; by apply rookDirections_neg|right; by apply bishopDirections_neg]. }
      destruct Hatt as (dr & dc & k & [Hin|Hin]%queenDirections_split & Hrest).
      * right. right. right. left. exists r, c, p.
        split; [exact Hp|]. split; [exact Hclr|].
        split; [rewrite Hty; apply list_elem_of_further, list_elem_of_here|].
        by exists dr, dc, k.
      * right. right. right. right. exists r, c, p.
        split; [exact Hp|]. split; [exact Hclr|].
        split; [rewrite Hty; apply list_elem_of_further, list_elem_of_here|].
        by exists dr, dc, k.
    + right. right. right. left. exists r, c, p.
      split; [exact Hp|]. split; [exact Hclr|].
      split; [rewrite Hty; apply list_elem_of_here|].
      by apply (rayReaches_sym _ _ _ _ _ _ rookDirections_neg).
    + right. right. right. right. exists r, c, p.
      split; [exact Hp|]. split; [exact Hclr|].
      split; [rewrite Hty; apply list_elem_of_here|].
      by apply (rayReaches_sym _ _ _ _ _ _ bishopDirections_neg).
    + right. left.
      destruct (offsetReaches_sym _ _ _ _ _ knightOffsets_neg Hatt)
        as (dr & dc & Hin & -> & ->).
      by exists dr, dc, p.
    + left. destruct Hatt as [Hrow Hcol]. rewrite (Hdir p Hclr) in Hrow.
      destruct Hcol as [Hcol|Hcol].
      * exists pawnDir, 1, p. split; [apply list_elem_of_further, list_elem_of_here|].
        replace (row + pawnDir) with r by lia.
        replace (col + 1) with c by lia. auto.
      * exists pawnDir, (-1), p. split; [apply list_elem_of_here|].
        replace (row + pawnDir) with r by lia.
        replace (col + -1) with c by lia. auto.
Qed.

Lemma findKing_Some g clr row col :
  findKing g clr = Some (row, col) ->
  exists king,
    getPiece g row col = Some king ∧ type king = KING ∧ color king = clr.
Proof.
  unfold findKing. intros H. apply find_first in H as (_ & _ & _ & Hking & _).
  destruct (getPiece g row col) as [king|]; [|discriminate].
  apply bool_decide_eq_true in Hking. by exists king.
Qed.

Lemma opponent_ne clr : opponent clr <> clr.
Proof. by destruct clr. Qed.

Lemma isSquareAttackedForMinimax_eq g row col byColor :
  onBoard row col ->
  (forall p, getPiece g row col = Some p -> color p <> byColor) ->
  isSquareAttackedForMinimax g row col byColor
  = isSquareAttacked g row col byColor.
Proof.
  intros Hon Hother.
  apply eq_true_iff_eq.
  rewrite (isSquareAttackedForMinimax_spec _ _ _ _ Hon), isSquareAttacked_spec.
  split.
  - intros (r & c & p & Hp & Hclr & Hatt). exists r, c, p.
    repeat (split; [assumption|]). intros _.
    destruct (getPiece g row col) as [t|] eqn:Ht; [|reflexivity].
    apply bool_decide_eq_true. rewrite Hclr. by apply Hother.
  - intros (r & c & p & Hp & Hclr & _ & Hatt & _). by exists r, c, p.
Qed.

Lemma isKingInCheck_eq g clr : isKingInCheck g clr = isInCheck g clr.
Proof.
  unfold isKingInCheck, isInCheck.
  destruct (findKing g clr) as [[row col]|] eqn:Hk; [|reflexivity].
  apply findKing_Some in Hk as (king & Hking & _ & Hclr).
  apply isSquareAttackedForMinimax_eq.
  - eapply getPiece_onBoard, Hking.
  - intros p Hp. rewrite Hking in Hp. injection Hp as <-. rewrite Hclr.
    intros Heq. by apply (opponent_ne clr).
Qed.

(** X9: on a square of the board that holds no piece of the attacking
    colour, the search's [isSquareAttackedForMinimax], which scans from
    the square, and the engine's [isSquareAttacked], which generates the
    attack moves of every piece, give the same answer; on a square that
    holds a piece of the attacking colour they can differ (the engine
    never counts a piece as attacking its own side); and the search's
    [isKingInCheck] agrees with the engine's [isInCheck] on every
    position. *)
Theorem search_attack_detection_agrees :
  (forall g row col byColor,
     onBoard row col ->
     (forall p, getPiece g row col = Some p -> color p <> byColor) ->
     isSquareAttackedForMinimax g row col byColor
     = isSquareAttacked g row col byColor)
  ∧ (forall g clr, isKingInCheck g clr = isInCheck g clr)
  ∧ (isSquareAttackedForMinimax reset 7 1 WHITE = true
     ∧ isSquareAttacked reset 7 1 WHITE = false).
Proof.
  split; [exact isSquareAttackedForMinimax_eq|].
  split; [exact isKingInCheck_eq|].
  split; vm_compute; reflexivity.
Qed.

Lemma search_attack_detection_agrees_witness :
  isSquareAttackedForMinimax reset 5 3 WHITE = isSquareAttacked reset 5 3 WHITE.
Proof.
  apply (proj1 search_attack_detection_agrees reset 5 3 WHITE).
  - unfold onBoard. lia.
  - intros p Hp. discriminate Hp.
Defined.

(** ** The search's move generation against the engine's *)

Lemma getCastlingMovesWith_eq g row col piece moves :
  onBoard row col ->
  getCastlingMovesWith isSquareAttackedForMinimax g row col piece moves
  = getCastlingMovesWith isSquareAttacked g row col piece moves.
Proof.
  intros Hon.
  assert (forall c, 0 <= c <= 7 -> getPiece g row c = None ->
            isSquareAttackedForMinimax g row c (opponent (color piece))
            = isSquareAttacked g row c (opponent (color piece))) as Hsame.
  { intros c Hc Hnone. apply isSquareAttackedForMinimax_eq.
    - unfold onBoard in *. lia.
    - intros p Hp. congruence. }
  unfold getCastlingMovesWith.
  assert (match getPiece g row 7 with
          | Some kingsideRook =>
              if decide (type kingsideRook = ROOK ∧ hasMoved kingsideRook = false)
              then
                if decide (getPiece g row 5 = None ∧ getPiece g row 6 = None)
                then
                  if negb (isSquareAttackedForMinimax g row 5 (opponent (color piece)))
                     && negb (isSquareAttackedForMinimax g row 6 (opponent (color piece)))
                  then moves ++ [MoveInfo.mk row 6 false false false false (Some kingside)]
                  else moves
                else moves
              else moves
          | None => moves
          end
          = match getPiece g row 7 with
            | Some kingsideRook =>
                if decide (type kingsideRook = ROOK ∧ hasMoved kingsideRook = false)
                then
                  if decide (getPiece g row 5 = None ∧ getPiece g row 6 = None)
                  then
                    if negb (isSquareAttacked g row 5 (opponent (color piece)))
                       && negb (isSquareAttacked g row 6 (opponent (color piece)))
                    then moves ++ [MoveInfo.mk row 6 false false false false (Some kingside)]
                    else moves
                  else moves
                else moves
            | None => moves
            end) as ->.
  { destruct (getPiece g row 7) as [rook|]; [|reflexivity].
    case_decide; [|reflexivity].
    case_decide as Hempty; [|reflexivity]. destruct Hempty as [H5 H6].
    rewrite (Hsame 5), (Hsame 6) by (lia || assumption). reflexivity. }
  destruct (getPiece g row 0) as [rook|]; [|reflexivity].
  case_decide; [|reflexivity].
  case_decide as Hempty; [|reflexivity]. destruct Hempty as (H1 & H2 & H3).
  rewrite (Hsame 2), (Hsame 3) by (lia || assumption). reflexivity.
Qed.

Lemma getRawMovesForMinimax_eq g row col piece :
  onBoard row col ->
  getRawMovesForMinimax g row col piece = getRawMoves g row col piece false.
Proof.
  intros Hon. unfold getRawMovesForMinimax, getRawMoves, getRawMovesWith.
  destruct (type piece); try reflexivity.
  unfold getKingMovesForMinimax, getKingMovesWith.
  rewrite isKingInCheck_eq.
  destruct (_ && _); [|reflexivity].
  by apply getCastlingMovesWith_eq.
Qed.

Lemma returns_eq {A} (m : M A) g a :
  returns m g (fun a' g' => a' = a ∧ g' = g) -> m g = Some (a, g).
Proof. intros (a' & g' & Hm & -> & ->). exact Hm. Qed.

Lemma getValidMovesForMinimax_eq row col piece g :
  getValidMovesForMinimax row col piece g
  = Some (filter (fun move =>
                    isKingInCheck (simulated row col piece move g) (color piece)
                    = false)
                 (getRawMovesForMinimax g row col piece), g).
Proof.
  unfold getValidMovesForMinimax.
  rewrite (bind_Some get _ g g g eq_refl).
  rewrite (forEachM_pure _
    (fun acc move =>
       if negb (isKingInCheck (simulated row col piece move g) (color piece))
       then acc ++ [move] else acc)).
  - rewrite (foldl_filter (fun move =>
      negb (isKingInCheck (simulated row col piece move g) (color piece)))).
    cbn [app]. apply (f_equal (fun l => Some (l, g))).
    apply list_filter_iff. intros move. by rewrite negb_true_iff.
  - intros acc move. apply returns_eq.
    assert (forall g', onlyBoard g g' -> set_board (board g) g' = g) as Hrestore
      by apply onlyBoard_restore.
    pose proof (simulated_frame row col piece move g) as Hframe.
    revert Hframe. unfold simulated.
    destruct (MoveInfo.enPassant move), (MoveInfo.castling move) as [[]|];
      intros Hframe; cbv beta iota; repeat returns_step; cbv beta;
      rewrite ?copyBoard_id, ?set_board_id;
      (split; [reflexivity|by apply Hrestore]).
Qed.

Lemma getValidMovesForMinimax_legalMoves row col piece g :
  getPiece g row col = Some piece -> color piece = currentTurn g ->
  getValidMovesForMinimax row col piece g = Some (legalMoves g row col, g).
Proof.
  intros Hp Hturn. rewrite getValidMovesForMinimax_eq.
  apply (f_equal (fun l => Some (l, g))).
  unfold legalMoves. rewrite Hp.
  rewrite decide_False by (intros Hne; by apply Hne).
  rewrite (getRawMovesForMinimax_eq _ _ _ _ (getPiece_onBoard _ _ _ _ Hp)).
  apply list_filter_iff. intros move. by rewrite isKingInCheck_eq.
Qed.

Lemma getAllValidMovesForMinimax_eq g :
  getAllValidMovesForMinimax (currentTurn g) g
  = Some (allLegalMoves g (currentTurn g), g).
Proof.
  unfold getAllValidMovesForMinimax, allLegalMoves.
  apply forEachM_pure. intros acc [row col].
  rewrite (bind_Some get _ g g g eq_refl).
  destruct (getPiece g row col) as [piece|] eqn:Hp; [|reflexivity].
  case_decide as Hturn; [|reflexivity].
  rewrite (bind_Some _ _ _ _ _
             (getValidMovesForMinimax_legalMoves row col piece g Hp Hturn)).
  reflexivity.
Qed.

(** X10: for the side to move, the search's own move generator
    [getAllValidMovesForMinimax] returns the same candidates, in the
    same order, as the engine's [getAllValidMoves], and leaves the game
    as it found it; so does [getValidMovesForMinimax] for a piece of the
    side to move against [getValidMoves], and [getRawMovesForMinimax]
    against [getRawMoves] for every piece.  For the side that is not to
    move the two differ: the engine returns nothing, the search
    generates that side's moves. *)
Theorem search_move_generation_agrees :
  (forall g,
     getAllValidMovesForMinimax (currentTurn g) g
     = getAllValidMoves (currentTurn g) g)
  ∧ (forall g row col piece,
       getPiece g row col = Some piece -> color piece = currentTurn g ->
       getValidMovesForMinimax row col piece g = getValidMoves row col g)
  ∧ (forall g row col piece,
       onBoard row col ->
       getRawMovesForMinimax g row col piece = getRawMoves g row col piece false)
  ∧ (run (getAllValidMoves BLACK) reset = Some []
     ∧ length <$> run (getAllValidMovesForMinimax BLACK) reset = Some 20%nat).
Proof.
  split; [|split; [|split; [exact getRawMovesForMinimax_eq|]]].
  - intros g. by rewrite getAllValidMovesForMinimax_eq, getAllValidMoves_eq.
  - intros g row col piece Hp Hturn.
    by rewrite (getValidMovesForMinimax_legalMoves _ _ _ _ Hp Hturn),
         getValidMoves_eq.
  - split; vm_compute; reflexivity.
Qed.

Lemma search_move_generation_agrees_witness :
  getValidMovesForMinimax 6 4 (createPiece PAWN WHITE) reset
  = getValidMoves 6 4 reset.
Proof.
  apply (proj1 (proj2 search_move_generation_agrees) reset 6 4
           (createPiece PAWN WHITE)); reflexivity.
Defined.

(** ** The evaluation *)

(** X11: [evaluateBoard] is zero-sum: the score of a position for one
    colour is the opposite of its score for the other colour. *)
Theorem evaluateBoard_zero_sum (g : ChessGame) (aiColor : COLORS) :
  evaluateBoard g (opponent aiColor) = - evaluateBoard g aiColor.
Proof.
  unfold evaluateBoard. cbv zeta.
  assert (forall p : Piece,
            (color p = opponent aiColor <-> color p <> aiColor)) as Hclr.
  { intros p. destruct (color p), aiColor; cbn; split; congruence. }
  set (material := fun clr (score : Z) '(row, col) =>
         match getPiece g row col with
         | Some piece =>
             if decide (color piece = clr)
             then score + (PIECE_VALUES (type piece) + positionBonus piece row col)
             else score - (PIECE_VALUES (type piece) + positionBonus piece row col)
         | None => score
         end).
  set (center := fun clr (score : Z) '(r, c) =>
         match getPiece g r c with
         | Some piece =>
             if decide (color piece = clr) then score + 10 else score - 10
         | None => score
         end).
  assert (forall squares s,
            foldl (material (opponent aiColor)) (- s) squares
            = - foldl (material aiColor) s squares) as Hmaterial.
  { induction squares as [|[row col] squares IH]; intros s; [reflexivity|].
    cbn [foldl]. rewrite <- IH. f_equal. unfold material.
    destruct (getPiece g row col) as [p|]; [|reflexivity].
    destruct (decide (color p = aiColor)) as [Heq|Hne].
    - rewrite decide_False by (intros H; by apply Hclr in H). lia.
    - rewrite decide_True by (by apply Hclr). lia. }
  assert (forall squares s,
            foldl (center (opponent aiColor)) (- s) squares
            = - foldl (center aiColor) s squares) as Hcenter.
  { induction squares as [|[row col] squares IH]; intros s; [reflexivity|].
    cbn [foldl]. rewrite <- IH. f_equal. unfold center.
    destruct (getPiece g row col) as [p|]; [|reflexivity].
    destruct (decide (color p = aiColor)) as [Heq|Hne].
    - rewrite decide_False by (intros H; by apply Hclr in H). lia.
    - rewrite decide_True by (by apply Hclr). lia. }
  specialize (Hmaterial allSquares 0). change (- 0) with 0 in Hmaterial.
  subst material center. cbv beta in Hmaterial, Hcenter.
  rewrite Hmaterial, Hcenter, opponent_involutive.
  match goal with
  | |- context [- ?x] => generalize x
  end.
  intros score.
  destruct (isKingInCheck g aiColor), (isKingInCheck g (opponent aiColor)); lia.
Qed.

(** ** Move ordering *)

Lemma descending_cons g a l :
  descending g (a :: l) <->
  (forall b, b ∈ l -> (sortScore g b <= sortScore g a)%Q) ∧ descending g l.
Proof.
  split.
  - intros H. split.
    + intros b [j Hj]%list_elem_of_lookup. apply (H 0%nat (S j)); [lia|done..].
    + intros i j x y Hij Hx Hy. apply (H (S i) (S j)); [lia|done..].
  - intros [Hhead Htail] i j x y Hij Hx Hy.
    destruct j as [|j]; [lia|]. cbn in Hy.
    destruct i as [|i].
    + injection Hx as <-. apply Hhead. by eapply list_elem_of_lookup_2.
    + cbn in Hx. apply (Htail i j); [lia|done..].
Qed.

Lemma sortInsert_perm g a l : sortInsert g a l ≡ₚ a :: l.
Proof.
  induction l as [|b l IH]; [reflexivity|]. cbn [sortInsert].
  destruct (Qle_bool _ _); [reflexivity|].
  rewrite IH. apply Permutation_swap.
Qed.

Lemma sortInsert_descending g a l :
  descending g l -> descending g (sortInsert g a l).
Proof.
  induction l as [|b l IH]; intros Hl; cbn [sortInsert].
  - apply descending_cons. split; [|exact Hl].
    intros b Hb. by apply elem_of_nil in Hb.
  - apply descending_cons in Hl as [Hhead Htail].
    destruct (Qle_bool (sortScore g b) (sortScore g a)) eqn:Hle.
    + apply Qle_bool_iff in Hle.
      apply descending_cons. split.
      * intros x [->|Hx]%elem_of_cons; [exact Hle|].
        eapply Qle_trans; [by apply Hhead|exact Hle].
      * apply descending_cons. by split.
    + assert (sortScore g a <= sortScore g b)%Q as Hab.
      { apply Qlt_le_weak, Qnot_le_lt. intros H%Qle_bool_iff. congruence. }
      apply descending_cons. split; [|by apply IH].
      intros x Hx. rewrite sortInsert_perm in Hx.
      apply elem_of_cons in Hx as [->|Hx]; [exact Hab|by apply Hhead].
Qed.

Lemma halfDistance_bounds (x : Z) :
  0 <= x <= 7 ->
  ((1 # 2) <= Qabs (inject_Z x - (7 # 2)) ∧ Qabs (inject_Z x - (7 # 2)) <= (7 # 2))%Q.
Proof.
  intros Hx.
  assert (x = 0 ∨ x = 1 ∨ x = 2 ∨ x = 3 ∨ x = 4 ∨ x = 5 ∨ x = 6 ∨ x = 7)
    as Hcases by lia.
  destruct_or!; subst x; split; apply Qle_bool_iff; reflexivity.
Qed.

Lemma centerDist_bounds row col :
  onBoard row col -> (1 <= centerDist row col ∧ centerDist row col <= 7)%Q.
Proof.
  intros Hon. unfold centerDist.
  destruct (halfDistance_bounds row) as [Hr1 Hr2]; [unfold onBoard in Hon; lia|].
  destruct (halfDistance_bounds col) as [Hc1 Hc2]; [unfold onBoard in Hon; lia|].
  split.
  - apply (Qle_trans _ ((1 # 2) + (1 # 2))); [by apply Qle_bool_iff|].
    by apply Qplus_le_compat.
  - apply (Qle_trans _ ((7 # 2) + (7 # 2))); [|by apply Qle_bool_iff].
    by apply Qplus_le_compat.
Qed.

Lemma sortScore_bounds g a :
  onBoard (MoveInfo.row (Candidate.to a)) (MoveInfo.col (Candidate.to a)) ->
  if MoveInfo.capture (Candidate.to a)
  then (3 <= sortScore g a)%Q else (sortScore g a <= -1)%Q.
Proof.
  intros Hon. destruct (centerDist_bounds _ _ Hon) as [Hlow Hhigh].
  unfold sortScore. cbv zeta.
  destruct (MoveInfo.capture (Candidate.to a)).
  - apply (Qle_trans _ (10 + Qopp 7)); [by apply Qle_bool_iff|].
    apply Qplus_le_compat; [|by apply Qopp_le_compat].
    destruct (getPiece g _ _) as [p|]; [|by apply Qle_bool_iff].
    destruct (type p); by apply Qle_bool_iff.
  - apply (Qle_trans _ (0 + Qopp 1)); [|by apply Qle_bool_iff].
    apply Qplus_le_compat; [apply Qle_refl|by apply Qopp_le_compat].
Qed.

Lemma sortMoves_perm moves g : sortMoves moves g ≡ₚ moves.
Proof.
  unfold sortMoves. induction moves as [|a moves IH]; [reflexivity|].
  cbn [foldr]. by rewrite sortInsert_perm, IH.
Qed.

(** X12: [sortMoves] returns the moves it was given, each as often as
    it was given, in an order where no move is followed by one with a
    greater ordering score; among moves that land on the board, every
    capture comes before every move that is not a capture. *)
Theorem sortMoves_orders_captures_first (moves : list Candidate.t)
    (g : ChessGame) :
  sortMoves moves g ≡ₚ moves
  ∧ descending g (sortMoves moves g)
  ∧ forall (i j : nat) a b,
      (i < j)%nat ->
      sortMoves moves g !! i = Some a -> sortMoves moves g !! j = Some b ->
      onBoard (MoveInfo.row (Candidate.to a)) (MoveInfo.col (Candidate.to a)) ->
      onBoard (MoveInfo.row (Candidate.to b)) (MoveInfo.col (Candidate.to b)) ->
      MoveInfo.capture (Candidate.to b) = true ->
      MoveInfo.capture (Candidate.to a) = true.
Proof.
  pose proof (sortMoves_perm moves g) as Hperm.
  assert (descending g (sortMoves moves g)) as Hsorted.
  { clear Hperm. unfold sortMoves. induction moves as [|a moves' IH].
    - intros i j a b _ Ha. discriminate Ha.
    - cbn [foldr]. apply sortInsert_descending, IH. }
  split; [exact Hperm|]. split; [exact Hsorted|].
  intros i j a b Hij Ha Hb Hona Honb Hcap.
  pose proof (Hsorted i j a b Hij Ha Hb) as Hle.
  pose proof (sortScore_bounds g a Hona) as Hsa.
  pose proof (sortScore_bounds g b Honb) as Hsb.
  rewrite Hcap in Hsb.
  destruct (MoveInfo.capture (Candidate.to a)); [reflexivity|]. exfalso.
  assert (3 <= -1)%Q as Habs.
  { eapply Qle_trans; [exact Hsb|]. eapply Qle_trans; [exact Hle|exact Hsa]. }
  apply Qle_bool_iff in Habs. discriminate Habs.
Qed.

Lemma sortMoves_orders_captures_first_witness :
  Qle
    (sortScore reset
       (Candidate.mk (6, 4) (MoveInfo.mk 5 4 false false false false None)
          (createPiece PAWN WHITE)))
    (sortScore reset
       (Candidate.mk (6, 4) (MoveInfo.mk 4 4 false false true false None)
          (createPiece PAWN WHITE))).
Proof.
  apply (proj1 (proj2 (sortMoves_orders_captures_first
           [ Candidate.mk (6, 4) (MoveInfo.mk 5 4 false false false false None)
               (createPiece PAWN WHITE);
             Candidate.mk (6, 4) (MoveInfo.mk 4 4 false false true false None)
               (createPiece PAWN WHITE) ] reset)) 0%nat 1%nat).
  - lia.
  - vm_compute. reflexivity.
  - vm_compute. reflexivity.
Defined.

(** ** The move the search returns *)

Lemma returns_forEachM_elem {A B} (body : B -> A -> M B) g xs acc
    (I : B -> Prop) :
  I acc ->
  (forall acc x, x ∈ xs -> I acc ->
                 returns (body acc x) g (fun acc' g' => I acc' ∧ g' = g)) ->
  returns (forEachM body xs acc) g (fun acc' g' => I acc' ∧ g' = g).
Proof.
  revert acc. induction xs as [|x xs IH]; intros acc Hacc Hbody.
  { by exists acc, g. }
  cbn [forEachM]. apply returns_bind.
  eapply returns_weaken; [apply Hbody; [by left|exact Hacc]|].
  intros acc' g' [Hacc' ->]. apply IH; [exact Hacc'|].
  intros acc'' y Hy. apply Hbody. by right.
Qed.

Lemma getBestMove_result ai random1 random2 g :
  (0 <= random2)%Q -> (random2 < 1)%Q ->
  returns (getBestMove ai random1 random2) g
    (fun best g' =>
       g' = g
       ∧ match best with
         | Some candidate => candidate ∈ allLegalMoves g (currentTurn g)
         | None => allLegalMoves g (currentTurn g) = []
         end).
Proof.
  intros H0 H1.
  unfold getBestMove. do 2 returns_step. cbn beta zeta.
  returns_step. apply returns_getAllValidMoves.
  set (moves := allLegalMoves g (currentTurn g)).
  case_decide as Hlen.
  { returns_step. split; [done|]. by apply length_zero_iff_nil. }
  destruct (_ && _).
  { returns_step. split; [done|].
    destruct (lookup_lt_is_Some_2 moves
                (Z.to_nat (Qfloor (random2 * inject_Z (Z.of_nat (length moves))))))
      as [move Hmove]; [apply random_index; [done|done|lia]|].
    rewrite Hmove. by eapply list_elem_of_lookup_2. }
  do 2 returns_step. cbn beta zeta.
  returns_step.
  match goal with
  | |- returns (forEachM ?b _ _) _ _ => set (body := b)
  end.
  assert (forall best move,
    returns (body best move) g
      (fun best' g' =>
         ((fst best' = fst best ∨ fst best' = Some move)
          ∧ (fst best <> None ∨ snd best = NegInfinity -> fst best' <> None))
         ∧ g' = g)) as Hbody.
  { intros [bestMove bestScore] move. subst body. cbn beta iota.
    do 2 returns_step. cbn beta zeta. rewrite !copyBoard_id.
    do 2 returns_step. rewrite set_board_id.
    returns_step.
    eapply returns_weaken; [apply makeSimulatedMove_frame|].
    intros [] g1 Hg1. cbn beta in *.
    do 3 returns_step.
    eapply returns_weaken; [apply minimax_frame|].
    intros score g2 [Hscore ->]. cbn beta.
    do 6 returns_step.
    assert (set_currentTurn (currentTurn g)
              (set_enPassantTarget (enPassantTarget g)
                 (set_board (board g)
                    (set_currentTurn (opponent (currentTurn g)) g1))) = g)
      as ->.
    { apply searchFrame_restore; [search_frame|reflexivity..]. }
    destruct score as [|z|]; try contradiction.
    destruct (Score_gt (Finite z) bestScore) eqn:Hgt; returns_step;
      (split; [|done]); cbn [fst snd].
    - split; [by right|done].
    - split; [by left|]. intros [Hsome| ->]; [exact Hsome|]. discriminate Hgt. }
  remember (sortMoves moves g) as sorted eqn:Hsorted_eq.
  assert (forall rest best,
    (forall c, c ∈ rest -> c ∈ sorted) ->
    (fst best <> None ∧ forall c, fst best = Some c -> c ∈ sorted) ->
    returns (forEachM body rest best) g
      (fun best' g' =>
         (fst best' <> None ∧ forall c, fst best' = Some c -> c ∈ sorted)
         ∧ g' = g)) as Hloop.
  { intros rest best Hsub Hbest.
    apply (returns_forEachM_elem _ _ _ _
             (fun best => fst best <> None
                          ∧ forall c, fst best = Some c -> c ∈ sorted));
      [exact Hbest|].
    intros acc x Hx [Hsome Hin]. eapply returns_weaken; [apply Hbody|].
    intros best' g' [[Hfst Hbest'] ->]. split; [|done].
    split; [apply Hbest'; by left|].
    intros c Hc. destruct Hfst as [Hfst|Hfst].
    - apply Hin. congruence.
    - apply Hsub. congruence. }
  assert (forall c, c ∈ sorted -> c ∈ moves) as Hsorted.
  { intros c Hc. rewrite Hsorted_eq in Hc. by rewrite sortMoves_perm in Hc. }
  destruct sorted as [|move rest].
  { apply (f_equal length) in Hsorted_eq. rewrite sortMoves_length in Hsorted_eq.
    cbn in Hsorted_eq. by symmetry in Hsorted_eq. }
  cbn [forEachM]. returns_step.
  eapply returns_weaken; [apply Hbody|].
  intros best' g' [[Hfst Hbest'] ->]. cbn beta. cbn [fst snd] in *.
  eapply returns_weaken.
  { apply Hloop; [intros c Hc; by right|].
    split; [apply Hbest'; by right|].
    intros c Hc. destruct Hfst as [Hfst|Hfst]; [congruence|].
    rewrite Hfst in Hc. injection Hc as <-. by left. }
  intros best'' g' [[Hsome Hin] ->]. cbn beta.
  returns_step. split; [done|].
  destruct (fst best'') as [c|]; [|contradiction].
  apply Hsorted, Hin. reflexivity.
Qed.

(** X13: the candidate [getBestMove] returns is a legal move of the
    side to move: it names a square that holds the candidate's piece, of
    the colour to move, and one of the moves [getValidMoves] returns for
    that square; selected and made as [makeAIMove] does, with a queen
    when the move is flagged as a promotion, it is accepted by
    [makeMove].  At difficulty ["hard"] the result does not depend on
    the random numbers. *)
Theorem getBestMove_returns_legal_move :
  (forall difficulty random1 random2 g best,
     (0 <= random2)%Q -> (random2 < 1)%Q ->
     run (getBestMove (setDifficulty difficulty) random1 random2) g
       = Some (Some best) ->
     exists fromRow fromCol destinations g',
       Candidate.from best = (fromRow, fromCol)
       ∧ getPiece g fromRow fromCol = Some (Candidate.piece best)
       ∧ color (Candidate.piece best) = currentTurn g
       ∧ run (getValidMoves fromRow fromCol) g = Some destinations
       ∧ Candidate.to best ∈ destinations
       ∧ playMove fromRow fromCol
           (MoveInfo.row (Candidate.to best)) (MoveInfo.col (Candidate.to best))
           (if MoveInfo.promotion (Candidate.to best) then Some QUEEN else None)
           g = Some (true, g'))
  ∧ (forall random1 random2 random1' random2' g,
       getBestMove (setDifficulty "hard") random1 random2 g
       = getBestMove (setDifficulty "hard") random1' random2' g).
Proof.
  split.
  - intros difficulty random1 random2 g best H0 H1 Hrun.
    destruct (getBestMove_result (setDifficulty difficulty) random1 random2 g H0 H1)
      as (best' & g' & Hbest & -> & Hlegal).
    unfold run in Hrun. rewrite Hbest in Hrun. injection Hrun as ->.
    apply allLegalMoves_elem in Hlegal as (r & c & piece & m & Hp & Hclr & Hm & ->).
    destruct (playMove_legal r c (if MoveInfo.promotion m then Some QUEEN else None)
                g m Hm) as [g' Hplay].
    exists r, c, (legalMoves g r c), g'. cbn [Candidate.from Candidate.to Candidate.piece].
    split; [reflexivity|]. split; [exact Hp|].
    split.
    { apply legalMoves_elem in Hm as (p' & Hp' & Hturn & _). congruence. }
    split; [by apply run_getValidMoves|]. split; [exact Hm|exact Hplay].
  - intros random1 random2 random1' random2' g. reflexivity.
Qed.

Lemma getBestMove_returns_legal_move_witness :
  exists fromRow fromCol destinations g',
    (fromRow, fromCol) = (6, 3)
    ∧ getPiece reset fromRow fromCol = Some (createPiece PAWN WHITE)
    ∧ color (createPiece PAWN WHITE) = currentTurn reset
    ∧ run (getValidMoves fromRow fromCol) reset = Some destinations
    ∧ MoveInfo.mk 4 3 false false true false None ∈ destinations
    ∧ playMove fromRow fromCol 4 3 None reset = Some (true, g').
Proof.
  destruct (proj1 getBestMove_returns_legal_move "easy" 1%Q 0%Q reset
              (Candidate.mk (6, 3) (MoveInfo.mk 4 3 false false true false None)
                 (createPiece PAWN WHITE)))
    as (fr & fc & ds & g' & Hfrom & Hrest).
  - discriminate.
  - reflexivity.
  - vm_compute. reflexivity.
  - exists fr, fc, ds, g'. split; [symmetry; exact Hfrom|exact Hrest].
Defined.

(** ** Alpha-beta pruning *)

Lemma Score_le_leq a b : Score_le a b = true <-> Score_leq a b.
Proof.
  destruct a, b; cbn; rewrite ?bool_decide_eq_true; intuition discriminate.
Qed.

Lemma Score_le_false a b : Score_le a b = false <-> ~ Score_leq a b.
Proof. rewrite <- Score_le_leq. destruct (Score_le a b); intuition congruence. Qed.

Ltac score_cases :=
  repeat match goal with
         | s : Score |- _ => destruct s
         end;
  unfold Score_max, Score_min; cbn [Score_le Score_leq];
  repeat (case_bool_decide; cbn [Score_le Score_leq]);
  try tauto; try lia; try (intuition (congruence || lia)).

Lemma Score_leq_refl a : Score_leq a a.
Proof. score_cases. Qed.

Lemma Score_leq_trans a b c : Score_leq a b -> Score_leq b c -> Score_leq a c.
Proof. score_cases. Qed.

Lemma Score_leq_total a b : Score_leq a b ∨ Score_leq b a.
Proof. score_cases. Qed.

Lemma Score_leq_antisym a b : Score_leq a b -> Score_leq b a -> a = b.
Proof. score_cases; intros; f_equal; lia. Qed.

Lemma Score_leq_dec a b : Score_leq a b ∨ ~ Score_leq a b.
Proof. score_cases. Qed.

Lemma Score_not_leq a b : ~ Score_leq a b -> Score_leq b a.
Proof. score_cases. Qed.

Lemma Score_max_leq a b c :
  Score_leq (Score_max a b) c <-> Score_leq a c ∧ Score_leq b c.
Proof. score_cases. Qed.

Lemma Score_leq_max a b c :
  Score_leq c (Score_max a b) <-> Score_leq c a ∨ Score_leq c b.
Proof. score_cases. Qed.

Lemma Score_max_assoc a b c :
  Score_max (Score_max a b) c = Score_max a (Score_max b c).
Proof. score_cases; f_equal; lia. Qed.

Lemma Score_max_r a b : Score_leq a b -> Score_max a b = b.
Proof. score_cases; intros; f_equal; lia. Qed.

Lemma Score_max_l a b : Score_leq b a -> Score_max a b = a.
Proof. score_cases; intros; f_equal; lia. Qed.

Lemma Score_min_leq a b c :
  Score_leq c (Score_min a b) <-> Score_leq c a ∧ Score_leq c b.
Proof. score_cases. Qed.

Lemma Score_leq_min a b c :
  Score_leq (Score_min a b) c <-> Score_leq a c ∨ Score_leq b c.
Proof. score_cases. Qed.

Lemma Score_min_assoc a b c :
  Score_min (Score_min a b) c = Score_min a (Score_min b c).
Proof. score_cases; f_equal; lia. Qed.

Lemma Score_min_r a b : Score_leq b a -> Score_min a b = b.
Proof. score_cases; intros; f_equal; lia. Qed.

Lemma Score_min_l a b : Score_leq a b -> Score_min a b = a.
Proof. score_cases; intros; f_equal; lia. Qed.

Lemma Score_leq_max_l a b : Score_leq a (Score_max a b).
Proof. apply Score_leq_max. left. apply Score_leq_refl. Qed.

Lemma Score_leq_max_r a b : Score_leq b (Score_max a b).
Proof. apply Score_leq_max. right. apply Score_leq_refl. Qed.

Lemma Score_min_leq_l a b : Score_leq (Score_min a b) a.
Proof. apply Score_leq_min. left. apply Score_leq_refl. Qed.

Lemma Score_min_leq_r a b : Score_leq (Score_min a b) b.
Proof. apply Score_leq_min. right. apply Score_leq_refl. Qed.

Lemma maximizeValues_window child value moves :
  forall best processed alpha beta,
    (forall a move, move ∈ moves -> ~ Score_leq beta a ->
       withinWindow a beta (child a beta move) (value move)) ->
    ~ Score_leq beta (Score_max alpha best) ->
    Score_leq processed best ->
    (~ Score_leq best alpha -> Score_leq best processed) ->
    withinWindow alpha beta
      (maximizeValues child moves best (Score_max alpha best) beta)
      (Score_max processed (maxOver value moves)).
Proof.
  induction moves as [|move moves IH];
    intros best processed alpha beta Hchild Hopen Hupper Hexact;
    cbn [maximizeValues maxOver].
  { rewrite Score_max_l by (destruct processed; exact I).
    split; [|split].
    - intros _. exact Hupper.
    - intros Hbeta. exfalso. apply Hopen.
      eapply Score_leq_trans; [exact Hbeta|]. apply Score_leq_max_r.
    - intros Hlow _. by apply Score_leq_antisym; [apply Hexact|]. }
  set (a := Score_max alpha best) in *.
  set (s := child a beta move).
  pose proof (Hchild a move ltac:(by left) Hopen) as (Hlow & Hhigh & Hin).
  fold s in Hlow, Hhigh, Hin.
  assert (Score_leq best a) as Hbest by apply Score_leq_max_r.
  assert (Score_leq alpha a) as Halpha by apply Score_leq_max_l.
  destruct (Score_le beta (Score_max a s)) eqn:Hcut.
  - apply Score_le_leq in Hcut.
    assert (Score_leq beta s) as Hbs.
    { apply Score_leq_max in Hcut as [Hcut|Hcut]; [contradiction|exact Hcut]. }
    assert (Score_leq a s) as Has.
    { destruct (Score_leq_total a s) as [H|H]; [exact H|].
      exfalso. apply Hopen. by eapply Score_leq_trans. }
    rewrite (Score_max_r best s) by (by eapply Score_leq_trans).
    split; [|split].
    + intros Hsa. exfalso. apply Hopen.
      eapply Score_leq_trans; [exact Hbs|]. by eapply Score_leq_trans.
    + intros _. apply Score_leq_max. right. apply Score_leq_max. left.
      by apply Hhigh.
    + intros _ Hns. contradiction.
  - apply Score_le_false in Hcut.
    assert (~ Score_leq beta s) as Hns.
    { intros H. apply Hcut. apply Score_leq_max. by right. }
    assert (Score_leq (value move) (Score_max best s)) as Hvalue.
    { destruct (Score_leq_dec s a) as [Hsa|Hsa].
      - apply Score_leq_max. right. by apply Hlow.
      - rewrite <- (Hin Hsa Hns). apply Score_leq_max. right.
        apply Score_leq_refl. }
    replace (Score_max a s) with (Score_max alpha (Score_max best s))
      by (unfold a; symmetry; apply Score_max_assoc).
    rewrite <- (Score_max_assoc processed).
    apply IH.
    + intros a' move' Hmove' Ha'. apply Hchild; [by right|exact Ha'].
    + rewrite <- Score_max_assoc. exact Hcut.
    + apply Score_max_leq. split; [|exact Hvalue].
      apply Score_leq_max. by left.
    + intros Hnew.
      destruct (Score_leq_dec s best) as [Hsb|Hsb].
      * rewrite (Score_max_l best s) in * by exact Hsb.
        apply Score_leq_max. left. by apply Hexact.
      * rewrite (Score_max_r best s) in * by (by apply Score_not_leq).
        apply Score_leq_max. right.
        rewrite <- Hin; [apply Score_leq_refl| |exact Hns].
        intros [H|H]%Score_leq_max; contradiction.
Qed.

Lemma minimizeValues_window child value moves :
  forall best processed alpha beta,
    (forall b move, move ∈ moves -> ~ Score_leq b alpha ->
       withinWindow alpha b (child alpha b move) (value move)) ->
    ~ Score_leq (Score_min beta best) alpha ->
    Score_leq best processed ->
    (~ Score_leq beta best -> Score_leq processed best) ->
    withinWindow alpha beta
      (minimizeValues child moves best alpha (Score_min beta best))
      (Score_min processed (minOver value moves)).
Proof.
  induction moves as [|move moves IH];
    intros best processed alpha beta Hchild Hopen Hlower Hexact;
    cbn [minimizeValues minOver].
  { rewrite Score_min_l by (destruct processed; exact I).
    split; [|split].
    - intros Hbest. exfalso. apply Hopen.
      eapply Score_leq_trans; [apply Score_min_leq_r|exact Hbest].
    - intros _. exact Hlower.
    - intros _ Hhigh. by apply Score_leq_antisym; [|apply Hexact]. }
  set (b := Score_min beta best) in *.
  set (s := child alpha b move).
  pose proof (Hchild b move ltac:(by left) Hopen) as (Hlow & Hhigh & Hin).
  fold s in Hlow, Hhigh, Hin.
  assert (Score_leq b best) as Hbest by apply Score_min_leq_r.
  assert (Score_leq b beta) as Hbeta by apply Score_min_leq_l.
  destruct (Score_le (Score_min b s) alpha) eqn:Hcut.
  - apply Score_le_leq in Hcut.
    assert (Score_leq s alpha) as Hsa.
    { apply Score_leq_min in Hcut as [Hcut|Hcut]; [contradiction|exact Hcut]. }
    assert (Score_leq s b) as Hsb.
    { destruct (Score_leq_total s b) as [H|H]; [exact H|].
      exfalso. apply Hopen. by eapply Score_leq_trans. }
    rewrite (Score_min_r best s) by (by eapply Score_leq_trans).
    split; [|split].
    + intros _. apply Score_leq_min. right. apply Score_leq_min. left.
      by apply Hlow.
    + intros Hbs. exfalso. apply Hopen.
      eapply Score_leq_trans; [exact Hbeta|]. by eapply Score_leq_trans.
    + intros Hns _. contradiction.
  - apply Score_le_false in Hcut.
    assert (~ Score_leq s alpha) as Hns.
    { intros H. apply Hcut. apply Score_leq_min. by right. }
    assert (Score_leq (Score_min best s) (value move)) as Hvalue.
    { destruct (Score_leq_dec b s) as [Hbs|Hbs].
      - apply Score_leq_min. right. by apply Hhigh.
      - rewrite <- (Hin Hns Hbs). apply Score_min_leq_r. }
    replace (Score_min b s) with (Score_min beta (Score_min best s))
      by (unfold b; symmetry; apply Score_min_assoc).
    rewrite <- (Score_min_assoc processed).
    apply IH.
    + intros b' move' Hmove' Hb'. apply Hchild; [by right|exact Hb'].
    + rewrite <- Score_min_assoc. exact Hcut.
    + apply Score_min_leq. split; [|exact Hvalue].
      apply Score_leq_min. by left.
    + intros Hnew.
      destruct (Score_leq_dec best s) as [Hbs|Hbs].
      * rewrite (Score_min_l best s) in * by exact Hbs.
        apply Score_leq_min. left. by apply Hexact.
      * rewrite (Score_min_r best s) in * by (by apply Score_not_leq).
        apply Score_leq_min. right.
        rewrite <- Hin; [apply Score_leq_refl|exact Hns|].
        intros [H|H]%Score_leq_min; contradiction.
Qed.

Lemma searchChild_eq (child : M Score) (value : ChessGame -> Score) move g :
  (forall g', child g' = Some (value g', g')) ->
  searchChild (currentTurn g) child move g
  = Some (value (positionAfter move g), g).
Proof.
  intros Hchild. apply returns_eq.
  unfold searchChild, positionAfter. do 2 returns_step. cbn beta zeta.
  returns_step.
  destruct (makeSimulatedMove_frame move g) as ([] & g1 & Hmove & Hg1).
  exists tt, g1. split; [exact Hmove|]. rewrite Hmove.
  do 3 returns_step.
  eexists _, _. split; [apply Hchild|].
  repeat returns_step. split; [reflexivity|].
  apply searchFrame_restore; [search_frame|cbn; apply copyBoard_id|reflexivity..].
Qed.

Lemma maximizeOver_eq (child : Score -> Score -> M Score)
    (value : Score -> Score -> ChessGame -> Score) g moves :
  (forall alpha beta g', child alpha beta g' = Some (value alpha beta g', g')) ->
  forall maxScore alpha beta,
    maximizeOver (currentTurn g) child moves maxScore alpha beta g
    = Some (maximizeValues
              (fun alpha beta move => value alpha beta (positionAfter move g))
              moves maxScore alpha beta, g).
Proof.
  intros Hchild.
  induction moves as [|move moves IH]; intros maxScore alpha beta;
    [reflexivity|].
  cbn [maximizeOver maximizeValues].
  rewrite (bind_Some _ _ _ _ _
             (searchChild_eq _ (value alpha beta) move g (Hchild alpha beta))).
  cbv zeta. destruct (Score_le beta _); [reflexivity|apply IH].
Qed.

Lemma minimizeOver_eq (child : Score -> Score -> M Score)
    (value : Score -> Score -> ChessGame -> Score) g moves :
  (forall alpha beta g', child alpha beta g' = Some (value alpha beta g', g')) ->
  forall minScore alpha beta,
    minimizeOver (currentTurn g) child moves minScore alpha beta g
    = Some (minimizeValues
              (fun alpha beta move => value alpha beta (positionAfter move g))
              moves minScore alpha beta, g).
Proof.
  intros Hchild.
  induction moves as [|move moves IH]; intros minScore alpha beta;
    [reflexivity|].
  cbn [minimizeOver minimizeValues].
  rewrite (bind_Some _ _ _ _ _
             (searchChild_eq _ (value alpha beta) move g (Hchild alpha beta))).
  cbv zeta. destruct (Score_le _ alpha); [reflexivity|apply IH].
Qed.

Lemma minimax_eq ai depth alpha beta isMaximizing aiColor g :
  minimax ai depth alpha beta isMaximizing aiColor g
  = Some (searchValue ai depth alpha beta isMaximizing aiColor g, g).
Proof.
  revert alpha beta isMaximizing g.
  induction depth as [|depth IH]; intros alpha beta isMaximizing g.
  { reflexivity. }
  cbn [minimax searchValue].
  rewrite (bind_Some get _ g g g eq_refl). cbv zeta.
  rewrite (bind_Some _ _ _ _ _ (getAllValidMovesForMinimax_eq g)).
  case_decide as Hlen.
  { rewrite (bind_Some get _ g g g eq_refl). unfold terminalScore.
    destruct (isKingInCheck g (currentTurn g)); reflexivity. }
  destruct isMaximizing.
  - apply (maximizeOver_eq _
             (fun alpha beta g' => searchValue ai depth alpha beta false aiColor g')).
    intros a b g'. apply IH.
  - apply (minimizeOver_eq _
             (fun alpha beta g' => searchValue ai depth alpha beta true aiColor g')).
    intros a b g'. apply IH.
Qed.

Lemma withinWindow_exact alpha beta v : withinWindow alpha beta v v.
Proof.
  split; [|split]; intros; (apply Score_leq_refl || reflexivity).
Qed.

Lemma Score_max_NegInfinity x : Score_max NegInfinity x = x.
Proof. by destruct x. Qed.

Lemma Score_min_Infinity x : Score_min Infinity x = x.
Proof. by destruct x. Qed.

Lemma searchValue_window ai depth alpha beta isMaximizing aiColor g :
  ~ Score_leq beta alpha ->
  withinWindow alpha beta
    (searchValue ai depth alpha beta isMaximizing aiColor g)
    (minimaxValue ai depth isMaximizing aiColor g).
Proof.
  revert alpha beta isMaximizing g.
  induction depth as [|depth IH]; intros alpha beta isMaximizing g Hopen.
  { cbn [searchValue minimaxValue]. apply withinWindow_exact. }
  cbn [searchValue minimaxValue]. cbv zeta.
  generalize (allLegalMoves g (currentTurn g)). intros moves.
  case_decide as Hlen; [apply withinWindow_exact|].
  destruct isMaximizing.
  - pose proof (maximizeValues_window
      (fun alpha beta move =>
         searchValue ai depth alpha beta false aiColor (positionAfter move g))
      (fun move => minimaxValue ai depth false aiColor (positionAfter move g))
      moves NegInfinity NegInfinity alpha beta)
      as Hloop.
    rewrite (Score_max_l alpha NegInfinity) in Hloop by (destruct alpha; exact I).
    rewrite Score_max_NegInfinity in Hloop. apply Hloop.
    + intros a move _ Ha. by apply IH.
    + exact Hopen.
    + exact I.
    + intros Hneg. exfalso. apply Hneg. destruct alpha; exact I.
  - pose proof (minimizeValues_window
      (fun alpha beta move =>
         searchValue ai depth alpha beta true aiColor (positionAfter move g))
      (fun move => minimaxValue ai depth true aiColor (positionAfter move g))
      moves Infinity Infinity alpha beta)
      as Hloop.
    rewrite (Score_min_l beta Infinity) in Hloop by (destruct beta; exact I).
    rewrite Score_min_Infinity in Hloop. apply Hloop.
    + intros b move _ Hb. by apply IH.
    + exact Hopen.
    + exact I.
    + intros Hpos. exfalso. apply Hpos. destruct beta; exact I.
Qed.

Lemma searchValue_full ai depth isMaximizing aiColor g :
  searchValue ai depth NegInfinity Infinity isMaximizing aiColor g
  = minimaxValue ai depth isMaximizing aiColor g.
Proof.
  destruct (searchValue_window ai depth NegInfinity Infinity isMaximizing
              aiColor g) as (Hlow & Hhigh & Hin); [intros []|].
  revert Hlow Hhigh Hin.
  generalize (searchValue ai depth NegInfinity Infinity isMaximizing aiColor g).
  generalize (minimaxValue ai depth isMaximizing aiColor g).
  intros t v Hlow Hhigh Hin. destruct v as [|z|].
  - specialize (Hlow I). by destruct t.
  - apply Hin; intros [].
  - specialize (Hhigh I). by destruct t.
Qed.

Lemma minimaxValue_finite ai depth isMaximizing aiColor g :
  isFinite (minimaxValue ai depth isMaximizing aiColor g).
Proof.
  rewrite <- searchValue_full.
  destruct (minimax_frame ai depth NegInfinity Infinity isMaximizing aiColor g)
    as (s & g' & Hrun & Hfinite & _).
  rewrite minimax_eq in Hrun. by injection Hrun as -> _.
Qed.

(** X14: the pruning of [minimax] does not change the value at the root.
    With a window that is open ([alpha < beta]) the call returns, leaves
    the state as it was, and its result is the plain minimax value of the
    position when that lies strictly inside the window, an upper bound of
    it when the result is at most [alpha] and a lower bound when it is at
    least [beta]; with the full window [(-Infinity, Infinity)], as
    [getBestMove] calls it, the result is the plain minimax value. *)
Theorem minimax_pruning_keeps_value ai depth alpha beta isMaximizing aiColor g :
  ~ Score_leq beta alpha ->
  exists v,
    minimax ai depth alpha beta isMaximizing aiColor g = Some (v, g)
    ∧ withinWindow alpha beta v (minimaxValue ai depth isMaximizing aiColor g)
    ∧ (alpha = NegInfinity -> beta = Infinity ->
       v = minimaxValue ai depth isMaximizing aiColor g).
Proof.
  intros Hopen.
  exists (searchValue ai depth alpha beta isMaximizing aiColor g).
  split; [apply minimax_eq|].
  split; [by apply searchValue_window|].
  intros -> ->. apply searchValue_full.
Qed.

Lemma minimax_pruning_keeps_value_witness :
  ~ Score_leq (Finite 50) (Finite (-50))
  ∧ exists v,
      minimax (setDifficulty "easy") 1 (Finite (-50)) (Finite 50) true WHITE reset
      = Some (v, reset)
      ∧ withinWindow (Finite (-50)) (Finite 50) v
          (minimaxValue (setDifficulty "easy") 1 true WHITE reset).
Proof.
  assert (~ Score_leq (Finite 50) (Finite (-50))) as Hopen by (cbn; lia).
  split; [exact Hopen|].
  destruct (minimax_pruning_keeps_value (setDifficulty "easy") 1
              (Finite (-50)) (Finite 50) true WHITE reset Hopen)
    as (v & Hrun & Hwin & _).
  exists v. split; [exact Hrun|exact Hwin].
Defined.

Lemma pickBest_from value moves b :
  exists best,
    pickBest value moves (Some b, value b) = (Some best, value best)
    ∧ ((best = b ∧ forall c, c ∈ moves -> Score_leq (value c) (value b))
       ∨ exists pre post,
           moves = pre ++ best :: post
           ∧ ~ Score_leq (value best) (value b)
           ∧ (forall c, c ∈ pre -> ~ Score_leq (value best) (value c))
           ∧ forall c, c ∈ post -> Score_leq (value c) (value best)).
Proof.
  revert b. induction moves as [|move rest IH]; intros b.
  { exists b. split; [reflexivity|]. left. split; [reflexivity|].
    intros c Hc. by apply elem_of_nil in Hc. }
  unfold pickBest. cbn [foldl snd]. fold (pickBest value rest).
  unfold Score_gt. destruct (Score_le (value move) (value b)) eqn:Hle; cbn [negb].
  - apply Score_le_leq in Hle.
    destruct (IH b) as (best & Hpick & Hbest). exists best.
    split; [exact Hpick|].
    destruct Hbest as [[-> Hall]|(pre & post & -> & Hgt & Hpre & Hpost)].
    + left. split; [reflexivity|]. intros c Hc.
      apply elem_of_cons in Hc as [->|Hc]; [exact Hle|by apply Hall].
    + right. exists (move :: pre), post. split; [reflexivity|].
      split; [exact Hgt|]. split; [|exact Hpost].
      intros c Hc. apply elem_of_cons in Hc as [->|Hc]; [|by apply Hpre].
      intros Hbad. apply Hgt. by eapply Score_leq_trans.
  - apply Score_le_false in Hle.
    destruct (IH move) as (best & Hpick & Hbest). exists best.
    split; [exact Hpick|]. right.
    destruct Hbest as [[-> Hall]|(pre & post & -> & Hgt & Hpre & Hpost)].
    + exists [], rest. split; [reflexivity|]. split; [exact Hle|].
      split; [|exact Hall]. intros c Hc. by apply elem_of_nil in Hc.
    + exists (move :: pre), post. split; [reflexivity|].
      split; [|split; [|exact Hpost]].
      * intros Hbad. apply Hgt. eapply Score_leq_trans; [exact Hbad|].
        by apply Score_not_leq.
      * intros c Hc. apply elem_of_cons in Hc as [->|Hc]; [exact Hgt|].
        by apply Hpre.
Qed.

Lemma pickBest_first_greatest value moves :
  (forall move, isFinite (value move)) -> moves <> [] ->
  exists best pre post,
    pickBest value moves (None, NegInfinity) = (Some best, value best)
    ∧ moves = pre ++ best :: post
    ∧ (forall c, c ∈ pre -> ~ Score_leq (value best) (value c))
    ∧ forall c, c ∈ post -> Score_leq (value c) (value best).
Proof.
  intros Hfinite Hmoves. destruct moves as [|move rest]; [done|].
  unfold pickBest. cbn [foldl snd]. fold (pickBest value rest).
  assert (Score_gt (value move) NegInfinity = true) as ->.
  { specialize (Hfinite move). by destruct (value move). }
  destruct (pickBest_from value rest move) as (best & Hpick & Hbest).
  exists best.
  destruct Hbest as [[-> Hall]|(pre & post & -> & Hgt & Hpre & Hpost)].
  - exists [], rest. split; [exact Hpick|]. split; [reflexivity|].
    split; [|exact Hall]. intros c Hc. by apply elem_of_nil in Hc.
  - exists (move :: pre), post. split; [exact Hpick|]. split; [reflexivity|].
    split; [|exact Hpost].
    intros c Hc. apply elem_of_cons in Hc as [->|Hc]; [exact Hgt|by apply Hpre].
Qed.

Lemma getBestMove_pickBest ai random1 random2 g :
  allLegalMoves g (currentTurn g) <> [] ->
  negb (Qle_bool (randomFactor ai) 0) && negb (Qle_bool (randomFactor ai) random1)
  = false ->
  getBestMove ai random1 random2 g
  = Some (fst (pickBest (moveValue ai g)
                 (sortMoves (allLegalMoves g (currentTurn g)) g)
                 (None, NegInfinity)), g).
Proof.
  intros Hmoves Hrandom. apply returns_eq.
  unfold getBestMove. do 2 returns_step. cbn beta zeta.
  returns_step. apply returns_getAllValidMoves.
  revert Hmoves. generalize (allLegalMoves g (currentTurn g)). intros moves Hmoves.
  case_decide as Hlen; [by apply length_zero_iff_nil in Hlen|].
  rewrite Hrandom.
  do 2 returns_step. cbn beta zeta.
  returns_step.
  match goal with
  | |- returns (forEachM ?b _ _) _ _ => set (body := b)
  end.
  assert (forall best move,
    returns (body best move) g
      (fun best' g' =>
         best' = (if Score_gt (moveValue ai g move) (snd best)
                  then (Some move, moveValue ai g move) else best)
         ∧ g' = g)) as Hbody.
  { intros [bestMove bestScore] move. subst body. cbn beta iota.
    do 2 returns_step. cbn beta zeta. rewrite !copyBoard_id.
    do 2 returns_step. rewrite set_board_id.
    returns_step.
    destruct (makeSimulatedMove_frame move g) as ([] & g1 & Hmove & Hg1).
    exists tt, g1. split; [exact Hmove|].
    unfold moveValue, positionAfter. rewrite Hmove.
    do 3 returns_step.
    eexists _, _. split; [apply minimax_eq|]. rewrite searchValue_full.
    do 6 returns_step.
    assert (set_currentTurn (currentTurn g)
              (set_enPassantTarget (enPassantTarget g)
                 (set_board (board g)
                    (set_currentTurn (opponent (currentTurn g)) g1))) = g)
      as ->.
    { apply searchFrame_restore; [search_frame|reflexivity..]. }
    cbn [snd].
    destruct (Score_gt _ bestScore); returns_step; done. }
  generalize (sortMoves moves g). intros sorted.
  generalize (@None Candidate.t, NegInfinity). intros best.
  revert best. induction sorted as [|move rest IH]; intros best.
  { cbn [forEachM]. apply (returns_ret best). returns_step. done. }
  cbn [forEachM]. returns_step.
  eapply returns_weaken; [apply Hbody|].
  intros best' g' [-> ->]. cbn beta.
  apply IH.
Qed.

(** X15: when [getBestMove] does not take a random move (always at
    difficulty hard, where [randomFactor] is 0, and otherwise when the
    first random number is not below [randomFactor]) and the side to move
    has a legal move, it returns the first move of the [sortMoves] order
    whose position has the greatest minimax value, [maxDepth - 1] plies
    deep: every move sorted before it has a strictly smaller value and no
    legal move has a greater one.  The state is left as it was. *)
Theorem getBestMove_picks_first_best_move ai random1 random2 g :
  allLegalMoves g (currentTurn g) <> [] ->
  (randomFactor ai <= 0 ∨ randomFactor ai <= random1)%Q ->
  exists best pre post,
    getBestMove ai random1 random2 g = Some (Some best, g)
    ∧ sortMoves (allLegalMoves g (currentTurn g)) g = pre ++ best :: post
    ∧ (forall c, c ∈ pre ->
         ~ Score_leq (moveValue ai g best) (moveValue ai g c))
    ∧ (forall c, c ∈ allLegalMoves g (currentTurn g) ->
         Score_leq (moveValue ai g c) (moveValue ai g best)).
Proof.
  intros Hmoves Hrandom.
  assert (negb (Qle_bool (randomFactor ai) 0)
          && negb (Qle_bool (randomFactor ai) random1) = false) as Hbranch.
  { apply andb_false_iff. rewrite !negb_false_iff, !Qle_bool_iff. exact Hrandom. }
  rewrite (getBestMove_pickBest ai random1 random2 g Hmoves Hbranch).
  assert (sortMoves (allLegalMoves g (currentTurn g)) g <> []) as Hsorted.
  { intros Hnil. apply Hmoves, length_zero_iff_nil.
    rewrite <- (sortMoves_length _ g), Hnil. reflexivity. }
  assert (forall c, c ∈ allLegalMoves g (currentTurn g)
                    <-> c ∈ sortMoves (allLegalMoves g (currentTurn g)) g)
    as Hperm.
  { intros c. by rewrite sortMoves_perm. }
  revert Hsorted Hperm.
  generalize (sortMoves (allLegalMoves g (currentTurn g)) g).
  generalize (allLegalMoves g (currentTurn g)).
  intros moves sorted Hsorted Hperm.
  destruct (pickBest_first_greatest (moveValue ai g) sorted)
    as (best & pre & post & Hpick & -> & Hpre & Hpost);
    [intros move; apply minimaxValue_finite|exact Hsorted|].
  exists best, pre, post. rewrite Hpick. cbn [fst].
  split; [reflexivity|]. split; [reflexivity|]. split; [exact Hpre|].
  intros c Hc. apply Hperm in Hc.
  apply elem_of_app in Hc as [Hc|Hc].
  - apply Score_not_leq. by apply Hpre.
  - apply elem_of_cons in Hc as [->|Hc]; [apply Score_leq_refl|by apply Hpost].
Qed.

Lemma getBestMove_picks_first_best_move_witness :
  allLegalMoves reset (currentTurn reset) <> []
  ∧ exists best,
      getBestMove (setDifficulty "hard") (1 # 2) (1 # 2) reset
      = Some (Some best, reset)
      ∧ forall c, c ∈ allLegalMoves reset (currentTurn reset) ->
          Score_leq (moveValue (setDifficulty "hard") reset c)
                    (moveValue (setDifficulty "hard") reset best).
Proof.
  assert (allLegalMoves reset (currentTurn reset) <> []) as Hmoves.
  { intros Hnil. apply (f_equal length) in Hnil. vm_compute in Hnil.
    discriminate Hnil. }
  split; [exact Hmoves|].
  destruct (getBestMove_picks_first_best_move (setDifficulty "hard")
              (1 # 2) (1 # 2) reset Hmoves) as (best & _ & _ & Hrun & _ & _ & Hall).
  { left. vm_compute. discriminate. }
  exists best. split; [exact Hrun|exact Hall].
Defined.

(** ** The positions of the search and the positions of the game *)

Lemma makeSimulatedMove_eq fromRow fromCol to piece' piece g :
  getPiece g fromRow fromCol = Some piece ->
  makeSimulatedMove (Candidate.mk (fromRow, fromCol) to piece') g
  = Some (tt,
          set_enPassantTarget
            (if MoveInfo.twoStep to then
               Some (capturedRowOf piece (MoveInfo.row to), MoveInfo.col to)
             else None)
            (set_board (simulatedBoard fromRow fromCol piece to (board g)) g)).
Proof.
  intros Hp. unfold makeSimulatedMove, simulatedBoard, capturedRowOf.
  cbn [Candidate.from Candidate.to].
  rewrite (bind_Some get _ g g g eq_refl). rewrite Hp.
  destruct (MoveInfo.enPassant to);
    destruct (MoveInfo.castling to) as [[]|];
    destruct (MoveInfo.promotion to);
    munfold; rewrite ?setPiece_eq; cbn -[place pieceAt putPiece];
    rewrite ?setPiece_eq; cbn -[place pieceAt putPiece];
    rewrite ?setPiece_eq; cbn -[place pieceAt putPiece];
    rewrite ?setPiece_eq; cbn -[place pieceAt putPiece];
    rewrite ?setPiece_eq; cbn -[place pieceAt putPiece];
    rewrite ?setPiece_eq; cbn -[place pieceAt putPiece];
    rewrite !putPiece_place; cbn -[place pieceAt];
    rewrite ?getPiece_pieceAt; cbn -[place pieceAt];
    rewrite ?set_board_set_board; reflexivity.
Qed.

Lemma offsetMoves_near g r c piece moves offsets :
  Forall (fun offset => -1 <= fst offset <= 1 ∧ -1 <= snd offset <= 1) offsets ->
  Forall (nearStep r c) moves ->
  Forall (nearStep r c) (offsetMoves g r c piece moves offsets).
Proof.
  unfold offsetMoves. revert moves.
  induction offsets as [|[dr dc] offsets IH]; intros moves Hoff Hm; [exact Hm|].
  apply Forall_cons in Hoff as [Hd Hoff]. cbn [fst snd] in Hd.
  cbn [foldl]. apply IH; [exact Hoff|].
  case_decide; [|exact Hm].
  destruct (emptyOrEnemy _ piece); [|exact Hm].
  apply Forall_snoc_push; [exact Hm|].
  intros _. record_fields. lia.
Qed.

Lemma getCastlingMoves_near g r c piece moves :
  Forall (nearStep r c) moves ->
  Forall (nearStep r c) (getCastlingMoves g r c piece moves).
Proof.
  intros Hm. unfold getCastlingMoves, getCastlingMovesWith.
  set (moves1 := match getPiece g r 7 with Some _ => _ | None => moves end).
  assert (Forall (nearStep r c) moves1) as Hm1.
  { subst moves1. destruct (getPiece g r 7) as [rook|]; [|exact Hm].
    repeat (case_decide; [|exact Hm]).
    destruct (_ && _); [|exact Hm].
    apply Forall_snoc_push; [exact Hm|]. intros Hc. discriminate Hc. }
  clearbody moves1.
  destruct (getPiece g r 0) as [rook|]; [|exact Hm1].
  repeat (case_decide; [|exact Hm1]).
  destruct (_ && _); [|exact Hm1].
  apply Forall_snoc_push; [exact Hm1|]. intros Hc. discriminate Hc.
Qed.

Lemma getRawMoves_king_near g r c piece :
  type piece = KING ->
  Forall (nearStep r c) (getRawMoves g r c piece false).
Proof.
  intros Hty. unfold getRawMoves, getRawMovesWith. rewrite Hty.
  unfold getKingMovesWith.
  assert (Forall (nearStep r c) (offsetMoves g r c piece [] kingOffsets))
    as Hsteps.
  { apply offsetMoves_near; [|constructor].
    unfold kingOffsets. repeat constructor; cbn; lia. }
  destruct (_ && _); [|exact Hsteps].
  apply getCastlingMoves_near, Hsteps.
Qed.

(** Two pseudo-legal moves of a piece to the same square have the same
    effect on the board: they carry the same flags but for [capture]. *)
Lemma getRawMoves_same_dest_flags g fr fc piece m m' :
  (forall er ec, enPassantTarget g = Some (er, ec) -> getPiece g er ec = None) ->
  getPiece g fr fc = Some piece ->
  m ∈ getRawMoves g fr fc piece false ->
  m' ∈ getRawMoves g fr fc piece false ->
  MoveInfo.row m' = MoveInfo.row m -> MoveInfo.col m' = MoveInfo.col m ->
  MoveInfo.enPassant m' = MoveInfo.enPassant m
  ∧ MoveInfo.castling m' = MoveInfo.castling m
  ∧ MoveInfo.promotion m' = MoveInfo.promotion m
  ∧ MoveInfo.twoStep m' = MoveInfo.twoStep m.
Proof.
  intros Hep Hp Hin Hin' Hr Hc.
  pose proof (getPiece_onBoard _ _ _ _ Hp) as Hon.
  pose proof (getRawMoves_raw g fr fc piece Hon) as Hraw.
  rewrite Forall_forall in Hraw.
  pose proof (Hraw m Hin) as Hm. pose proof (Hraw m' Hin') as Hm'.
  destruct (decide (type piece = PAWN)) as [Hty|Hty].
  { by rewrite (RawMove_pawn_same_dest g fr fc piece m m' Hep Hty Hm Hm' Hr Hc). }
  assert (type piece = KING -> nearStep fr fc m ∧ nearStep fr fc m') as Hnear.
  { intros Hking.
    pose proof (getRawMoves_king_near g fr fc piece Hking) as Hall.
    rewrite Forall_forall in Hall. split; by apply Hall. }
  clear Hraw Hin Hin'.
  destruct Hm; try contradiction; destruct Hm'; try contradiction;
    record_fields; cbn [MoveInfo.row MoveInfo.col] in Hr, Hc;
    try (repeat split; reflexivity); try lia; exfalso;
    match goal with
    | H : type piece = KING |- _ =>
        destruct (Hnear H) as [Hn Hn']; unfold nearStep in Hn, Hn';
        cbn [MoveInfo.row MoveInfo.col MoveInfo.castling] in Hn, Hn'
    end.
  all: try specialize (Hn eq_refl); try specialize (Hn' eq_refl).
  all: subst.
  all: repeat match goal with
              | H : _ ∧ _ |- _ => destruct H
              end.
  all: try (assert (fc = 5 ∨ fc = 6 ∨ fc = 7) as [->|[->| ->]] by lia;
            congruence).
  all: try (assert (fc = 1 ∨ fc = 2 ∨ fc = 3) as [->|[->| ->]] by lia;
            congruence).
Qed.

Lemma executedBoard_kindOf fr fc piece m m' promo b b' :
  wfBoard b ->
  MoveInfo.enPassant m' = MoveInfo.enPassant m ->
  MoveInfo.castling m' = MoveInfo.castling m ->
  MoveInfo.promotion m' = MoveInfo.promotion m ->
  promo = (if MoveInfo.promotion m then Some QUEEN else None) ->
  executedBoard fr fc (MoveInfo.row m) (MoveInfo.col m) promo piece m' b
    = Some b' ->
  forall r c,
    kindOf (pieceAt (simulatedBoard fr fc piece m b) r c)
    = kindOf (pieceAt b' r c).
Proof.
  intros Hwf Hep Hcastle Hpromotion -> Hb r c.
  unfold executedBoard in Hb. unfold simulatedBoard.
  rewrite Hep, Hcastle, Hpromotion in Hb. clear Hep Hcastle Hpromotion m'.
  destruct (MoveInfo.enPassant m);
    destruct (MoveInfo.castling m) as [[]|];
    try match type of Hb with
        | context [pieceAt ?b0 fr ?k] =>
            destruct (pieceAt b0 fr k) as [rook|] eqn:Hrook;
            [|discriminate Hb]
        end;
    destruct (MoveInfo.promotion m);
    cbn [mbind option_bind] in Hb; injection Hb as <-;
    rewrite !pieceAt_place by (repeat apply wfBoard_place; exact Hwf);
    repeat case_decide; try reflexivity;
    rewrite ?Hrook; reflexivity.
Qed.

(** X16: the position the search looks at after a legal move of a
    reachable state is the position of the game after that move, made
    as [makeAIMove] makes it (promoting to a queen), but for the
    [hasMoved] flags: the real move is accepted, every square holds a
    piece of the same type and colour in both, and the side to move and
    the en-passant target are the same.  The flags differ: without a
    promotion the game puts the piece on the destination marked as
    moved, the search puts it there as it was. *)
Theorem search_position_matches_game g cand :
  reachable g ->
  cand ∈ allLegalMoves g (currentTurn g) ->
  exists g',
    playMove (Candidate.from cand).1 (Candidate.from cand).2
      (MoveInfo.row (Candidate.to cand)) (MoveInfo.col (Candidate.to cand))
      (if MoveInfo.promotion (Candidate.to cand) then Some QUEEN else None) g
    = Some (true, g')
    ∧ (forall r c,
         kindOf (getPiece (positionAfter cand g) r c) = kindOf (getPiece g' r c))
    ∧ currentTurn (positionAfter cand g) = currentTurn g'
    ∧ enPassantTarget (positionAfter cand g) = enPassantTarget g'
    ∧ (MoveInfo.promotion (Candidate.to cand) = false ->
       getPiece (positionAfter cand g)
         (MoveInfo.row (Candidate.to cand)) (MoveInfo.col (Candidate.to cand))
       = Some (Candidate.piece cand)
       ∧ getPiece g'
           (MoveInfo.row (Candidate.to cand)) (MoveInfo.col (Candidate.to cand))
         = Some (withHasMoved true (Candidate.piece cand))).
Proof.
  intros Hreach Hcand. pose proof (reachable_Inv g Hreach) as HI.
  apply allLegalMoves_elem in Hcand as (fr & fc & piece & m & Hp & _ & Hin & ->).
  cbn [Candidate.from Candidate.to Candidate.piece fst snd].
  set (promo := if MoveInfo.promotion m then Some QUEEN else None).
  destruct (playMove_legal fr fc promo g m Hin) as [g' Hplay].
  exists g'. split; [exact Hplay|].
  destruct (playMove_success _ _ _ _ _ _ _ Hplay)
    as (piece' & m' & b' & Hp' & _ & Hfind & Hr & Hc & Hraw' & _ & Hb & ->).
  rewrite Hp in Hp'. injection Hp' as <-.
  destruct (find_landsOn_Some _ _ _ _ Hfind) as (Hin' & _ & _).
  pose proof Hin as Hin0. pose proof Hin' as Hin0'.
  apply legalMoves_elem in Hin0 as (p & Hp0 & _ & Hraw0 & _).
  apply legalMoves_elem in Hin0' as (p' & Hp0' & _ & Hraw0' & _).
  rewrite Hp in Hp0, Hp0'. injection Hp0 as <-. injection Hp0' as <-.
  assert (forall er ec, enPassantTarget g = Some (er, ec) ->
                        getPiece g er ec = None) as Hep.
  { intros er ec H. apply (inv_ep _ HI _ _ H). }
  destruct (getRawMoves_same_dest_flags g fr fc piece m m' Hep Hp Hraw0 Hraw0'
              Hr Hc) as (Hflag1 & Hflag2 & Hflag3 & Hflag4).
  destruct (legalMoves_raw _ _ _ _ Hin) as (p & Hp0 & _ & Hraw & _).
  rewrite Hp in Hp0. injection Hp0 as <-.
  destruct (RawMove_dest _ _ _ _ _ Hp Hraw) as [Hto Hne].
  pose proof (getPiece_onBoard _ _ _ _ Hp) as Hfrom.
  pose proof (inv_wf _ HI) as Hwf.
  destruct (played_fields fr fc (MoveInfo.row m) (MoveInfo.col m) promo piece m'
              b' (selected g fr fc))
    as (_ & Hturn & Htarget & _ & _ & Hcells & _).
  cbv zeta in Hturn, Htarget, Hcells.
  generalize dependent (checked (played fr fc (MoveInfo.row m) (MoveInfo.col m)
                                   promo piece m' b' (selected g fr fc))).
  intros g' _ Hturn Htarget Hcells.
  unfold positionAfter.
  rewrite (makeSimulatedMove_eq fr fc m piece piece g Hp).
  split; [|split; [|split]].
  - intros r c. rewrite Hcells, getPiece_pieceAt. cbn [board set_board
      set_enPassantTarget set_currentTurn].
    by apply (executedBoard_kindOf fr fc piece m m' promo).
  - rewrite Hturn. reflexivity.
  - rewrite Htarget, Hflag4. reflexivity.
  - intros Hpromotion. rewrite Hcells, getPiece_pieceAt.
    cbn [board set_board set_enPassantTarget set_currentTurn].
    split.
    + unfold simulatedBoard. rewrite Hpromotion.
      rewrite !pieceAt_place.
      * rewrite decide_False by tauto. rewrite decide_True by tauto. reflexivity.
      * destruct (MoveInfo.enPassant m), (MoveInfo.castling m) as [[]|];
          repeat apply wfBoard_place; exact Hwf.
      * destruct (MoveInfo.enPassant m), (MoveInfo.castling m) as [[]|];
          repeat apply wfBoard_place; exact Hwf.
    + destruct (executedBoard_facts g fr fc piece m' promo Hwf Hp Hraw'
                  (inv_symbols _ HI)) as (b'' & Hb'' & _ & _ & _ & Hlanded & _).
      rewrite Hr, Hc in Hb'', Hlanded. rewrite Hb in Hb''. injection Hb'' as <-.
      rewrite Hlanded. unfold landed. rewrite Hflag3, Hpromotion.
      by destruct promo.
Qed.

Lemma search_position_matches_game_witness :
  exists g',
    playMove 6 3 4 3 None reset = Some (true, g')
    ∧ enPassantTarget
        (positionAfter
           (Candidate.mk (6, 3) (MoveInfo.mk 4 3 false false true false None)
              (createPiece PAWN WHITE)) reset)
      = enPassantTarget g'.
Proof.
  destruct (search_position_matches_game reset
              (Candidate.mk (6, 3) (MoveInfo.mk 4 3 false false true false None)
                 (createPiece PAWN WHITE)))
    as (g' & Hplay & _ & _ & Htarget & _).
  - apply reachable_reset.
  - apply list_elem_of_In. vm_compute. tauto.
  - exists g'. split; [exact Hplay|exact Htarget].
Defined.
